(** * goog.module.ModuleManager: a shallow embedding and its verification

    The development follows static/js/closure/goog/module/modulemanager.js.
    The manager is single-threaded and callback driven, so every method is
    embedded as a function on an explicit state (the manager object together
    with the deferreds, the pending timers and the log of calls that leave
    the manager: loader requests and callback invocations).  JavaScript
    exceptions and the one unbounded loop are made explicit in the result
    type. *)

From stdpp Require Import gmap strings list fin_maps relations.
From Stdlib Require Import ZArith Lia.

Open Scope string_scope.
Open Scope nat_scope.
Open Scope list_scope.
Set Warnings "-clear-no-such-hyp,-register-all".  (* set_solver clears eagerly *)

(** ** Results of running JavaScript code *)

Inductive Exn :=
  | TypeError                          (* a method called on [undefined] *)
  | ModuleAlreadyLoaded (id : string)  (* Error('Module already loaded: ' + id) *)
  | AlreadyCalledError.                (* a goog.async.Deferred fired twice *)

Inductive Result (A : Type) :=
  | Ok (a : A)
  | Throw (e : Exn)
  | OutOfFuel.
Arguments Ok {A} a.
Arguments Throw {A} e.
Arguments OutOfFuel {A}.

Definition is_Ok {A} (r : Result A) : Prop := ∃ a, r = Ok a.

(** ** goog.array *)

Module goog_array.

(** Array.prototype.pop: removes and returns the last element. *)
Fixpoint pop {A} (arr : list A) : option (A * list A) :=
  match arr with
  | [] => None
  | x :: arr' =>
      match pop arr' with
      | None => Some (x, [])
      | Some (y, rest) => Some (y, x :: rest)
      end
  end.

(** Modelled from the spec: goog.array.contains belongs to
    goog/array/array.js, which is not among the files verified; it tells
    whether the array holds the value. *)
Definition contains (arr : list string) (obj : string) : bool :=
  bool_decide (obj ∈ arr).

(** Modelled from the spec: goog.array.remove belongs to
    goog/array/array.js, which is not among the files verified; it deletes
    the first occurrence of the value, if any, and leaves later
    occurrences in place. *)
Fixpoint remove (arr : list string) (obj : string) : list string :=
  match arr with
  | [] => []
  | x :: arr' => if decide (x = obj) then arr' else x :: remove arr' obj
  end.

(** Modelled from the spec: goog.array.insert belongs to
    goog/array/array.js, which is not among the files verified; it pushes
    the value unless the array already contains it. *)
Definition insert (arr : list string) (obj : string) : list string :=
  if contains arr obj then arr else arr ++ [obj].

(** Modelled from the spec: goog.array.removeDuplicates belongs to
    goog/array/array.js, which is not among the files verified; "remove
    duplicate occurrences keeping the first".  [seen] is the set of values
    met so far. *)
Fixpoint removeDuplicates_from (seen : gset string) (arr : list string)
    : list string :=
  match arr with
  | [] => []
  | x :: arr' =>
      if decide (x ∈ seen) then removeDuplicates_from seen arr'
      else x :: removeDuplicates_from ({[x]} ∪ seen) arr'
  end.

Definition removeDuplicates (arr : list string) : list string :=
  removeDuplicates_from ∅ arr.

End goog_array.

(** ** goog.module.ModuleInfo *)

(** The functions the manager hands around.  [d.callback] and [d.errback]
    of a deferred [d] are the two methods the manager itself registers;
    every other function belongs to the application and is opaque: calling
    it is recorded and does not re-enter the manager. *)
Inductive Fn :=
  | DeferredCallback (d : nat)
  | DeferredErrback (d : nat)
  | AppFn (f : nat) (handler : option nat).

(** goog.module.ModuleManager.FailureType *)
Inductive FailureType :=
  | UNAUTHORIZED
  | CONSECUTIVE_FAILURES
  | TIMEOUT
  | OLD_CODE_GONE.

(** Modelled from the spec: goog.module.ModuleInfo (moduleinfo.js) is not
    among the files verified.  A record holds the declared dependency
    ids, the loaded flag and the ordered lists of pending callbacks,
    pending errbacks and early callbacks. *)
Record ModuleInfo := {
  dependencyIds : list string;
  loaded : bool;
  pendingCallbacks : list Fn;
  pendingErrbacks : list Fn;
  earlyCallbacks : list Fn
}.

(** new goog.module.ModuleInfo(deps) *)
Definition newModuleInfo (deps : list string) : ModuleInfo :=
  {| dependencyIds := deps; loaded := false; pendingCallbacks := [];
     pendingErrbacks := []; earlyCallbacks := [] |}.

Definition getDependencies (info : ModuleInfo) : list string :=
  dependencyIds info.

Definition isLoaded (info : ModuleInfo) : bool := loaded info.

Definition registerCallback_info (fn : Fn) (info : ModuleInfo) : ModuleInfo :=
  {| dependencyIds := dependencyIds info; loaded := loaded info;
     pendingCallbacks := pendingCallbacks info ++ [fn];
     pendingErrbacks := pendingErrbacks info;
     earlyCallbacks := earlyCallbacks info |}.

Definition registerErrback_info (fn : Fn) (info : ModuleInfo) : ModuleInfo :=
  {| dependencyIds := dependencyIds info; loaded := loaded info;
     pendingCallbacks := pendingCallbacks info;
     pendingErrbacks := pendingErrbacks info ++ [fn];
     earlyCallbacks := earlyCallbacks info |}.

Definition registerEarlyCallback_info (fn : Fn) (info : ModuleInfo)
    : ModuleInfo :=
  {| dependencyIds := dependencyIds info; loaded := loaded info;
     pendingCallbacks := pendingCallbacks info;
     pendingErrbacks := pendingErrbacks info;
     earlyCallbacks := earlyCallbacks info ++ [fn] |}.

(** The record once its module is loaded (onLoad) or has failed (onError):
    the pending lists have fired and are discarded. *)
Definition markLoaded (info : ModuleInfo) : ModuleInfo :=
  {| dependencyIds := dependencyIds info; loaded := true;
     pendingCallbacks := []; pendingErrbacks := []; earlyCallbacks := [] |}.

Definition clearPending (info : ModuleInfo) : ModuleInfo :=
  {| dependencyIds := dependencyIds info; loaded := loaded info;
     pendingCallbacks := []; pendingErrbacks := []; earlyCallbacks := [] |}.

(** ** The dependency resolver *)

Section resolver.
Variable moduleInfoMap_ : gmap string ModuleInfo.

(** The [while (depIds.length)] loop of getNotYetLoadedTransitiveDepIds_.
    [pop] takes the last entry of the worklist, [unshift] puts the new id
    in front of [ids] and the dependencies in front of the worklist.  The
    loop has no bound of its own, hence the fuel; a lookup of an unknown
    id yields [undefined], whose [isLoaded] call throws. *)
Fixpoint depIdsLoop (fuel : nat) (ids depIds : list string)
    : Result (list string) :=
  match fuel with
  | 0 => OutOfFuel
  | S fuel' =>
      match goog_array.pop depIds with
      | None => Ok ids
      | Some (depId, depIds') =>
          match moduleInfoMap_ !! depId with
          | None => Throw TypeError
          | Some info =>
              if isLoaded info then depIdsLoop fuel' ids depIds'
              else depIdsLoop fuel' (depId :: ids)
                     (getDependencies info ++ depIds')
          end
      end
  end.

(** The array [ids] as it stands when the loop ends, before duplicates
    are stripped. *)
Definition collectedDepIds (fuel : nat) (id : string)
    : Result (list string) :=
  match moduleInfoMap_ !! id with
  | None => Throw TypeError
  | Some info => depIdsLoop fuel [id] (getDependencies info)
  end.

Definition getNotYetLoadedTransitiveDepIds_ (fuel : nat) (id : string)
    : Result (list string) :=
  match collectedDepIds fuel id with
  | Ok ids => Ok (goog_array.removeDuplicates ids)
  | Throw e => Throw e
  | OutOfFuel => OutOfFuel
  end.

(** [x] declares [d] as a dependency. *)
Definition dependsOn (x d : string) : Prop :=
  ∃ info, moduleInfoMap_ !! x = Some info ∧ d ∈ getDependencies info.

Definition notYetLoaded (x : string) : Prop :=
  ∃ info, moduleInfoMap_ !! x = Some info ∧ isLoaded info = false.

(** [x] declares the not-yet-loaded module [d] as a dependency. *)
Definition awaits (x d : string) : Prop := dependsOn x d ∧ notYetLoaded d.

(** The dependency relation has no cycle. *)
Definition acyclic : Prop := ∀ x, ¬ tc dependsOn x x.

(** Every declared dependency is a registered module. *)
Definition closed : Prop := ∀ x d, dependsOn x d → is_Some (moduleInfoMap_ !! d).

End resolver.

(** [x] stands before [y] in [l]. *)
Definition before (l : list string) (x y : string) : Prop :=
  ∃ i j, l !! i = Some x ∧ l !! j = Some y ∧ i < j.


(** ** Measures and invariants of the resolver loop *)

Section resolver_loop.
Variable m : gmap string ModuleInfo.

(** The number of loop iterations an entry of the worklist stands for: one
    for the entry itself, and those of its dependencies when the loop goes
    on into them. *)
Inductive cost : string → nat → Prop :=
  | cost_unknown x : m !! x = None → cost x 1
  | cost_loaded x info :
      m !! x = Some info → isLoaded info = true → cost x 1
  | cost_pending x info ns :
      m !! x = Some info → isLoaded info = false →
      Forall2 cost (getDependencies info) ns →
      cost x (S (sum_list ns)).

(** Whatever is collected is awaited by [id] through a chain of
    not-yet-loaded modules, and [id] itself closes the array. *)
Definition collected_sound (id : string) (ids depIds : list string) : Prop :=
  (∃ pre, ids = pre ++ [id] ∧ ∀ x, x ∈ pre → tc (awaits m) id x) ∧
  (∀ w, w ∈ depIds → ∃ y, rtc (awaits m) id y ∧ dependsOn m y w).

(** Every not-yet-loaded dependency of a collected id stands further to
    the front of the array, or is still on the worklist. *)
Definition collected_order (ids depIds : list string) : Prop :=
  ∀ i y d, ids !! i = Some y → awaits m y d →
    (∃ j, j < i ∧ ids !! j = Some d) ∨ d ∈ depIds.

End resolver_loop.

(** ** goog.module.ModuleManager: the state *)

(** goog.module.ModuleManager.CallbackType, with the string each member
    stands for; the strings are the keys of [callbackMap_]. *)
Inductive CallbackType := ERROR | IDLE | ACTIVE | USER_IDLE | USER_ACTIVE.

Definition callbackTypeName (type : CallbackType) : string :=
  match type with
  | ERROR => "error"
  | IDLE => "idle"
  | ACTIVE => "active"
  | USER_IDLE => "userIdle"
  | USER_ACTIVE => "userActive"
  end.

(** The fields of the manager object.  Functions registered with
    registerCallback are opaque and named by a number. *)
Record ModuleManager := {
  moduleInfoMap_ : gmap string ModuleInfo;
  loadingModuleIds_ : list string;
  requestedModuleIdsQueue_ : list string;
  userInitiatedLoadingModuleIds_ : list string;
  callbackMap_ : gmap string (list nat);
  batchModeEnabled_ : bool;
  consecutiveFailures_ : nat;
  lastActive_ : bool;
  userLastActive_ : bool;
  moduleContext_ : option nat;
  currentlyLoadingModule_ : option string
}.

(** new goog.module.ModuleManager() *)
Definition newModuleManager : ModuleManager :=
  {| moduleInfoMap_ := ∅; loadingModuleIds_ := [];
     requestedModuleIdsQueue_ := []; userInitiatedLoadingModuleIds_ := [];
     callbackMap_ := ∅; batchModeEnabled_ := false;
     consecutiveFailures_ := 0; lastActive_ := false;
     userLastActive_ := false; moduleContext_ := None;
     currentlyLoadingModule_ := None |}.

(** Assignments to single fields. *)
Definition set_moduleInfoMap_ (v : gmap string ModuleInfo)
    (mm : ModuleManager) : ModuleManager :=
  {| moduleInfoMap_ := v; loadingModuleIds_ := loadingModuleIds_ mm;
     requestedModuleIdsQueue_ := requestedModuleIdsQueue_ mm;
     userInitiatedLoadingModuleIds_ := userInitiatedLoadingModuleIds_ mm;
     callbackMap_ := callbackMap_ mm;
     batchModeEnabled_ := batchModeEnabled_ mm;
     consecutiveFailures_ := consecutiveFailures_ mm;
     lastActive_ := lastActive_ mm; userLastActive_ := userLastActive_ mm;
     moduleContext_ := moduleContext_ mm;
     currentlyLoadingModule_ := currentlyLoadingModule_ mm |}.

Definition set_loadingModuleIds_ (v : list string) (mm : ModuleManager)
    : ModuleManager :=
  {| moduleInfoMap_ := moduleInfoMap_ mm; loadingModuleIds_ := v;
     requestedModuleIdsQueue_ := requestedModuleIdsQueue_ mm;
     userInitiatedLoadingModuleIds_ := userInitiatedLoadingModuleIds_ mm;
     callbackMap_ := callbackMap_ mm;
     batchModeEnabled_ := batchModeEnabled_ mm;
     consecutiveFailures_ := consecutiveFailures_ mm;
     lastActive_ := lastActive_ mm; userLastActive_ := userLastActive_ mm;
     moduleContext_ := moduleContext_ mm;
     currentlyLoadingModule_ := currentlyLoadingModule_ mm |}.

Definition set_requestedModuleIdsQueue_ (v : list string)
    (mm : ModuleManager) : ModuleManager :=
  {| moduleInfoMap_ := moduleInfoMap_ mm;
     loadingModuleIds_ := loadingModuleIds_ mm;
     requestedModuleIdsQueue_ := v;
     userInitiatedLoadingModuleIds_ := userInitiatedLoadingModuleIds_ mm;
     callbackMap_ := callbackMap_ mm;
     batchModeEnabled_ := batchModeEnabled_ mm;
     consecutiveFailures_ := consecutiveFailures_ mm;
     lastActive_ := lastActive_ mm; userLastActive_ := userLastActive_ mm;
     moduleContext_ := moduleContext_ mm;
     currentlyLoadingModule_ := currentlyLoadingModule_ mm |}.

Definition set_userInitiatedLoadingModuleIds_ (v : list string)
    (mm : ModuleManager) : ModuleManager :=
  {| moduleInfoMap_ := moduleInfoMap_ mm;
     loadingModuleIds_ := loadingModuleIds_ mm;
     requestedModuleIdsQueue_ := requestedModuleIdsQueue_ mm;
     userInitiatedLoadingModuleIds_ := v;
     callbackMap_ := callbackMap_ mm;
     batchModeEnabled_ := batchModeEnabled_ mm;
     consecutiveFailures_ := consecutiveFailures_ mm;
     lastActive_ := lastActive_ mm; userLastActive_ := userLastActive_ mm;
     moduleContext_ := moduleContext_ mm;
     currentlyLoadingModule_ := currentlyLoadingModule_ mm |}.

Definition set_callbackMap_ (v : gmap string (list nat))
    (mm : ModuleManager) : ModuleManager :=
  {| moduleInfoMap_ := moduleInfoMap_ mm;
     loadingModuleIds_ := loadingModuleIds_ mm;
     requestedModuleIdsQueue_ := requestedModuleIdsQueue_ mm;
     userInitiatedLoadingModuleIds_ := userInitiatedLoadingModuleIds_ mm;
     callbackMap_ := v;
     batchModeEnabled_ := batchModeEnabled_ mm;
     consecutiveFailures_ := consecutiveFailures_ mm;
     lastActive_ := lastActive_ mm; userLastActive_ := userLastActive_ mm;
     moduleContext_ := moduleContext_ mm;
     currentlyLoadingModule_ := currentlyLoadingModule_ mm |}.

Definition set_batchModeEnabled_ (v : bool) (mm : ModuleManager)
    : ModuleManager :=
  {| moduleInfoMap_ := moduleInfoMap_ mm;
     loadingModuleIds_ := loadingModuleIds_ mm;
     requestedModuleIdsQueue_ := requestedModuleIdsQueue_ mm;
     userInitiatedLoadingModuleIds_ := userInitiatedLoadingModuleIds_ mm;
     callbackMap_ := callbackMap_ mm;
     batchModeEnabled_ := v;
     consecutiveFailures_ := consecutiveFailures_ mm;
     lastActive_ := lastActive_ mm; userLastActive_ := userLastActive_ mm;
     moduleContext_ := moduleContext_ mm;
     currentlyLoadingModule_ := currentlyLoadingModule_ mm |}.

Definition set_consecutiveFailures_ (v : nat) (mm : ModuleManager)
    : ModuleManager :=
  {| moduleInfoMap_ := moduleInfoMap_ mm;
     loadingModuleIds_ := loadingModuleIds_ mm;
     requestedModuleIdsQueue_ := requestedModuleIdsQueue_ mm;
     userInitiatedLoadingModuleIds_ := userInitiatedLoadingModuleIds_ mm;
     callbackMap_ := callbackMap_ mm;
     batchModeEnabled_ := batchModeEnabled_ mm;
     consecutiveFailures_ := v;
     lastActive_ := lastActive_ mm; userLastActive_ := userLastActive_ mm;
     moduleContext_ := moduleContext_ mm;
     currentlyLoadingModule_ := currentlyLoadingModule_ mm |}.

Definition set_lastActive_ (v : bool) (mm : ModuleManager)
    : ModuleManager :=
  {| moduleInfoMap_ := moduleInfoMap_ mm;
     loadingModuleIds_ := loadingModuleIds_ mm;
     requestedModuleIdsQueue_ := requestedModuleIdsQueue_ mm;
     userInitiatedLoadingModuleIds_ := userInitiatedLoadingModuleIds_ mm;
     callbackMap_ := callbackMap_ mm;
     batchModeEnabled_ := batchModeEnabled_ mm;
     consecutiveFailures_ := consecutiveFailures_ mm;
     lastActive_ := v; userLastActive_ := userLastActive_ mm;
     moduleContext_ := moduleContext_ mm;
     currentlyLoadingModule_ := currentlyLoadingModule_ mm |}.

Definition set_userLastActive_ (v : bool) (mm : ModuleManager)
    : ModuleManager :=
  {| moduleInfoMap_ := moduleInfoMap_ mm;
     loadingModuleIds_ := loadingModuleIds_ mm;
     requestedModuleIdsQueue_ := requestedModuleIdsQueue_ mm;
     userInitiatedLoadingModuleIds_ := userInitiatedLoadingModuleIds_ mm;
     callbackMap_ := callbackMap_ mm;
     batchModeEnabled_ := batchModeEnabled_ mm;
     consecutiveFailures_ := consecutiveFailures_ mm;
     lastActive_ := lastActive_ mm; userLastActive_ := v;
     moduleContext_ := moduleContext_ mm;
     currentlyLoadingModule_ := currentlyLoadingModule_ mm |}.

Definition set_moduleContext_ (v : option nat) (mm : ModuleManager)
    : ModuleManager :=
  {| moduleInfoMap_ := moduleInfoMap_ mm;
     loadingModuleIds_ := loadingModuleIds_ mm;
     requestedModuleIdsQueue_ := requestedModuleIdsQueue_ mm;
     userInitiatedLoadingModuleIds_ := userInitiatedLoadingModuleIds_ mm;
     callbackMap_ := callbackMap_ mm;
     batchModeEnabled_ := batchModeEnabled_ mm;
     consecutiveFailures_ := consecutiveFailures_ mm;
     lastActive_ := lastActive_ mm; userLastActive_ := userLastActive_ mm;
     moduleContext_ := v;
     currentlyLoadingModule_ := currentlyLoadingModule_ mm |}.

Definition set_currentlyLoadingModule_ (v : option string)
    (mm : ModuleManager) : ModuleManager :=
  {| moduleInfoMap_ := moduleInfoMap_ mm;
     loadingModuleIds_ := loadingModuleIds_ mm;
     requestedModuleIdsQueue_ := requestedModuleIdsQueue_ mm;
     userInitiatedLoadingModuleIds_ := userInitiatedLoadingModuleIds_ mm;
     callbackMap_ := callbackMap_ mm;
     batchModeEnabled_ := batchModeEnabled_ mm;
     consecutiveFailures_ := consecutiveFailures_ mm;
     lastActive_ := lastActive_ mm; userLastActive_ := userLastActive_ mm;
     moduleContext_ := moduleContext_ mm;
     currentlyLoadingModule_ := v |}.

(** ** What surrounds the manager *)

(** An argument a callback is called with: the module context (null until
    setModuleContext), the cause of a failure, or nothing at all. *)
Inductive Arg :=
  | ArgContext (ctx : option nat)
  | ArgCause (cause : FailureType)
  | ArgUndefined.

(** Calls that leave the manager, in the order they are made. *)
Inductive Event :=
  | LoadModules (ids : list string)
      (* loader_.loadModules(ids, moduleInfoMap_, null, onError, onTimeout) *)
  | Notify (fn : nat) (type : CallbackType)
      (* callbacks[i](type) *)
  | NotifyError (fn : nat) (id : string) (cause : FailureType)
      (* callback(CallbackType.ERROR, id, cause) *)
  | Call (f : nat) (handler : option nat) (arg : Arg)
      (* an application function run through a ModuleInfo.Callback *)
  | Severe.
      (* logger_.severe(...) *)

(** Modelled from the spec: goog.async.Deferred is defined outside the
    files verified here.  It is the "future-like handle" of load: not yet
    fired, resolved with a value, or rejected with one.  The manager fires
    a deferred through [d.callback] and [d.errback] only. *)
Inductive Deferred :=
  | Unfired
  | Resolved (result : Arg)
  | Rejected (result : Arg).

(** What window.setTimeout has been given to run later. *)
Inductive Scheduled :=
  | ExecuteCallback (fn : Fn)
      (* goog.bind(callbackWrapper.execute, callbackWrapper) *)
  | LoadOrEnqueue (id : string) (d : nat).
      (* goog.bind(this.loadModuleOrEnqueueIfNotLoadedOrLoading_, this, id, d) *)

Record World := {
  manager : ModuleManager;
  deferreds : list Deferred;
  timeouts : list Scheduled;
  calls : list Event
}.

Definition newWorld : World :=
  {| manager := newModuleManager; deferreds := []; timeouts := [];
     calls := [] |}.

(** ** Sequencing *)

(** A method runs on a world and ends with a value and the world it
    leaves, with an exception, or not at all within the fuel. *)
Definition M (A : Type) : Type := World → Result (A * World).

Definition ret {A} (a : A) : M A := λ w, Ok (a, w).

Definition bind {A B} (c : M A) (k : A → M B) : M B :=
  λ w, match c w with
       | Ok (a, w') => k a w'
       | Throw e => Throw e
       | OutOfFuel => OutOfFuel
       end.

Notation "'let*' x ':=' c 'in' k" := (bind c (λ x, k))
  (at level 10, x name, c at level 100, k at level 200).
Notation "c ;; k" := (bind c (λ _, k))
  (at level 100, right associativity).

Definition throw {A} (e : Exn) : M A := λ _, Throw e.

Definition liftResult {A} (r : Result A) : M A :=
  λ w, match r with
       | Ok a => Ok (a, w)
       | Throw e => Throw e
       | OutOfFuel => OutOfFuel
       end.

(** Reading and writing [this]. *)
Definition gets {A} (f : ModuleManager → A) : M A :=
  λ w, Ok (f (manager w), w).

Definition modify (f : ModuleManager → ModuleManager) : M unit :=
  λ w, Ok (tt, {| manager := f (manager w); deferreds := deferreds w;
                  timeouts := timeouts w; calls := calls w |}).

Definition emit (e : Event) : M unit :=
  λ w, Ok (tt, {| manager := manager w; deferreds := deferreds w;
                  timeouts := timeouts w; calls := calls w ++ [e] |}).

(** new goog.async.Deferred() *)
Definition newDeferred : M nat :=
  λ w, Ok (length (deferreds w),
           {| manager := manager w; deferreds := deferreds w ++ [Unfired];
              timeouts := timeouts w; calls := calls w |}).

Definition fire (d : nat) (state : Deferred) : M unit :=
  λ w, Ok (tt, {| manager := manager w;
                  deferreds := <[d := state]> (deferreds w);
                  timeouts := timeouts w; calls := calls w |}).

(** window.setTimeout(f, delay) *)
Definition setTimeout (t : Scheduled) : M unit :=
  λ w, Ok (tt, {| manager := manager w; deferreds := deferreds w;
                  timeouts := timeouts w ++ [t]; calls := calls w |}).

(** [for (var i = 0; i < arr.length; i++) body(arr[i])] *)
Fixpoint forEach {A} (arr : list A) (body : A → M unit) : M unit :=
  match arr with
  | [] => ret tt
  | x :: arr' => body x ;; forEach arr' body
  end.

(** goog.module.ModuleInfo.Callback.prototype.execute: runs the function
    with the argument. *)
Definition execute (fn : Fn) (arg : Arg) : M unit :=
  match fn with
  | DeferredCallback d => fire d (Resolved arg)
  | DeferredErrback d => fire d (Rejected arg)
  | AppFn f handler => emit (Call f handler arg)
  end.

(** ** goog.module.ModuleInfo: the methods that run callbacks *)

(** callCallbacks_: the callbacks run in the order they were registered. *)
Definition callCallbacks_ (callbacks : list Fn) (arg : Arg) : M unit :=
  forEach callbacks (λ fn, execute fn arg).

(** [this.moduleInfoMap_[id] = info] *)
Definition putModuleInfo (id : string) (info : ModuleInfo) : M unit :=
  modify (λ mm, set_moduleInfoMap_ (<[id := info]> (moduleInfoMap_ mm)) mm).

(** Modelled from the spec: ModuleInfo.onLoad "marks the ModuleRecord
    loaded; fires all pending callbacks (success path) with the shared
    module context, then clears the pending lists".  Early callbacks come
    before the others. *)
Definition onLoad (id : string) (info : ModuleInfo) : M unit :=
  let* context := gets moduleContext_ in
  putModuleInfo id (markLoaded info) ;;
  callCallbacks_ (earlyCallbacks info) (ArgContext context) ;;
  callCallbacks_ (pendingCallbacks info) (ArgContext context).

(** Modelled from the spec: ModuleInfo.onError fires the pending errbacks
    with the failure kind; "each entry fires at most once then is
    discarded". *)
Definition onError (id : string) (info : ModuleInfo) (cause : FailureType)
    : M unit :=
  putModuleInfo id (clearPending info) ;;
  callCallbacks_ (pendingErrbacks info) (ArgCause cause).

(** ** goog.module.ModuleManager: the methods *)

(** A value that is a module id or [undefined] ([None]): what
    [Array.prototype.pop] returns, and what [currentlyLoadingModule_]
    holds.  [if (id)] takes neither [undefined] nor the empty string. *)
Definition truthy (id : option string) : bool :=
  match id with
  | Some s => negb (bool_decide (s = EmptyString))
  | None => false
  end.

(** The property an object is looked up at with such a value as key.
    Where the value itself goes on (handleLoadError_ hands what it pops
    to loadModule_), the arrays of the manager, which hold strings here,
    hold this key for [undefined]: that is the code as long as no module
    is registered under the name undefined, since loadModule_ then
    throws before it stores anything. *)
Definition propertyKey (id : option string) : string :=
  match id with
  | Some s => s
  | None => "undefined"
  end.

Definition setBatchModeEnabled (enabled : bool) : M unit :=
  modify (set_batchModeEnabled_ enabled).

(** [infoMap] maps a module id to the list of the ids it requires. *)
Definition setAllModuleInfo (infoMap : gmap string (list string)) : M unit :=
  modify (λ mm,
    set_moduleInfoMap_ ((newModuleInfo <$> infoMap) ∪ moduleInfoMap_ mm) mm).

Definition getModuleInfo (id : string) : M (option ModuleInfo) :=
  gets (λ mm, moduleInfoMap_ mm !! id).

Definition setModuleContext (context : option nat) : M unit :=
  modify (set_moduleContext_ context).

Definition isActive : M bool :=
  gets (λ mm, 0 <? length (loadingModuleIds_ mm)).

Definition isUserActive : M bool :=
  gets (λ mm, 0 <? length (userInitiatedLoadingModuleIds_ mm)).

Definition executeCallbacks_ (type : CallbackType) : M unit :=
  let* callbacks := gets (λ mm, callbackMap_ mm !! callbackTypeName type) in
  match callbacks with
  | None => ret tt
  | Some callbacks => forEach callbacks (λ fn, emit (Notify fn type))
  end.

Definition dispatchActiveIdleChangeIfNeeded_ : M unit :=
  let* lastActive := gets lastActive_ in
  let* active := isActive in
  (if negb (eqb active lastActive) then
     executeCallbacks_ (if active then ACTIVE else IDLE) ;;
     modify (set_lastActive_ active)
   else ret tt) ;;
  let* userLastActive := gets userLastActive_ in
  let* userActive := isUserActive in
  if negb (eqb userActive userLastActive) then
    executeCallbacks_ (if userActive then USER_ACTIVE else USER_IDLE) ;;
    modify (set_userLastActive_ userActive)
  else ret tt.

(** The resolver, on the manager's own map. *)
Definition resolve (fuel : nat) (id : string) : M (list string) :=
  let* infoMap := gets moduleInfoMap_ in
  liftResult (getNotYetLoadedTransitiveDepIds_ infoMap fuel id).

Definition loadModule_ (fuel : nat) (id : string) (opt_isRetry : bool)
    : M unit :=
  let* moduleInfo := getModuleInfo id in
  match moduleInfo with
  | None => throw TypeError
  | Some moduleInfo =>
      if isLoaded moduleInfo then throw (ModuleAlreadyLoaded id)
      else
        let* ids := resolve fuel id in
        let* batchModeEnabled := gets batchModeEnabled_ in
        let* ids :=
          if negb batchModeEnabled && (1 <? length ids) then
            match ids with
            | idToLoad :: rest =>
                modify (λ mm, set_requestedModuleIdsQueue_
                                (rest ++ requestedModuleIdsQueue_ mm) mm) ;;
                ret [idToLoad]
            | [] => ret ids
            end
          else ret ids in
        (if negb opt_isRetry then modify (set_consecutiveFailures_ 0)
         else ret tt) ;;
        modify (set_loadingModuleIds_ ids) ;;
        dispatchActiveIdleChangeIfNeeded_ ;;
        emit (LoadModules ids)
  end.

Definition loadModuleOrEnqueue_ (fuel : nat) (id : string) : M unit :=
  let* loading := gets loadingModuleIds_ in
  match loading with
  | [] => loadModule_ fuel id false
  | _ :: _ =>
      modify (λ mm, set_requestedModuleIdsQueue_
                      (requestedModuleIdsQueue_ mm ++ [id]) mm) ;;
      dispatchActiveIdleChangeIfNeeded_
  end.

Definition isModuleLoading (id : string) : M bool :=
  gets (λ mm, goog_array.contains (loadingModuleIds_ mm) id ||
              goog_array.contains (requestedModuleIdsQueue_ mm) id).

(** The [while] loop of loadNextModule_; [queue] is what
    [requestedModuleIdsQueue_] holds when an iteration starts. *)
Fixpoint loadNextModule_from (fuel : nat) (queue : list string) : M unit :=
  match queue with
  | [] => dispatchActiveIdleChangeIfNeeded_
  | nextId :: queue' =>
      modify (set_requestedModuleIdsQueue_ queue') ;;
      let* moduleInfo := getModuleInfo nextId in
      match moduleInfo with
      | None => throw TypeError
      | Some moduleInfo =>
          if isLoaded moduleInfo then loadNextModule_from fuel queue'
          else loadModule_ fuel nextId false
      end
  end.

Definition loadNextModule_ (fuel : nat) : M unit :=
  let* queue := gets requestedModuleIdsQueue_ in
  loadNextModule_from fuel queue.

Definition setLoaded (fuel : nat) (id : string) : M unit :=
  modify (λ mm, set_userInitiatedLoadingModuleIds_
                  (goog_array.remove (userInitiatedLoadingModuleIds_ mm) id)
                  mm) ;;
  modify (λ mm, set_loadingModuleIds_
                  (goog_array.remove (loadingModuleIds_ mm) id) mm) ;;
  let* moduleInfo := getModuleInfo id in
  match moduleInfo with
  | None => throw TypeError
  | Some moduleInfo =>
      onLoad id moduleInfo ;;
      let* loading := gets loadingModuleIds_ in
      (match loading with
       | [] => loadNextModule_ fuel
       | _ :: _ => ret tt
       end) ;;
      dispatchActiveIdleChangeIfNeeded_
  end.

(** moduleInfo.registerCallback(fn, handler), moduleInfo.registerErrback *)
Definition registerCallback_on (id : string) (fn : Fn) : M unit :=
  let* moduleInfo := getModuleInfo id in
  match moduleInfo with
  | None => throw TypeError
  | Some moduleInfo => putModuleInfo id (registerCallback_info fn moduleInfo)
  end.

Definition registerErrback_on (id : string) (fn : Fn) : M unit :=
  let* moduleInfo := getModuleInfo id in
  match moduleInfo with
  | None => throw TypeError
  | Some moduleInfo => putModuleInfo id (registerErrback_info fn moduleInfo)
  end.

Definition pushUserInitiated (moduleId : string) : M unit :=
  modify (λ mm, set_userInitiatedLoadingModuleIds_
                  (userInitiatedLoadingModuleIds_ mm ++ [moduleId]) mm).

Definition execOnLoad (fuel : nat) (moduleId : string) (f : nat)
    (opt_handler : option nat)
    (opt_noLoad opt_userInitiated opt_preferSynchronous : bool) : M unit :=
  let* moduleInfo := getModuleInfo moduleId in
  match moduleInfo with
  | None => throw TypeError
  | Some moduleInfo =>
      if isLoaded moduleInfo then
        if opt_preferSynchronous then
          let* context := gets moduleContext_ in
          execute (AppFn f opt_handler) (ArgContext context)
        else setTimeout (ExecuteCallback (AppFn f opt_handler))
      else
        let* loading := isModuleLoading moduleId in
        if loading then
          registerCallback_on moduleId (AppFn f opt_handler) ;;
          if opt_userInitiated then
            pushUserInitiated moduleId ;;
            dispatchActiveIdleChangeIfNeeded_
          else ret tt
        else
          registerCallback_on moduleId (AppFn f opt_handler) ;;
          if negb opt_noLoad then
            (if opt_userInitiated then pushUserInitiated moduleId
             else ret tt) ;;
            loadModuleOrEnqueue_ fuel moduleId
          else ret tt
  end.

(** [load] returns the deferred it creates. *)
Definition load (fuel : nat) (moduleId : string) : M nat :=
  let* moduleInfo := getModuleInfo moduleId in
  let* d := newDeferred in
  match moduleInfo with
  | None => throw TypeError
  | Some moduleInfo =>
      (if isLoaded moduleInfo then
         let* context := gets moduleContext_ in
         execute (DeferredCallback d) (ArgContext context)
       else
         let* loading := isModuleLoading moduleId in
         if loading then
           registerCallback_on moduleId (DeferredCallback d) ;;
           registerErrback_on moduleId (DeferredErrback d)
         else
           registerCallback_on moduleId (DeferredCallback d) ;;
           registerErrback_on moduleId (DeferredErrback d) ;;
           loadModuleOrEnqueue_ fuel moduleId) ;;
      ret d
  end.

Definition loadModuleOrEnqueueIfNotLoadedOrLoading_ (fuel : nat)
    (id : string) (d : nat) : M unit :=
  let* moduleInfo := getModuleInfo id in
  match moduleInfo with
  | None => throw TypeError
  | Some moduleInfo =>
      if isLoaded moduleInfo then
        let* context := gets moduleContext_ in
        execute (DeferredCallback d) (ArgContext context)
      else
        registerCallback_on id (DeferredCallback d) ;;
        registerErrback_on id (DeferredErrback d) ;;
        let* loading := isModuleLoading id in
        if loading then ret tt else loadModuleOrEnqueue_ fuel id
  end.

Definition preloadModule (id : string) : M nat :=
  let* d := newDeferred in
  setTimeout (LoadOrEnqueue id d) ;;
  ret d.

Definition beforeLoadModuleCode (id : string) : M unit :=
  let* current := gets currentlyLoadingModule_ in
  (if truthy current then emit Severe else ret tt) ;;
  modify (set_currentlyLoadingModule_ (Some id)).

Definition afterLoadModuleCode (id : string) : M unit :=
  let* current := gets currentlyLoadingModule_ in
  (if bool_decide (current = Some id) then ret tt else emit Severe) ;;
  modify (set_currentlyLoadingModule_ None).

Definition registerInitializationCallback (f : nat)
    (opt_handler : option nat) : M unit :=
  let* current := gets currentlyLoadingModule_ in
  if negb (truthy current) then emit Severe
  else
    let* moduleInfo := getModuleInfo (propertyKey current) in
    match moduleInfo with
    | None => throw TypeError
    | Some moduleInfo =>
        putModuleInfo (propertyKey current)
          (registerEarlyCallback_info (AppFn f opt_handler) moduleInfo)
    end.

(** The filter of dispatchModuleLoadFailed_: the queued ids whose resolved
    list contains the failed id.  The resolver runs for every queued id,
    whatever [id] is. *)
Fixpoint filterDependents (fuel : nat) (queue : list string)
    (id : option string) : M (list string) :=
  match queue with
  | [] => ret []
  | requestedId :: queue' =>
      let* deps := resolve fuel requestedId in
      let* rest := filterDependents fuel queue' id in
      let keep := match id with
                  | Some id => goog_array.contains deps id
                  | None => false
                  end in
      ret (if keep then requestedId :: rest else rest)
  end.

Definition dispatchModuleLoadFailed_ (fuel : nat) (cause : FailureType)
    : M unit :=
  let* loading := gets loadingModuleIds_ in
  let id := fst <$> goog_array.pop loading in
  modify (set_loadingModuleIds_ []) ;;
  let* queue := gets requestedModuleIdsQueue_ in
  let* idsToCancel := filterDependents fuel queue id in
  let idsToCancel :=
    if truthy id then goog_array.insert idsToCancel (propertyKey id)
    else idsToCancel in
  forEach idsToCancel (λ idToCancel,
    modify (λ mm, set_requestedModuleIdsQueue_
                    (goog_array.remove (requestedModuleIdsQueue_ mm)
                       idToCancel) mm) ;;
    modify (λ mm, set_userInitiatedLoadingModuleIds_
                    (goog_array.remove (userInitiatedLoadingModuleIds_ mm)
                       idToCancel) mm)) ;;
  let* errorCallbacks :=
    gets (λ mm, callbackMap_ mm !! callbackTypeName ERROR) in
  (match errorCallbacks with
   | None => ret tt
   | Some errorCallbacks =>
       forEach errorCallbacks (λ callback,
         forEach idsToCancel (λ idToCancel,
           emit (NotifyError callback idToCancel cause)))
   end) ;;
  let* moduleInfo := getModuleInfo (propertyKey id) in
  (match moduleInfo with
   | None => ret tt
   | Some moduleInfo => onError (propertyKey id) moduleInfo cause
   end) ;;
  dispatchActiveIdleChangeIfNeeded_.

Definition handleLoadTimeout_ (fuel : nat) : M unit :=
  dispatchModuleLoadFailed_ fuel TIMEOUT ;;
  loadNextModule_ fuel.

Definition handleLoadError_ (fuel : nat) (status : Z) : M unit :=
  modify (λ mm, set_consecutiveFailures_ (consecutiveFailures_ mm + 1) mm) ;;
  if (status =? 401)%Z then
    dispatchModuleLoadFailed_ fuel UNAUTHORIZED ;;
    modify (set_requestedModuleIdsQueue_ [])
  else if (status =? 410)%Z then
    dispatchModuleLoadFailed_ fuel OLD_CODE_GONE ;;
    loadNextModule_ fuel
  else
    let* consecutiveFailures := gets consecutiveFailures_ in
    if 3 <=? consecutiveFailures then
      dispatchModuleLoadFailed_ fuel CONSECUTIVE_FAILURES ;;
      loadNextModule_ fuel
    else
      let* loading := gets loadingModuleIds_ in
      let id := fst <$> goog_array.pop loading in
      modify (set_loadingModuleIds_ []) ;;
      loadModule_ fuel (propertyKey id) true.

Definition registerCallback_ (type : CallbackType) (fn : nat) : M unit :=
  modify (λ mm,
    set_callbackMap_
      (<[callbackTypeName type :=
           default [] (callbackMap_ mm !! callbackTypeName type) ++ [fn]]>
         (callbackMap_ mm)) mm).

Definition registerCallback (types : list CallbackType) (fn : nat)
    : M unit :=
  forEach types (λ type, registerCallback_ type fn).

(** The browser runs the [i]-th function handed to window.setTimeout. *)
Definition runTimeout (fuel : nat) (i : nat) : M unit :=
  λ w, match timeouts w !! i with
       | None => Ok (tt, w)
       | Some t =>
           let w' := {| manager := manager w; deferreds := deferreds w;
                        timeouts := delete i (timeouts w);
                        calls := calls w |} in
           match t with
           | ExecuteCallback fn => execute fn ArgUndefined w'
           | LoadOrEnqueue id d =>
               loadModuleOrEnqueueIfNotLoadedOrLoading_ fuel id d w'
           end
       end.

(** ** The manager as a machine *)

(** What the application, the loaded modules, the loader and the browser
    can do to the manager. *)
Inductive Op :=
  | OpSetBatchModeEnabled (enabled : bool)
  | OpSetAllModuleInfo (infoMap : gmap string (list string))
  | OpSetModuleContext (context : option nat)
  | OpRegisterCallback (types : list CallbackType) (fn : nat)
  | OpLoad (moduleId : string)
  | OpExecOnLoad (moduleId : string) (f : nat) (opt_handler : option nat)
      (opt_noLoad opt_userInitiated opt_preferSynchronous : bool)
  | OpPreloadModule (id : string)
  | OpRunTimeout (i : nat)
  | OpBeforeLoadModuleCode (id : string)
  | OpAfterLoadModuleCode (id : string)
  | OpRegisterInitializationCallback (f : nat) (opt_handler : option nat)
  | OpSetLoaded (id : string)
  | OpHandleLoadError (status : Z)
  | OpHandleLoadTimeout.

Definition runOp (fuel : nat) (op : Op) : M unit :=
  match op with
  | OpSetBatchModeEnabled enabled => setBatchModeEnabled enabled
  | OpSetAllModuleInfo infoMap => setAllModuleInfo infoMap
  | OpSetModuleContext context => setModuleContext context
  | OpRegisterCallback types fn => registerCallback types fn
  | OpLoad moduleId => load fuel moduleId ;; ret tt
  | OpExecOnLoad moduleId f h noLoad userInitiated preferSynchronous =>
      execOnLoad fuel moduleId f h noLoad userInitiated preferSynchronous
  | OpPreloadModule id => preloadModule id ;; ret tt
  | OpRunTimeout i => runTimeout fuel i
  | OpBeforeLoadModuleCode id => beforeLoadModuleCode id
  | OpAfterLoadModuleCode id => afterLoadModuleCode id
  | OpRegisterInitializationCallback f h =>
      registerInitializationCallback f h
  | OpSetLoaded id => setLoaded fuel id
  | OpHandleLoadError status => handleLoadError_ fuel status
  | OpHandleLoadTimeout => handleLoadTimeout_ fuel
  end.

Fixpoint runOps (fuel : nat) (ops : list Op) : M unit :=
  match ops with
  | [] => ret tt
  | op :: ops' => runOp fuel op ;; runOps fuel ops'
  end.

(** ** Checking a concrete dependency map *)

(** The place of [x] in [order]; the length of [order] when it is not
    there. *)
Fixpoint indexOf (order : list string) (x : string) : nat :=
  match order with
  | [] => 0
  | y :: order' => if decide (x = y) then 0 else S (indexOf order' x)
  end.

(** Every module comes after its dependencies in [order]. *)
Definition topological (order : list string) (m : gmap string ModuleInfo)
    : Prop :=
  map_Forall (λ x info,
    Forall (λ d, indexOf order d < indexOf order x) (getDependencies info)) m.

Definition allRegistered (m : gmap string ModuleInfo) : Prop :=
  map_Forall (λ _ info,
    Forall (λ d, is_Some (m !! d)) (getDependencies info)) m.

(** ** Sample configurations *)

(** A module record as setAllModuleInfo leaves it, and one whose module
    has been loaded since. *)
Definition pendingModule (deps : list string) : ModuleInfo :=
  newModuleInfo deps.

Definition loadedModule (deps : list string) : ModuleInfo :=
  markLoaded (newModuleInfo deps).

(** A diamond: D needs B and C, which both need A. *)
Definition diamondMap : gmap string ModuleInfo :=
  list_to_map [("A", pendingModule []); ("B", pendingModule ["A"]);
               ("C", pendingModule ["A"]); ("D", pendingModule ["B"; "C"])].


(** ** What the methods do, in closed form *)

Definition setManager (mm : ModuleManager) (w : World) : World :=
  {| manager := mm; deferreds := deferreds w; timeouts := timeouts w;
     calls := calls w |}.

Definition addCalls (events : list Event) (w : World) : World :=
  {| manager := manager w; deferreds := deferreds w; timeouts := timeouts w;
     calls := calls w ++ events |}.

(** The functions registered for a callback type, in registration order. *)
Definition registered (mm : ModuleManager) (type : CallbackType)
    : list nat :=
  default [] (callbackMap_ mm !! callbackTypeName type).

Definition notifications (mm : ModuleManager) (type : CallbackType)
    : list Event :=
  (λ fn, Notify fn type) <$> registered mm type.

Definition isActiveNow (mm : ModuleManager) : bool :=
  0 <? length (loadingModuleIds_ mm).

Definition isUserActiveNow (mm : ModuleManager) : bool :=
  0 <? length (userInitiatedLoadingModuleIds_ mm).

(** The calls of one dispatchActiveIdleChangeIfNeeded_: the callbacks of a
    flag that changes, none for a flag that stays. *)
Definition activeChange (mm : ModuleManager) : list Event :=
  if negb (eqb (isActiveNow mm) (lastActive_ mm)) then
    notifications mm (if isActiveNow mm then ACTIVE else IDLE)
  else [].

Definition userActiveChange (mm : ModuleManager) : list Event :=
  if negb (eqb (isUserActiveNow mm) (userLastActive_ mm)) then
    notifications mm (if isUserActiveNow mm then USER_ACTIVE else USER_IDLE)
  else [].

Definition syncFlags (mm : ModuleManager) : ModuleManager :=
  set_userLastActive_ (isUserActiveNow mm)
    (set_lastActive_ (isActiveNow mm) mm).

(** The two flags say what the two arrays say. *)
Definition flagsInSync (mm : ModuleManager) : Prop :=
  lastActive_ mm = isActiveNow mm ∧ userLastActive_ mm = isUserActiveNow mm.

(** A method that leaves the flags in step with the arrays whenever it
    returns, and one that keeps them in step if they were. *)
Definition establishesSync {A} (c : M A) : Prop :=
  ∀ w a w', c w = Ok (a, w') → flagsInSync (manager w').

Definition preservesSync {A} (c : M A) : Prop :=
  ∀ w a w', c w = Ok (a, w') → flagsInSync (manager w) →
            flagsInSync (manager w').

(** An assignment that touches neither the two arrays nor the two flags. *)
Definition keepsActivity (f : ModuleManager → ModuleManager) : Prop :=
  ∀ mm, loadingModuleIds_ (f mm) = loadingModuleIds_ mm ∧
        userInitiatedLoadingModuleIds_ (f mm) =
          userInitiatedLoadingModuleIds_ mm ∧
        lastActive_ (f mm) = lastActive_ mm ∧
        userLastActive_ (f mm) = userLastActive_ mm.

(** ** Sample runs *)

(** The world a new manager is in after a sequence of operations that all
    return. *)
Definition worldAfter (fuel : nat) (ops : list Op) : World :=
  match runOps fuel ops newWorld with
  | Ok (_, w) => w
  | _ => newWorld
  end.

(** The configuration {A: [L], L: [U], U: []}. *)
Definition outOfOrderInfo : gmap string (list string) :=
  list_to_map [("A", ["L"]); ("L", ["U"]); ("U", [])].

(** In batch mode L has been asked for, so that U and L went to the loader
    together, and the code of L has reported itself loaded before that of
    U. *)
Definition loadedOutOfOrderOps : list Op :=
  [OpSetAllModuleInfo outOfOrderInfo; OpSetBatchModeEnabled true;
   OpLoad "L"; OpSetLoaded "L"].

Definition loadedBeforeDependencyMap : gmap string ModuleInfo :=
  moduleInfoMap_ (manager (worldAfter 10 loadedOutOfOrderOps)).

(** The configuration {A: [], B: [A], C: [B]}. *)
Definition chainInfo : gmap string (list string) :=
  list_to_map [("A", []); ("B", ["A"]); ("C", ["B"])].

(** A has been loaded and nothing else is going on. *)
Definition worldWithLoadedA : World :=
  worldAfter 10 [OpSetAllModuleInfo chainInfo; OpLoad "A"; OpSetLoaded "A"].

(** ** loadModule_ in closed form *)

(** What loadModule_ hands to the loader out of the resolved list, and what
    it puts back at the front of the queue. *)
Definition dispatchedIds (batchModeEnabled : bool) (ids : list string)
    : list string :=
  if negb batchModeEnabled && (1 <? length ids) then take 1 ids else ids.

Definition postponedIds (batchModeEnabled : bool) (ids : list string)
    : list string :=
  if negb batchModeEnabled && (1 <? length ids) then drop 1 ids else [].

Definition loadModuleUpdate (ids : list string) (opt_isRetry : bool)
    (mm : ModuleManager) : ModuleManager :=
  set_loadingModuleIds_ (dispatchedIds (batchModeEnabled_ mm) ids)
    ((if opt_isRetry then id else set_consecutiveFailures_ 0)
       (set_requestedModuleIdsQueue_
          (postponedIds (batchModeEnabled_ mm) ids ++
           requestedModuleIdsQueue_ mm) mm)).

(** ** dispatchModuleLoadFailed_ in closed form *)

(** The list the resolver returns, when it returns one. *)
Definition resolvedIds (m : gmap string ModuleInfo) (fuel : nat)
    (id : string) : list string :=
  match getNotYetLoadedTransitiveDepIds_ m fuel id with
  | Ok ids => ids
  | _ => []
  end.

(** The id that failed: the last of [loadingModuleIds_], if any. *)
Definition failedId (mm : ModuleManager) : option string :=
  fst <$> goog_array.pop (loadingModuleIds_ mm).

(** The test of the filter: the resolved list of [requestedId] contains
    the failed id. *)
Definition resolvesTo (m : gmap string ModuleInfo) (fuel : nat)
    (failed : option string) (requestedId : string) : bool :=
  match failed with
  | Some failed => goog_array.contains (resolvedIds m fuel requestedId) failed
  | None => false
  end.

Definition dependents (mm : ModuleManager) (fuel : nat) : list string :=
  filter (λ requestedId,
            resolvesTo (moduleInfoMap_ mm) fuel (failedId mm) requestedId)
    (requestedModuleIdsQueue_ mm).

Definition idsToCancel (mm : ModuleManager) (fuel : nat) : list string :=
  if truthy (failedId mm) then
    goog_array.insert (dependents mm fuel) (propertyKey (failedId mm))
  else dependents mm fuel.

Definition cancelOne (mm : ModuleManager) (idToCancel : string)
    : ModuleManager :=
  set_userInitiatedLoadingModuleIds_
    (goog_array.remove (userInitiatedLoadingModuleIds_ mm) idToCancel)
    (set_requestedModuleIdsQueue_
       (goog_array.remove (requestedModuleIdsQueue_ mm) idToCancel) mm).

Definition cancelAll (ids : list string) (mm : ModuleManager)
    : ModuleManager :=
  foldl cancelOne mm ids.

Definition errorNotifications (mm : ModuleManager) (ids : list string)
    (cause : FailureType) : list Event :=
  registered mm ERROR ≫= λ callback,
    (λ idToCancel, NotifyError callback idToCancel cause) <$> ids.

(** The errbacks of the failed module, and its record once they are
    discarded. *)
Definition errbacksOf (mm : ModuleManager) (key : string) : list Fn :=
  match moduleInfoMap_ mm !! key with
  | Some info => pendingErrbacks info
  | None => []
  end.

Definition afterOnError (key : string) (mm : ModuleManager)
    : ModuleManager :=
  match moduleInfoMap_ mm !! key with
  | Some info =>
      set_moduleInfoMap_ (<[key := clearPending info]> (moduleInfoMap_ mm)) mm
  | None => mm
  end.

(** What a list of callbacks does when run with [arg]: the deferreds it
    fires and the application functions it calls. *)
Definition fireOne (arg : Arg) (ds : list Deferred) (fn : Fn)
    : list Deferred :=
  match fn with
  | DeferredCallback d => <[d := Resolved arg]> ds
  | DeferredErrback d => <[d := Rejected arg]> ds
  | AppFn _ _ => ds
  end.

Definition fireAll (callbacks : list Fn) (arg : Arg) (ds : list Deferred)
    : list Deferred :=
  foldl (fireOne arg) ds callbacks.

Definition callEvents (callbacks : list Fn) (arg : Arg) : list Event :=
  callbacks ≫= λ fn,
    match fn with
    | AppFn f handler => [Call f handler arg]
    | _ => []
    end.

(** The manager once dispatchModuleLoadFailed_ has cancelled what it
    cancels and discarded the callbacks of the failed module, before the
    flags are looked at. *)
Definition afterFailure (mm : ModuleManager) (fuel : nat) : ModuleManager :=
  afterOnError (propertyKey (failedId mm))
    (cancelAll (idsToCancel mm fuel) (set_loadingModuleIds_ [] mm)).

Definition failureCalls (mm : ModuleManager) (fuel : nat)
    (cause : FailureType) : list Event :=
  errorNotifications mm (idsToCancel mm fuel) cause ++
  callEvents (errbacksOf mm (propertyKey (failedId mm))) (ArgCause cause) ++
  activeChange (afterFailure mm fuel) ++
  userActiveChange (afterFailure mm fuel).

Definition failureWorld (w : World) (fuel : nat) (cause : FailureType)
    : World :=
  {| manager := syncFlags (afterFailure (manager w) fuel);
     deferreds :=
       fireAll (errbacksOf (manager w) (propertyKey (failedId (manager w))))
         (ArgCause cause) (deferreds w);
     timeouts := timeouts w;
     calls := calls w ++ failureCalls (manager w) fuel cause |}.

(** The resolver returns a list for every queued id. *)
Definition queueResolves (mm : ModuleManager) (fuel : nat) : Prop :=
  Forall (λ requestedId,
            is_Ok (getNotYetLoadedTransitiveDepIds_ (moduleInfoMap_ mm) fuel
                     requestedId))
    (requestedModuleIdsQueue_ mm).

(** The configuration {X: [], Y: []}: two modules that need nothing. *)
Definition independentInfo : gmap string (list string) :=
  list_to_map [("X", []); ("Y", [])].

(** The configuration {X: [], A: [], B: [A]}. *)
Definition sharedInfo : gmap string (list string) :=
  list_to_map [("X", []); ("A", []); ("B", ["A"])].

(** Two maps with the same dependency lists and the same loaded flags. *)
Definition sameGraph (m m' : gmap string ModuleInfo) : Prop :=
  ∀ x, (λ info, (getDependencies info, isLoaded info)) <$> (m !! x) =
       (λ info, (getDependencies info, isLoaded info)) <$> (m' !! x).

(** The queued id the manager turns to next, with what is left of the
    queue behind it: ids whose module is loaded are passed over. *)
Fixpoint nextToLoad (m : gmap string ModuleInfo) (queue : list string)
    : option (string * list string) :=
  match queue with
  | [] => None
  | nextId :: queue' =>
      match m !! nextId with
      | Some info =>
          if isLoaded info then nextToLoad m queue' else Some (nextId, queue')
      | None => Some (nextId, queue')
      end
  end.

(** On {A: [], B: [A], C: [B]} with an error callback registered, B has
    been asked for: A is with the loader and B waits in the queue. *)
Definition worldLoadingAForB : World :=
  worldAfter 10 [OpSetAllModuleInfo chainInfo; OpRegisterCallback [ERROR] 7;
                 OpLoad "B"].

(** The same, after the loader has reported status 500 twice. *)
Definition worldAfterTwoFailures : World :=
  worldAfter 10 [OpSetAllModuleInfo chainInfo; OpRegisterCallback [ERROR] 7;
                 OpLoad "B"; OpHandleLoadError 500; OpHandleLoadError 500].

(** ** Further properties: definitions *)

(** A not-yet-loaded module from which a cycle of not-yet-loaded modules
    can be reached. *)
Definition reachesCycle (m : gmap string ModuleInfo) (y : string) : Prop :=
  notYetLoaded m y ∧ ∃ z, rtc (awaits m) y z ∧ tc (awaits m) z z.

(** Every declared dependency of a collected id is registered, or still on
    the worklist. *)
Definition collected_registered (m : gmap string ModuleInfo)
    (ids depIds : list string) : Prop :=
  ∀ y d, y ∈ ids → dependsOn m y d → d ∈ depIds ∨ is_Some (m !! d).

(** A has been loaded; B, which needs A, has not. *)
Definition chainWithLoadedA : gmap string ModuleInfo :=
  list_to_map [("A", loadedModule []); ("B", pendingModule ["A"]);
               ("C", pendingModule ["B"])].

(** P and Q need each other. *)
Definition cyclicMap : gmap string ModuleInfo :=
  list_to_map [("P", pendingModule ["Q"]); ("Q", pendingModule ["P"]);
               ("R", pendingModule ["P"])].

(** The world in which a computation that returns leaves [w]. *)
Definition after {A} (c : M A) (w : World) : World :=
  match c w with
  | Ok (_, w') => w'
  | _ => w
  end.

(** A, B and C registered as {A: [], B: [A], C: [B]}, nothing asked for. *)
Definition worldWithChain : World :=
  worldAfter 10 [OpSetAllModuleInfo chainInfo].

(** ** Invariants of the manager *)

(** A method that leaves the manager in [I] whenever it returns, and one
    that keeps it in [I] if it was. *)
Definition ensures {A} (I : ModuleManager → Prop) (c : M A) : Prop :=
  ∀ w a w', c w = Ok (a, w') → I (manager w').

Definition keeps {A} (I : ModuleManager → Prop) (c : M A) : Prop :=
  ∀ w a w', c w = Ok (a, w') → I (manager w) → I (manager w').

(** [I] does not look at the two flags. *)
Definition flagBlind (I : ModuleManager → Prop) : Prop :=
  ∀ mm a u, I mm → I (set_userLastActive_ u (set_lastActive_ a mm)).

(** The ids with the loader are distinct, registered and not loaded. *)
Definition loadingPending (mm : ModuleManager) : Prop :=
  NoDup (loadingModuleIds_ mm) ∧
  ∀ x, x ∈ loadingModuleIds_ mm → notYetLoaded (moduleInfoMap_ mm) x.

(** Nothing waits in the queue while nothing is with the loader. *)
Definition queueEmptyWhenIdle (mm : ModuleManager) : Prop :=
  loadingModuleIds_ mm = [] → requestedModuleIdsQueue_ mm = [].

(** The dependency lists and loaded flags are those of [m]. *)
Definition graphIs (m : gmap string ModuleInfo) (mm : ModuleManager)
    : Prop :=
  sameGraph m (moduleInfoMap_ mm).

(** ** A failure that is not retried *)

(** What [c] does in [w] when it gives up the load of [failed] for
    [cause]: it returns; the registered error callbacks are called for
    [failed] with [cause]; no request it makes of the loader holds
    [failed], which is then neither loading nor queued; the queued ids
    that are cancelled are [failed] and those that await it; and the first
    queued id that is neither cancelled nor loaded is the one it loads
    next, if there is one. *)
Definition reportsAndMovesOn (fuel : nat) (cause : FailureType)
    (failed : string) (c : M unit) (w : World) : Prop :=
  ∃ w' events (cancelled : string → bool),
    c w = Ok (tt, w') ∧
    calls w' = calls w ++ events ∧
    (∀ fn, fn ∈ registered (manager w) ERROR →
           NotifyError fn failed cause ∈ events) ∧
    (∀ ids, LoadModules ids ∈ events → failed ∉ ids) ∧
    (failed ∉ loadingModuleIds_ (manager w')) ∧
    (failed ∉ requestedModuleIdsQueue_ (manager w')) ∧
    (∀ id, id ∈ requestedModuleIdsQueue_ (manager w) →
       (cancelled id ↔
        id = failed ∨ tc (awaits (moduleInfoMap_ (manager w))) id failed)) ∧
    match nextToLoad (moduleInfoMap_ (manager w))
            (filter (λ id, ¬ cancelled id)
               (requestedModuleIdsQueue_ (manager w))) with
    | None =>
        loadingModuleIds_ (manager w') = [] ∧
        requestedModuleIdsQueue_ (manager w') = [] ∧
        ∀ ids, LoadModules ids ∉ events
    | Some (nextId, rest) =>
        ∃ ids,
          getNotYetLoadedTransitiveDepIds_ (moduleInfoMap_ (manager w)) fuel
            nextId = Ok ids ∧
          loadingModuleIds_ (manager w') =
            dispatchedIds (batchModeEnabled_ (manager w)) ids ∧
          requestedModuleIdsQueue_ (manager w') =
            postponedIds (batchModeEnabled_ (manager w)) ids ++ rest ∧
          ∀ ids', LoadModules ids' ∈ events ↔
                  ids' = dispatchedIds (batchModeEnabled_ (manager w)) ids
    end.

(** On {A: [], B: [A], C: [B]}: A is with the loader, B and C wait in the
    queue, and the code of B has reported itself loaded. *)
Definition worldWithLoadedInQueue : World :=
  worldAfter 10 [OpSetAllModuleInfo chainInfo; OpLoad "A"; OpLoad "B";
                 OpLoad "C"; OpSetLoaded "B"].

(** ** The manager and the loader *)

(** The lists of ids the loader has been asked for, in order. *)
Definition loaderRequests (events : list Event) : list (list string) :=
  events ≫= λ e,
    match e with
    | LoadModules ids => [ids]
    | _ => []
    end.

(** Every id the manager holds as loading is in the last list the loader
    has been asked for. *)
Definition loadingWasRequested (w : World) : Prop :=
  ∀ x, x ∈ loadingModuleIds_ (manager w) →
       ∃ ids, last (loaderRequests (calls w)) = Some ids ∧ x ∈ ids.

Definition ensuresRequested {A} (c : M A) : Prop :=
  ∀ w a w', c w = Ok (a, w') → loadingWasRequested w'.

Definition keepsRequested {A} (c : M A) : Prop :=
  ∀ w a w', c w = Ok (a, w') → loadingWasRequested w →
            loadingWasRequested w'.

(** ** Modules are loaded after what they need *)

(** The dependencies of a module are "ids this module requires before it
    may be considered loaded": every declared dependency of a loaded
    module is registered and loaded. *)
Definition loadedAfterDependencies (m : gmap string ModuleInfo) : Prop :=
  ∀ x info d,
    m !! x = Some info → isLoaded info = true → d ∈ getDependencies info →
    ∃ dinfo, m !! d = Some dinfo ∧ isLoaded dinfo = true.

(** The same, in a form that can be checked on a concrete map. *)
Definition allLoadedAfterDependencies (m : gmap string ModuleInfo) : Prop :=
  map_Forall (λ _ info,
    Forall (λ d, isLoaded info = true → isLoaded <$> m !! d = Some true)
      (getDependencies info)) m.

(** ** Callbacks that call back into the manager *)

(** The functions registered with registerCallback are arbitrary: the
    manager calls them in the middle of its own methods, and they may call
    its methods in turn.  Above, a call of such a function is an event of
    the log and nothing more, which is what it is for a function that
    leaves the manager alone.  Here the methods that reach
    dispatchActiveIdleChangeIfNeeded_ are written once more, over what
    calling a registered function does ([called fn type], run right after
    the call is logged); everything else is as above.  The loop of
    executeCallbacks_ runs over the array as it finds it, which is what
    the code does as long as the functions called register no callback.
    The error callbacks and the callbacks of a module are still calls
    that leave the manager alone. *)
Module Reentrant.
Section callbacks.
Variable called : nat → CallbackType → M unit.

Definition executeCallbacks_ (type : CallbackType) : M unit :=
  let* callbacks := gets (λ mm, callbackMap_ mm !! callbackTypeName type) in
  match callbacks with
  | None => ret tt
  | Some callbacks =>
      forEach callbacks (λ fn, emit (Notify fn type) ;; called fn type)
  end.

(** [lastActive_] and [userLastActive_] are written when the callbacks
    have run, with the value read before they ran. *)
Definition dispatchActiveIdleChangeIfNeeded_ : M unit :=
  let* lastActive := gets lastActive_ in
  let* active := isActive in
  (if negb (eqb active lastActive) then
     executeCallbacks_ (if active then ACTIVE else IDLE) ;;
     modify (set_lastActive_ active)
   else ret tt) ;;
  let* userLastActive := gets userLastActive_ in
  let* userActive := isUserActive in
  if negb (eqb userActive userLastActive) then
    executeCallbacks_ (if userActive then USER_ACTIVE else USER_IDLE) ;;
    modify (set_userLastActive_ userActive)
  else ret tt.

Definition loadModule_ (fuel : nat) (id : string) (opt_isRetry : bool)
    : M unit :=
  let* moduleInfo := getModuleInfo id in
  match moduleInfo with
  | None => throw TypeError
  | Some moduleInfo =>
      if isLoaded moduleInfo then throw (ModuleAlreadyLoaded id)
      else
        let* ids := resolve fuel id in
        let* batchModeEnabled := gets batchModeEnabled_ in
        let* ids :=
          if negb batchModeEnabled && (1 <? length ids) then
            match ids with
            | idToLoad :: rest =>
                modify (λ mm, set_requestedModuleIdsQueue_
                                (rest ++ requestedModuleIdsQueue_ mm) mm) ;;
                ret [idToLoad]
            | [] => ret ids
            end
          else ret ids in
        (if negb opt_isRetry then modify (set_consecutiveFailures_ 0)
         else ret tt) ;;
        modify (set_loadingModuleIds_ ids) ;;
        dispatchActiveIdleChangeIfNeeded_ ;;
        emit (LoadModules ids)
  end.

Definition loadModuleOrEnqueue_ (fuel : nat) (id : string) : M unit :=
  let* loading := gets loadingModuleIds_ in
  match loading with
  | [] => loadModule_ fuel id false
  | _ :: _ =>
      modify (λ mm, set_requestedModuleIdsQueue_
                      (requestedModuleIdsQueue_ mm ++ [id]) mm) ;;
      dispatchActiveIdleChangeIfNeeded_
  end.

Fixpoint loadNextModule_from (fuel : nat) (queue : list string) : M unit :=
  match queue with
  | [] => dispatchActiveIdleChangeIfNeeded_
  | nextId :: queue' =>
      modify (set_requestedModuleIdsQueue_ queue') ;;
      let* moduleInfo := getModuleInfo nextId in
      match moduleInfo with
      | None => throw TypeError
      | Some moduleInfo =>
          if isLoaded moduleInfo then loadNextModule_from fuel queue'
          else loadModule_ fuel nextId false
      end
  end.

Definition loadNextModule_ (fuel : nat) : M unit :=
  let* queue := gets requestedModuleIdsQueue_ in
  loadNextModule_from fuel queue.

Definition setLoaded (fuel : nat) (id : string) : M unit :=
  modify (λ mm, set_userInitiatedLoadingModuleIds_
                  (goog_array.remove (userInitiatedLoadingModuleIds_ mm) id)
                  mm) ;;
  modify (λ mm, set_loadingModuleIds_
                  (goog_array.remove (loadingModuleIds_ mm) id) mm) ;;
  let* moduleInfo := getModuleInfo id in
  match moduleInfo with
  | None => throw TypeError
  | Some moduleInfo =>
      onLoad id moduleInfo ;;
      let* loading := gets loadingModuleIds_ in
      (match loading with
       | [] => loadNextModule_ fuel
       | _ :: _ => ret tt
       end) ;;
      dispatchActiveIdleChangeIfNeeded_
  end.

Definition load (fuel : nat) (moduleId : string) : M nat :=
  let* moduleInfo := getModuleInfo moduleId in
  let* d := newDeferred in
  match moduleInfo with
  | None => throw TypeError
  | Some moduleInfo =>
      (if isLoaded moduleInfo then
         let* context := gets moduleContext_ in
         execute (DeferredCallback d) (ArgContext context)
       else
         let* loading := isModuleLoading moduleId in
         if loading then
           registerCallback_on moduleId (DeferredCallback d) ;;
           registerErrback_on moduleId (DeferredErrback d)
         else
           registerCallback_on moduleId (DeferredCallback d) ;;
           registerErrback_on moduleId (DeferredErrback d) ;;
           loadModuleOrEnqueue_ fuel moduleId) ;;
      ret d
  end.

Definition dispatchModuleLoadFailed_ (fuel : nat) (cause : FailureType)
    : M unit :=
  let* loading := gets loadingModuleIds_ in
  let id := fst <$> goog_array.pop loading in
  modify (set_loadingModuleIds_ []) ;;
  let* queue := gets requestedModuleIdsQueue_ in
  let* idsToCancel := filterDependents fuel queue id in
  let idsToCancel :=
    if truthy id then goog_array.insert idsToCancel (propertyKey id)
    else idsToCancel in
  forEach idsToCancel (λ idToCancel,
    modify (λ mm, set_requestedModuleIdsQueue_
                    (goog_array.remove (requestedModuleIdsQueue_ mm)
                       idToCancel) mm) ;;
    modify (λ mm, set_userInitiatedLoadingModuleIds_
                    (goog_array.remove (userInitiatedLoadingModuleIds_ mm)
                       idToCancel) mm)) ;;
  let* errorCallbacks :=
    gets (λ mm, callbackMap_ mm !! callbackTypeName ERROR) in
  (match errorCallbacks with
   | None => ret tt
   | Some errorCallbacks =>
       forEach errorCallbacks (λ callback,
         forEach idsToCancel (λ idToCancel,
           emit (NotifyError callback idToCancel cause)))
   end) ;;
  let* moduleInfo := getModuleInfo (propertyKey id) in
  (match moduleInfo with
   | None => ret tt
   | Some moduleInfo => onError (propertyKey id) moduleInfo cause
   end) ;;
  dispatchActiveIdleChangeIfNeeded_.

Definition handleLoadTimeout_ (fuel : nat) : M unit :=
  dispatchModuleLoadFailed_ fuel TIMEOUT ;;
  loadNextModule_ fuel.

Definition handleLoadError_ (fuel : nat) (status : Z) : M unit :=
  modify (λ mm, set_consecutiveFailures_ (consecutiveFailures_ mm + 1) mm) ;;
  if (status =? 401)%Z then
    dispatchModuleLoadFailed_ fuel UNAUTHORIZED ;;
    modify (set_requestedModuleIdsQueue_ [])
  else if (status =? 410)%Z then
    dispatchModuleLoadFailed_ fuel OLD_CODE_GONE ;;
    loadNextModule_ fuel
  else
    let* consecutiveFailures := gets consecutiveFailures_ in
    if 3 <=? consecutiveFailures then
      dispatchModuleLoadFailed_ fuel CONSECUTIVE_FAILURES ;;
      loadNextModule_ fuel
    else
      let* loading := gets loadingModuleIds_ in
      let id := fst <$> goog_array.pop loading in
      modify (set_loadingModuleIds_ []) ;;
      loadModule_ fuel (propertyKey id) true.

End callbacks.
End Reentrant.

(** A registered function that, when the manager calls it with [type],
    calls load for each id of [loads fn type] and does nothing else.  A
    load it makes can make the manager call the registered functions
    again; [depth] bounds how deep such calls within calls go. *)
Fixpoint callbackLoads (loads : nat → CallbackType → list string)
    (depth fuel : nat) (fn : nat) (type : CallbackType) : M unit :=
  match depth with
  | 0 => λ _, OutOfFuel
  | S depth' =>
      forEach (loads fn type) (λ moduleId,
        Reentrant.load (callbackLoads loads depth' fuel) fuel moduleId ;;
        ret tt)
  end.

(** The configuration {X: [], Y: []} with two functions registered for
    ACTIVE, and the same with one function registered for IDLE and X with
    the loader. *)
Definition worldWithActiveCallbacks : World :=
  worldAfter 10 [OpSetAllModuleInfo independentInfo;
                 OpRegisterCallback [ACTIVE] 7;
                 OpRegisterCallback [ACTIVE] 8].

Definition worldWithIdleCallback : World :=
  worldAfter 10 [OpSetAllModuleInfo independentInfo;
                 OpRegisterCallback [IDLE] 9; OpLoad "X"].

(** Function 7 loads Y when it is told that the manager is active;
    function 9 loads Y when it is told that the manager is idle. *)
Definition loadsYWhenActive (fn : nat) (type : CallbackType)
    : list string :=
  match fn, type with
  | 7, ACTIVE => ["Y"]
  | _, _ => []
  end.

Definition loadsYWhenIdle (fn : nat) (type : CallbackType) : list string :=
  match fn, type with
  | 9, IDLE => ["Y"]
  | _, _ => []
  end.

(** ** The callbacks an operation calls *)

(** The calls of registered functions for ACTIVE, IDLE, USER_ACTIVE and
    USER_IDLE among [events], in order. *)
Definition notified (events : list Event) : list Event :=
  events ≫= λ e,
    match e with
    | Notify _ _ => [e]
    | _ => []
    end.

(** The calls for a flag that goes from [old] to [new]: every function
    registered for the event once, in registration order, and none when
    the flag stays. *)
Definition flagCalls (mm : ModuleManager) (on off : CallbackType)
    (old new : bool) : list Event :=
  if negb (eqb new old) then notifications mm (if new then on else off)
  else [].

Definition transitionCalls (mm : ModuleManager)
    (active userActive active' userActive' : bool) : list Event :=
  flagCalls mm ACTIVE IDLE active active' ++
  flagCalls mm USER_ACTIVE USER_IDLE userActive userActive'.

(** The failure reports that give the load up and turn to the queue. *)
Definition movesOn (op : Op) (mm : ModuleManager) : bool :=
  match op with
  | OpHandleLoadTimeout => true
  | OpHandleLoadError status =>
      (status =? 410)%Z ||
      (negb (status =? 401)%Z && (3 <=? consecutiveFailures_ mm + 1))
  | _ => false
  end.

(** From [w] to [w'] no registered function has been called for a flag
    and the flags and the registered functions are the same; from [w] to
    [w'] the registered functions have been called for the flags that
    differ, and for nothing else. *)
Definition quiet (w w' : World) : Prop :=
  ∃ events, calls w' = calls w ++ events ∧ notified events = [] ∧
    lastActive_ (manager w') = lastActive_ (manager w) ∧
    userLastActive_ (manager w') = userLastActive_ (manager w) ∧
    callbackMap_ (manager w') = callbackMap_ (manager w).

Definition oneRound (w w' : World) : Prop :=
  ∃ events, calls w' = calls w ++ events ∧
    notified events =
      transitionCalls (manager w)
        (lastActive_ (manager w)) (userLastActive_ (manager w))
        (lastActive_ (manager w')) (userLastActive_ (manager w')) ∧
    callbackMap_ (manager w') = callbackMap_ (manager w).

Definition silent {A} (c : M A) : Prop :=
  ∀ w a w', c w = Ok (a, w') → quiet w w'.

Definition steady {A} (c : M A) : Prop :=
  ∀ w a w', c w = Ok (a, w') → flagsInSync (manager w) →
            quiet w w' ∧ flagsInSync (manager w').

Definition single {A} (c : M A) : Prop :=
  ∀ w a w', c w = Ok (a, w') → oneRound w w' ∧ flagsInSync (manager w').

Definition accounted {A} (c : M A) : Prop :=
  ∀ w a w', c w = Ok (a, w') → flagsInSync (manager w) → oneRound w w'.

(** The configuration {X: [], Y: []} with function 9 registered for IDLE
    and for ACTIVE, X with the loader and Y in the queue. *)
Definition worldWithQueuedLoad : World :=
  worldAfter 10 [OpSetAllModuleInfo independentInfo;
                 OpRegisterCallback [IDLE; ACTIVE] 9;
                 OpLoad "X"; OpLoad "Y"].
(** ** Facts on the array helpers *)

Lemma pop_snoc {A} (l : list A) (x : A) : goog_array.pop (l ++ [x]) = Some (x, l).
Proof.
  induction l as [|y l IH]; simpl; [done|]. by rewrite IH.
Qed.

Lemma pop_None {A} (l : list A) : goog_array.pop l = None → l = [].
Proof.
  destruct l as [|y l]; simpl; [done|].
  by destruct (goog_array.pop l) as [[? ?]|].
Qed.

Lemma pop_Some {A} (l : list A) x rest :
  goog_array.pop l = Some (x, rest) → l = rest ++ [x].
Proof.
  revert x rest. induction l as [|y l IH]; intros x rest; simpl; [done|].
  destruct (goog_array.pop l) as [[z r]|] eqn:E.
  - intros [= <- <-]. simpl. f_equal. by apply IH.
  - intros [= <- <-]. apply pop_None in E. by subst.
Qed.

Lemma removeDuplicates_from_app seen l1 l2 :
  goog_array.removeDuplicates_from seen (l1 ++ l2) =
  goog_array.removeDuplicates_from seen l1 ++
  goog_array.removeDuplicates_from (seen ∪ list_to_set l1) l2.
Proof.
  revert seen. induction l1 as [|x l1 IH]; intros seen; simpl.
  - f_equal. set_solver.
  - destruct (decide (x ∈ seen)) as [Hin|Hin].
    + rewrite IH. do 2 f_equal. set_solver.
    + simpl. rewrite IH. do 3 f_equal. set_solver.
Qed.

Lemma elem_of_removeDuplicates_from seen l x :
  x ∈ goog_array.removeDuplicates_from seen l ↔ x ∈ l ∧ x ∉ seen.
Proof.
  revert seen. induction l as [|y l IH]; intros seen; simpl.
  - set_solver.
  - destruct (decide (y ∈ seen)) as [Hin|Hin].
    + rewrite IH. set_solver.
    + rewrite elem_of_cons, IH. split.
      * intros [->|[? ?]]; set_solver.
      * intros [[->|?]%elem_of_cons ?]; [by left|].
        destruct (decide (x = y)) as [->|]; [by left|]. right. set_solver.
Qed.

Lemma NoDup_removeDuplicates_from seen l :
  NoDup (goog_array.removeDuplicates_from seen l).
Proof.
  revert seen. induction l as [|y l IH]; intros seen; simpl.
  - constructor.
  - destruct (decide (y ∈ seen)); [done|].
    constructor; [|done]. rewrite elem_of_removeDuplicates_from. set_solver.
Qed.

Lemma elem_of_removeDuplicates l x :
  x ∈ goog_array.removeDuplicates l ↔ x ∈ l.
Proof.
  unfold goog_array.removeDuplicates.
  rewrite elem_of_removeDuplicates_from. set_solver.
Qed.

Lemma NoDup_removeDuplicates l : NoDup (goog_array.removeDuplicates l).
Proof. apply NoDup_removeDuplicates_from. Qed.

(** The first occurrence of a value keeps its place: what stands before it
    afterwards is what stood before it, without the duplicates. *)
Lemma removeDuplicates_first l1 x l2 :
  x ∉ l1 →
  goog_array.removeDuplicates (l1 ++ x :: l2) =
  goog_array.removeDuplicates l1 ++
  x :: goog_array.removeDuplicates_from ({[x]} ∪ list_to_set l1) l2.
Proof.
  intros Hx. unfold goog_array.removeDuplicates.
  rewrite removeDuplicates_from_app. f_equal. simpl.
  destruct (decide (x ∈ ∅ ∪ list_to_set l1)) as [Hin|Hin]; [set_solver|].
  do 2 f_equal. set_solver.
Qed.

Lemma before_app_cons l1 x l2 y : y ∈ l1 → before (l1 ++ x :: l2) y x.
Proof.
  intros [i Hi]%list_elem_of_lookup.
  exists i, (length l1). split_and!.
  - by apply lookup_app_l_Some.
  - by rewrite list_lookup_middle.
  - by apply lookup_lt_Some in Hi.
Qed.

Lemma before_trans l x y z :
  NoDup l → before l x y → before l y z → before l x z.
Proof.
  intros Hnd (i & j & Hi & Hj & Hij) (j' & k & Hj' & Hk & Hjk).
  assert (j = j') as <- by eauto using NoDup_lookup.
  exists i, k. split_and!; [done..|lia].
Qed.

(** ** The resolver: termination *)

Section resolver_facts.
Variable m : gmap string ModuleInfo.

Lemma tc_dependsOn_target x y :
  tc (dependsOn m) x y → ∃ z, dependsOn m z y.
Proof. induction 1; eauto. Qed.

Lemma dependsOn_finite x : pred_finite (tc (dependsOn m) x).
Proof.
  exists (mjoin (getDependencies <$> (map_to_list m).*2)).
  intros y (z & info & Hz & Hy)%tc_dependsOn_target.
  apply list_elem_of_join. exists (getDependencies info). split; [done|].
  apply list_elem_of_fmap. exists info. split; [done|].
  apply list_elem_of_fmap. exists (z, info). split; [done|].
  by apply elem_of_map_to_list.
Qed.

Lemma acyclic_sn : acyclic m → ∀ x, sn (dependsOn m) x.
Proof.
  intros Hacyc x. apply tc_finite_sn; [|apply dependsOn_finite].
  intros y Hy. by apply (Hacyc y).
Qed.

Lemma Forall2_cost_exists (l : list string) :
  (∀ x, x ∈ l → ∃ n, cost m x n) → ∃ ns, Forall2 (cost m) l ns.
Proof.
  induction l as [|x l IH]; intros Hl.
  - exists []. constructor.
  - destruct (Hl x) as [n Hn]; [by left|].
    destruct IH as [ns Hns]; [intros; apply Hl; by right|].
    exists (n :: ns). by constructor.
Qed.

Lemma cost_total : acyclic m → ∀ x, ∃ n, cost m x n.
Proof.
  intros Hacyc x. induction (acyclic_sn Hacyc x) as [x _ IH].
  destruct (m !! x) as [info|] eqn:Hx; [|eauto using cost].
  destruct (isLoaded info) eqn:Hl; [eauto using cost|].
  destruct (Forall2_cost_exists (getDependencies info)) as [ns Hns].
  { intros d Hd. apply IH. simpl. by exists info. }
  eauto using cost.
Qed.

(** With fuel beyond the cost of its worklist the loop ends. *)
Lemma depIdsLoop_fuel fuel ids depIds ns :
  Forall2 (cost m) depIds ns → sum_list ns < fuel →
  depIdsLoop m fuel ids depIds ≠ OutOfFuel.
Proof.
  revert ids depIds ns.
  induction fuel as [|fuel IH]; intros ids depIds ns Hcost Hlt; [lia|].
  simpl. destruct (goog_array.pop depIds) as [[x rest]|] eqn:Hpop; [|done].
  apply pop_Some in Hpop as ->.
  apply Forall2_app_inv_l in Hcost as (ns1 & ns2 & Hrest & Hx & ->).
  apply Forall2_cons_inv_l in Hx as (c & ns' & Hc & Hnil & ->).
  apply Forall2_nil_inv_l in Hnil as ->.
  rewrite sum_list_with_app in Hlt. simpl in Hlt.
  inversion Hc as [? Hm|? info Hm Hl|? info nsd Hm Hl Hd]; subst; rewrite Hm.
  - done.
  - rewrite Hl. apply (IH _ _ ns1); [done|lia].
  - rewrite Hl. apply (IH _ _ (nsd ++ ns1)).
    + by apply Forall2_app.
    + rewrite sum_list_with_app. lia.
Qed.

(** The loop throws only on an id that is not registered. *)
Lemma depIdsLoop_no_throw fuel ids depIds e :
  closed m → (∀ x, x ∈ depIds → is_Some (m !! x)) →
  depIdsLoop m fuel ids depIds ≠ Throw e.
Proof.
  intros Hclosed. revert ids depIds.
  induction fuel as [|fuel IH]; intros ids depIds Hreg; [done|].
  simpl. destruct (goog_array.pop depIds) as [[x rest]|] eqn:Hpop; [|done].
  apply pop_Some in Hpop as ->.
  destruct (Hreg x) as [info Hx]; [set_solver|]. rewrite Hx.
  destruct (isLoaded info) eqn:Hl.
  - apply IH. intros; apply Hreg. set_solver.
  - apply IH. intros y [Hy|Hy]%elem_of_app.
    + apply (Hclosed x). by exists info.
    + apply Hreg. set_solver.
Qed.

Lemma collectedDepIds_fuel id :
  acyclic m → ∃ n, ∀ fuel, n ≤ fuel → collectedDepIds m fuel id ≠ OutOfFuel.
Proof.
  intros Hacyc. unfold collectedDepIds.
  destruct (m !! id) as [info|] eqn:Hid; [|by exists 0].
  destruct (Forall2_cost_exists (getDependencies info)) as [ns Hns].
  { intros; by apply cost_total. }
  exists (S (sum_list ns)). intros fuel Hfuel.
  apply (depIdsLoop_fuel _ _ _ ns); [done|lia].
Qed.

Lemma collectedDepIds_no_throw fuel id e :
  closed m → is_Some (m !! id) → collectedDepIds m fuel id ≠ Throw e.
Proof.
  intros Hclosed [info Hid]. unfold collectedDepIds. rewrite Hid.
  apply depIdsLoop_no_throw; [done|].
  intros x Hx. apply (Hclosed id). by exists info.
Qed.

(** One bound on the fuel serves every id. *)
Lemma collectedDepIds_fuel_uniform :
  acyclic m → ∃ n, ∀ fuel id, n ≤ fuel → collectedDepIds m fuel id ≠ OutOfFuel.
Proof.
  intros Hacyc.
  assert (∀ keys : list string, ∃ n, ∀ fuel id, id ∈ keys → n ≤ fuel →
            collectedDepIds m fuel id ≠ OutOfFuel) as Hkeys.
  { induction keys as [|k keys [n IH]].
    - exists 0. intros ? ? ?%elem_of_nil. done.
    - destruct (collectedDepIds_fuel k Hacyc) as [nk Hk].
      exists (nk `max` n). intros fuel id [->|Hin]%elem_of_cons Hle.
      + apply Hk. lia.
      + apply IH; [done|lia]. }
  destruct (Hkeys (map_to_list m).*1) as [n Hn].
  exists n. intros fuel id Hle.
  destruct (m !! id) as [info|] eqn:Hid.
  - apply Hn; [|done]. apply list_elem_of_fmap. exists (id, info).
    split; [done|]. by apply elem_of_map_to_list.
  - unfold collectedDepIds. by rewrite Hid.
Qed.

End resolver_facts.

(** ** The resolver: what the loop collects *)

Section resolver_order.
Variable m : gmap string ModuleInfo.

(** An invariant of the loop that holds on entry holds on exit. *)
Lemma depIdsLoop_invariant (P : list string → list string → Prop) :
  (∀ ids rest x info,
     P ids (rest ++ [x]) → m !! x = Some info → isLoaded info = true →
     P ids rest) →
  (∀ ids rest x info,
     P ids (rest ++ [x]) → m !! x = Some info → isLoaded info = false →
     P (x :: ids) (getDependencies info ++ rest)) →
  ∀ fuel ids depIds r,
    P ids depIds → depIdsLoop m fuel ids depIds = Ok r → P r [].
Proof.
  intros Hskip Hpush.
  induction fuel as [|fuel IH]; intros ids depIds r HP; simpl; [done|].
  destruct (goog_array.pop depIds) as [[x rest]|] eqn:Hpop.
  - apply pop_Some in Hpop as ->.
    destruct (m !! x) as [info|] eqn:Hx; [|done].
    destruct (isLoaded info) eqn:Hl; apply IH; eauto.
  - apply pop_None in Hpop as ->. by intros [= <-].
Qed.

Lemma awaits_dependsOn x d : awaits m x d → dependsOn m x d.
Proof. by intros [? _]. Qed.

Lemma tc_awaits_dependsOn x d : tc (awaits m) x d → tc (dependsOn m) x d.
Proof.
  induction 1; eauto using tc_once, tc_l, awaits_dependsOn.
Qed.

Lemma tc_awaits_notYetLoaded x d : tc (awaits m) x d → notYetLoaded m d.
Proof. induction 1 as [?? [_ ?]|]; eauto. Qed.

Lemma notYetLoaded_not_loaded x info :
  notYetLoaded m x → m !! x = Some info → isLoaded info = false.
Proof. intros (info' & Hx & Hl) Hx'. congruence. Qed.

Lemma collected_sound_exit id info fuel r :
  m !! id = Some info →
  depIdsLoop m fuel [id] (getDependencies info) = Ok r →
  collected_sound m id r [].
Proof.
  intros Hid. apply depIdsLoop_invariant.
  - intros ids rest x _ [Hpre Hwl] _ _. split; [done|].
    intros w Hw. apply Hwl. set_solver.
  - intros ids rest x xinfo [(pre & -> & Hpre) Hwl] Hx Hl.
    destruct (Hwl x) as (y & Hy & Hyx); [set_solver|].
    assert (tc (awaits m) id x) as Hidx.
    { eapply tc_rtc_l; [done|]. apply tc_once. split; [done|].
      by exists xinfo. }
    split.
    + exists (x :: pre). split; [done|].
      intros z [->|Hz]%elem_of_cons; auto.
    + intros w [Hw|Hw]%elem_of_app.
      * exists x. split; [by apply tc_rtc|]. by exists xinfo.
      * apply Hwl. set_solver.
  - split.
    + exists []. split; [done|]. by intros ? ?%elem_of_nil.
    + intros w Hw. exists id. split; [done|]. by exists info.
Qed.

Lemma collected_order_exit id info fuel r :
  m !! id = Some info →
  depIdsLoop m fuel [id] (getDependencies info) = Ok r →
  collected_order m r [].
Proof.
  intros Hid. apply depIdsLoop_invariant.
  - intros ids rest x xinfo Hinv Hx Hl i y d Hi Hyd.
    destruct (Hinv i y d Hi Hyd) as [?|[Hd|Hd%list_elem_of_singleton]%elem_of_app];
      [by left|by right|].
    subst d. destruct Hyd as [_ Hd].
    pose proof (notYetLoaded_not_loaded _ _ Hd Hx). congruence.
  - intros ids rest x xinfo Hinv Hx Hl [|i] y d Hi Hyd; simpl in Hi.
    + injection Hi as <-. right. destruct Hyd as [(xinfo' & Hx' & Hd) _].
      assert (xinfo' = xinfo) as -> by congruence. set_solver.
    + destruct (Hinv i y d Hi Hyd)
        as [(j & Hj & Hjd)|[Hd|Hd%list_elem_of_singleton]%elem_of_app].
      * left. exists (S j). split; [lia|done].
      * right. set_solver.
      * subst d. left. exists 0. split; [lia|done].
  - intros [|i] y d Hi Hyd; simpl in Hi; [|done].
    injection Hi as <-. right. destruct Hyd as [(info' & Hid' & Hd) _].
    by assert (info' = info) as -> by congruence.
Qed.

(** What [collected_order] gives once the worklist is empty. *)
Lemma collected_order_closed ids y d :
  collected_order m ids [] → y ∈ ids → tc (awaits m) y d → d ∈ ids.
Proof.
  intros Hord Hy Hyd. induction Hyd as [y d Hyd|y z d Hyz _ IH].
  - apply list_elem_of_lookup in Hy as [i Hi].
    destruct (Hord i y d Hi Hyd) as [(j & _ & Hj)|?%elem_of_nil]; [|done].
    apply list_elem_of_lookup. eauto.
  - apply IH. apply list_elem_of_lookup in Hy as [i Hi].
    destruct (Hord i y z Hi Hyz) as [(j & _ & Hj)|?%elem_of_nil]; [|done].
    apply list_elem_of_lookup. eauto.
Qed.

Lemma collected_order_before ids y d :
  collected_order m ids [] → y ∈ ids → awaits m y d →
  before (goog_array.removeDuplicates ids) d y.
Proof.
  intros Hord Hy Hyd.
  apply list_elem_of_split_l in Hy as (l1 & l2 & -> & Hy).
  destruct (Hord (length l1) y d) as [(j & Hj & Hjd)|?%elem_of_nil];
    [by rewrite list_lookup_middle|done| |done].
  rewrite lookup_app_l in Hjd by done.
  rewrite removeDuplicates_first by done.
  apply before_app_cons. apply elem_of_removeDuplicates.
  apply list_elem_of_lookup. eauto.
Qed.

Lemma before_elem_of l x y : before l x y → x ∈ l ∧ y ∈ l.
Proof.
  intros (i & j & Hi & Hj & _). split; apply list_elem_of_lookup; eauto.
Qed.

Lemma collected_order_before_tc ids y d :
  collected_order m ids [] → y ∈ ids → tc (awaits m) y d →
  before (goog_array.removeDuplicates ids) d y.
Proof.
  intros Hord Hy Hyd. induction Hyd as [y d Hyd|y z d Hyz Hzd IH].
  - by apply collected_order_before.
  - pose proof (collected_order_before _ _ _ Hord Hy Hyz) as Hzy.
    eapply before_trans; [apply NoDup_removeDuplicates| |done].
    apply IH. apply before_elem_of in Hzy as [Hz _].
    by apply elem_of_removeDuplicates.
Qed.

End resolver_order.

(** ** The resolver: more fuel changes nothing *)

Lemma depIdsLoop_fuel_mono m fuel fuel' ids depIds r :
  depIdsLoop m fuel ids depIds = Ok r → fuel ≤ fuel' →
  depIdsLoop m fuel' ids depIds = Ok r.
Proof.
  revert fuel' ids depIds.
  induction fuel as [|fuel IH]; intros fuel' ids depIds; simpl; [done|].
  intros Hrun Hle. destruct fuel' as [|fuel']; [lia|]. simpl.
  destruct (goog_array.pop depIds) as [[x rest]|]; [|done].
  destruct (m !! x) as [info|]; [|done].
  destruct (isLoaded info); apply IH; (done || lia).
Qed.

Lemma resolver_fuel_mono m fuel fuel' id l :
  getNotYetLoadedTransitiveDepIds_ m fuel id = Ok l → fuel ≤ fuel' →
  getNotYetLoadedTransitiveDepIds_ m fuel' id = Ok l.
Proof.
  unfold getNotYetLoadedTransitiveDepIds_, collectedDepIds.
  destruct (m !! id) as [info|]; [|done].
  destruct (depIdsLoop m fuel _ _) as [ids| |] eqn:Hrun; [|done..].
  intros [= <-] Hle. by rewrite (depIdsLoop_fuel_mono _ _ _ _ _ _ Hrun Hle).
Qed.

(** ** Concrete dependency maps *)

Lemma topological_acyclic order m : topological order m → acyclic m.
Proof.
  intros Htopo.
  assert (∀ x y, tc (dependsOn m) x y → indexOf order y < indexOf order x)
    as Hlt.
  { induction 1 as [x y (info & Hx & Hy)|x y z (info & Hx & Hy) _ IH].
    - specialize (Htopo x info Hx). simpl in Htopo.
      rewrite Forall_forall in Htopo. by apply Htopo.
    - specialize (Htopo x info Hx). simpl in Htopo.
      rewrite Forall_forall in Htopo. specialize (Htopo y Hy). lia. }
  intros x Hx. apply Hlt in Hx. lia.
Qed.

Lemma allRegistered_closed m : allRegistered m → closed m.
Proof.
  intros Hall x d (info & Hx & Hd). specialize (Hall x info Hx).
  simpl in Hall. rewrite Forall_forall in Hall. by apply Hall.
Qed.

(** ** The resolver: its contract *)

Lemma collectedDepIds_Ok m id :
  acyclic m → closed m → is_Some (m !! id) →
  ∃ n, ∀ fuel, n ≤ fuel → ∃ ids, collectedDepIds m fuel id = Ok ids.
Proof.
  intros Hacyc Hclosed Hid.
  destruct (collectedDepIds_fuel m id Hacyc) as [n Hn].
  exists n. intros fuel Hle. specialize (Hn fuel Hle).
  destruct (collectedDepIds m fuel id) as [ids|e|] eqn:Hrun; [eauto| |done].
  by apply collectedDepIds_no_throw in Hrun.
Qed.

Lemma collected_facts m id fuel ids :
  acyclic m → collectedDepIds m fuel id = Ok ids →
  ∀ l, l = goog_array.removeDuplicates ids →
  last l = Some id ∧
  (∀ x, x ∈ l ↔ x = id ∨ tc (awaits m) id x) ∧
  (∀ x, x ∈ l → ∃ c1 c2 r1 r2,
     ids = c1 ++ x :: c2 ∧ (x ∉ c1) ∧ l = r1 ++ x :: r2 ∧
     ∀ y, y ∈ r1 ↔ y ∈ c1) ∧
  (∀ x y, y ∈ l → tc (awaits m) y x → before l x y).
Proof.
  intros Hacyc. unfold collectedDepIds.
  destruct (m !! id) as [info|] eqn:Hid; [|done]. intros Hrun l ->.
  pose proof (collected_sound_exit m id info fuel ids Hid Hrun)
    as [(pre & -> & Hpre) _].
  pose proof (collected_order_exit m id info fuel _ Hid Hrun) as Hord.
  assert (id ∉ pre) as Hfresh.
  { intros Hin. apply (Hacyc id). apply tc_awaits_dependsOn. auto. }
  split_and!.
  - rewrite removeDuplicates_first by done. simpl.
    by rewrite last_snoc.
  - intros x. rewrite elem_of_removeDuplicates. split.
    + intros [Hx|Hx%list_elem_of_singleton]%elem_of_app; auto.
    + intros [->|Hx]; [set_solver|].
      eapply collected_order_closed; [done| |done]. set_solver.
  - intros x Hx. rewrite elem_of_removeDuplicates in Hx.
    apply list_elem_of_split_l in Hx as (c1 & c2 & Hsplit & Hc1).
    exists c1, c2, (goog_array.removeDuplicates c1),
      (goog_array.removeDuplicates_from ({[x]} ∪ list_to_set c1) c2).
    split; [done|]. split; [done|]. split.
    + rewrite Hsplit. by apply removeDuplicates_first.
    + intros y. apply elem_of_removeDuplicates.
  - intros x y Hy Hyx. rewrite elem_of_removeDuplicates in Hy.
    by apply (collected_order_before_tc m).
Qed.

(** What the resolver returns on any acyclic map whose dependencies are
    all registered, whether or not the loaded modules have their
    dependencies loaded: run on a not-yet-loaded [id] it returns a list
    that ends with [id], has no duplicates, holds besides [id] exactly the
    ids that [id] awaits through a chain of not-yet-loaded modules (so no
    loaded id), keeps every id where it first stands in the collected
    array (what is before it are the ids before that first occurrence), and
    has every id before all the listed ids that await it. *)
Theorem resolve_awaited_in_dependency_order
    (m : gmap string ModuleInfo) (id : string) :
  acyclic m → closed m → notYetLoaded m id →
  ∃ n, ∀ fuel, n ≤ fuel →
    ∃ ids l,
      collectedDepIds m fuel id = Ok ids ∧
      getNotYetLoadedTransitiveDepIds_ m fuel id = Ok l ∧
      last l = Some id ∧
      NoDup l ∧
      (∀ x, x ∈ l ↔ x = id ∨ tc (awaits m) id x) ∧
      (∀ x, x ∈ l → notYetLoaded m x) ∧
      (∀ x, x ∈ l → ∃ c1 c2 r1 r2,
         ids = c1 ++ x :: c2 ∧ (x ∉ c1) ∧ l = r1 ++ x :: r2 ∧
         ∀ y, y ∈ r1 ↔ y ∈ c1) ∧
      (∀ x y, y ∈ l → tc (awaits m) y x → before l x y).
Proof.
  intros Hacyc Hclosed Hid.
  destruct (collectedDepIds_Ok m id Hacyc Hclosed) as [n Hn].
  { destruct Hid as (info & Hid & _). eauto. }
  exists n. intros fuel Hle. destruct (Hn fuel Hle) as [ids Hids].
  exists ids, (goog_array.removeDuplicates ids).
  destruct (collected_facts m id fuel ids Hacyc Hids _ eq_refl)
    as (Hlast & Hmem & Hpos & Hbefore).
  split_and!; try done.
  - unfold getNotYetLoadedTransitiveDepIds_. by rewrite Hids.
  - apply NoDup_removeDuplicates.
  - intros x [->|Hx]%Hmem; [done|]. by eapply tc_awaits_notYetLoaded.
Qed.

Lemma diamondMap_acyclic : acyclic diamondMap.
Proof.
  apply (topological_acyclic ["A"; "B"; "C"; "D"]).
  apply (bool_decide_unpack _). by vm_compute.
Qed.

Lemma diamondMap_closed : closed diamondMap.
Proof.
  apply allRegistered_closed. apply (bool_decide_unpack _). by vm_compute.
Qed.

Lemma resolve_awaited_in_dependency_order_witness :
  acyclic diamondMap ∧ closed diamondMap ∧ notYetLoaded diamondMap "D" ∧
  ∃ n, ∀ fuel, n ≤ fuel →
    ∃ ids l,
      collectedDepIds diamondMap fuel "D" = Ok ids ∧
      getNotYetLoadedTransitiveDepIds_ diamondMap fuel "D" = Ok l ∧
      last l = Some "D" ∧
      NoDup l ∧
      (∀ x, x ∈ l ↔ x = "D" ∨ tc (awaits diamondMap) "D" x) ∧
      (∀ x, x ∈ l → notYetLoaded diamondMap x) ∧
      (∀ x, x ∈ l → ∃ c1 c2 r1 r2,
         ids = c1 ++ x :: c2 ∧ (x ∉ c1) ∧ l = r1 ++ x :: r2 ∧
         ∀ y, y ∈ r1 ↔ y ∈ c1) ∧
      (∀ x y, y ∈ l → tc (awaits diamondMap) y x → before l x y).
Proof.
  assert (notYetLoaded diamondMap "D") as HD.
  { exists (pendingModule ["B"; "C"]). split; reflexivity. }
  split; [exact diamondMap_acyclic|].
  split; [exact diamondMap_closed|].
  split; [exact HD|].
  exact (resolve_awaited_in_dependency_order diamondMap "D"
           diamondMap_acyclic diamondMap_closed HD).
Defined.

Example resolve_diamond :
  collectedDepIds diamondMap 10 "D" = Ok ["A"; "A"; "B"; "C"; "D"] ∧
  getNotYetLoadedTransitiveDepIds_ diamondMap 10 "D" =
    Ok ["A"; "B"; "C"; "D"].
Proof. split; reflexivity. Qed.

Lemma loadedBeforeDependencyMap_acyclic : acyclic loadedBeforeDependencyMap.
Proof.
  apply (topological_acyclic ["U"; "L"; "A"]).
  apply (bool_decide_unpack _). by vm_compute.
Qed.

Lemma loadedBeforeDependencyMap_closed : closed loadedBeforeDependencyMap.
Proof.
  apply allRegistered_closed. apply (bool_decide_unpack _). by vm_compute.
Qed.

(** The loop does not look behind a loaded module.  In batch mode
    load("L") sends U and L to the loader together; when L reports itself
    loaded before U, which it needs, the map has a loaded module with a
    dependency that is not loaded.  A is not yet loaded and depends on U
    through the loaded L; U is not yet loaded, and yet the list resolved
    for A does not hold U, whatever the fuel. *)
Lemma resolve_misses_dependency_behind_loaded :
  runOps 10 loadedOutOfOrderOps newWorld =
    Ok (tt, worldAfter 10 loadedOutOfOrderOps) ∧
  loadingModuleIds_ (manager (worldAfter 10 loadedOutOfOrderOps)) = ["U"] ∧
  acyclic loadedBeforeDependencyMap ∧ closed loadedBeforeDependencyMap ∧
  notYetLoaded loadedBeforeDependencyMap "A" ∧
  notYetLoaded loadedBeforeDependencyMap "U" ∧
  tc (dependsOn loadedBeforeDependencyMap) "A" "U" ∧
  getNotYetLoadedTransitiveDepIds_ loadedBeforeDependencyMap 10 "A" =
    Ok ["A"] ∧
  ¬ ∃ n, ∀ fuel, n ≤ fuel → ∃ l,
      getNotYetLoadedTransitiveDepIds_ loadedBeforeDependencyMap fuel "A" =
        Ok l ∧
      ∀ x, notYetLoaded loadedBeforeDependencyMap x →
           tc (dependsOn loadedBeforeDependencyMap) "A" x → x ∈ l.
Proof.
  assert (notYetLoaded loadedBeforeDependencyMap "U") as HU.
  { exists (pendingModule []). split; [vm_compute|]; reflexivity. }
  assert (tc (dependsOn loadedBeforeDependencyMap) "A" "U") as HAU.
  { apply tc_l with "L"; [|apply tc_once].
    - exists (pendingModule ["L"]).
      split; [vm_compute; reflexivity|]. set_solver.
    - exists (loadedModule ["U"]).
      split; [vm_compute; reflexivity|].
      unfold getDependencies. simpl. set_solver. }
  split_and!.
  - vm_compute. reflexivity.
  - vm_compute. reflexivity.
  - exact loadedBeforeDependencyMap_acyclic.
  - exact loadedBeforeDependencyMap_closed.
  - exists (pendingModule ["L"]). split; [vm_compute|]; reflexivity.
  - exact HU.
  - exact HAU.
  - vm_compute. reflexivity.
  - intros [n Hn]. destruct (Hn (n `max` 10)) as (l & Hl & Hall); [lia|].
    assert (getNotYetLoadedTransitiveDepIds_ loadedBeforeDependencyMap
              (n `max` 10) "A" = Ok ["A"]) as Hrun.
    { apply (resolver_fuel_mono _ 10); [vm_compute; reflexivity|lia]. }
    rewrite Hrun in Hl. injection Hl as <-.
    specialize (Hall "U" HU HAU).
    apply list_elem_of_singleton in Hall. discriminate Hall.
Qed.

(** C10: on an acyclic map the worklist loop of the resolver ends: past
    some amount of fuel no run is cut short, whatever the id; and when the
    declared dependencies are all registered the loop reaches the empty
    worklist and the resolver returns its list. *)
Theorem resolver_terminates (m : gmap string ModuleInfo) :
  acyclic m →
  ∃ n, ∀ fuel id, n ≤ fuel →
    getNotYetLoadedTransitiveDepIds_ m fuel id ≠ OutOfFuel ∧
    (closed m → is_Some (m !! id) →
     is_Ok (getNotYetLoadedTransitiveDepIds_ m fuel id)).
Proof.
  intros Hacyc.
  destruct (collectedDepIds_fuel_uniform m Hacyc) as [n Hn].
  exists n. intros fuel id Hle. specialize (Hn fuel id Hle).
  unfold getNotYetLoadedTransitiveDepIds_.
  destruct (collectedDepIds m fuel id) as [ids|e|] eqn:Hrun; [|split..].
  - split; [done|]. intros _ _. by eexists.
  - done.
  - intros Hclosed Hid. by apply collectedDepIds_no_throw in Hrun.
  - done.
  - done.
Qed.

Lemma resolver_terminates_witness :
  acyclic diamondMap ∧
  ∃ n, ∀ fuel id, n ≤ fuel →
    getNotYetLoadedTransitiveDepIds_ diamondMap fuel id ≠ OutOfFuel ∧
    (closed diamondMap → is_Some (diamondMap !! id) →
     is_Ok (getNotYetLoadedTransitiveDepIds_ diamondMap fuel id)).
Proof.
  split; [exact diamondMap_acyclic|].
  exact (resolver_terminates diamondMap diamondMap_acyclic).
Defined.

(** ** Running the methods: the building blocks *)

Lemma bind_ret {A B} (a : A) (k : A → M B) (w : World) :
  bind (ret a) k w = k a w.
Proof. done. Qed.

Lemma bind_gets {A B} (f : ModuleManager → A) (k : A → M B) (w : World) :
  bind (gets f) k w = k (f (manager w)) w.
Proof. done. Qed.

Lemma bind_modify {B} (f : ModuleManager → ModuleManager) (k : unit → M B)
    (w : World) :
  bind (modify f) k w = k tt (setManager (f (manager w)) w).
Proof. done. Qed.

Lemma bind_emit {B} (e : Event) (k : unit → M B) (w : World) :
  bind (emit e) k w = k tt (addCalls [e] w).
Proof. done. Qed.

Lemma bind_assoc {A B C} (c : M A) (k : A → M B) (k' : B → M C) (w : World) :
  bind (bind c k) k' w = bind c (λ a, bind (k a) k') w.
Proof. unfold bind. by destruct (c w) as [[a w']| |]. Qed.

Lemma bind_Ok {A B} (c : M A) (k : A → M B) (w w' : World) (a : A) :
  c w = Ok (a, w') → bind c k w = k a w'.
Proof. unfold bind. by intros ->. Qed.

Lemma bind_Ok_inv {A B} (c : M A) (k : A → M B) (w w'' : World) (b : B) :
  bind c k w = Ok (b, w'') →
  ∃ a w', c w = Ok (a, w') ∧ k a w' = Ok (b, w'').
Proof. unfold bind. destruct (c w) as [[a w']| |]; [eauto|done..]. Qed.

Lemma addCalls_nil (w : World) : addCalls [] w = w.
Proof. unfold addCalls. rewrite app_nil_r. by destruct w. Qed.

Lemma addCalls_addCalls (evs evs' : list Event) (w : World) :
  addCalls evs' (addCalls evs w) = addCalls (evs ++ evs') w.
Proof. unfold addCalls. simpl. by rewrite app_assoc. Qed.

Lemma forEach_emit {A} (arr : list A) (f : A → Event) (w : World) :
  forEach arr (λ x, emit (f x)) w = Ok (tt, addCalls (f <$> arr) w).
Proof.
  revert w. induction arr as [|x arr IH]; intros w; simpl.
  - by rewrite addCalls_nil.
  - rewrite bind_emit, IH. by rewrite addCalls_addCalls.
Qed.

Lemma executeCallbacks_run (type : CallbackType) (w : World) :
  executeCallbacks_ type w =
  Ok (tt, addCalls (notifications (manager w) type) w).
Proof.
  unfold executeCallbacks_, notifications, registered. rewrite bind_gets.
  destruct (callbackMap_ (manager w) !! callbackTypeName type) as [fns|];
    simpl.
  - apply forEach_emit.
  - by rewrite addCalls_nil.
Qed.

Lemma set_lastActive_same (mm : ModuleManager) :
  set_lastActive_ (lastActive_ mm) mm = mm.
Proof. by destruct mm. Qed.

Lemma set_userLastActive_same (mm : ModuleManager) :
  set_userLastActive_ (userLastActive_ mm) mm = mm.
Proof. by destruct mm. Qed.

Lemma setManager_same (w : World) : setManager (manager w) w = w.
Proof. by destruct w. Qed.

Lemma dispatchActiveIdleChangeIfNeeded_run (w : World) :
  dispatchActiveIdleChangeIfNeeded_ w =
  Ok (tt, addCalls (activeChange (manager w) ++ userActiveChange (manager w))
            (setManager (syncFlags (manager w)) w)).
Proof.
  unfold dispatchActiveIdleChangeIfNeeded_, isActive, isUserActive.
  rewrite !bind_gets. fold (isActiveNow (manager w)).
  unfold activeChange, userActiveChange, syncFlags.
  destruct (eqb (isActiveNow (manager w)) (lastActive_ (manager w))) eqn:Ha;
    simpl.
  - apply eqb_prop in Ha. rewrite bind_ret, !bind_gets.
    fold (isUserActiveNow (manager w)). rewrite Ha, set_lastActive_same.
    destruct (eqb (isUserActiveNow (manager w))
                (userLastActive_ (manager w))) eqn:Hu; simpl.
    + apply eqb_prop in Hu. rewrite Hu, set_userLastActive_same.
      by rewrite setManager_same, addCalls_nil.
    + erewrite bind_Ok by apply executeCallbacks_run. done.
  - rewrite bind_assoc. erewrite bind_Ok by apply executeCallbacks_run.
    rewrite bind_modify, !bind_gets. simpl.
    fold (isUserActiveNow (manager w)).
    destruct (eqb (isUserActiveNow (manager w))
                (userLastActive_ (manager w))) eqn:Hu; simpl.
    + apply eqb_prop in Hu. rewrite Hu. unfold ret, addCalls, setManager.
      simpl. by rewrite app_nil_r.
    + erewrite bind_Ok by apply executeCallbacks_run.
      unfold modify, addCalls, setManager, notifications, registered; simpl.
      by rewrite app_assoc.
Qed.

(** ** The active and user-active flags *)

Lemma establishes_preserves {A} (c : M A) :
  establishesSync c → preservesSync c.
Proof. intros H w a w' Hrun _. eauto. Qed.

Lemma establishes_bind {A B} (c : M A) (k : A → M B) :
  (∀ a, establishesSync (k a)) → establishesSync (bind c k).
Proof.
  intros Hk w b w'' (a & w' & _ & Hrun)%bind_Ok_inv. by eapply Hk.
Qed.

Lemma establishes_bind_l {A B} (c : M A) (k : A → M B) :
  establishesSync c → (∀ a, preservesSync (k a)) →
  establishesSync (bind c k).
Proof.
  intros Hc Hk w b w'' (a & w' & Hrun & Hrun')%bind_Ok_inv.
  eapply Hk; [done|]. by eapply Hc.
Qed.

Lemma preserves_bind {A B} (c : M A) (k : A → M B) :
  preservesSync c → (∀ a, preservesSync (k a)) → preservesSync (bind c k).
Proof.
  intros Hc Hk w b w'' (a & w' & Hrun & Hrun')%bind_Ok_inv Hsync.
  eapply Hk; [done|]. by eapply Hc.
Qed.

Lemma preserves_ret {A} (a : A) : preservesSync (ret a).
Proof. by intros w a' w' [= <- <-]. Qed.

Lemma establishes_throw {A} (e : Exn) : establishesSync (@throw A e).
Proof. by intros w a w'. Qed.

Lemma preserves_gets {A} (f : ModuleManager → A) : preservesSync (gets f).
Proof. by intros w a' w' [= <- <-]. Qed.

Lemma preserves_emit (e : Event) : preservesSync (emit e).
Proof. by intros w a' w' [= <- <-]. Qed.

Lemma preserves_newDeferred : preservesSync newDeferred.
Proof. by intros w a' w' [= <- <-]. Qed.

Lemma preserves_fire d state : preservesSync (fire d state).
Proof. by intros w a' w' [= <- <-]. Qed.

Lemma preserves_setTimeout t : preservesSync (setTimeout t).
Proof. by intros w a' w' [= <- <-]. Qed.

Lemma preserves_liftResult {A} (r : Result A) : preservesSync (liftResult r).
Proof. intros w a' w'. unfold liftResult. by destruct r; intros [= <- <-]. Qed.

Lemma preserves_modify (f : ModuleManager → ModuleManager) :
  keepsActivity f → preservesSync (modify f).
Proof.
  intros Hf w a' w' [= <- <-] [Ha Hu]. simpl.
  destruct (Hf (manager w)) as (Hl & Hui & Hla & Hula).
  unfold flagsInSync, isActiveNow, isUserActiveNow.
  by rewrite Hl, Hui, Hla, Hula.
Qed.

Lemma preserves_forEach {A} (arr : list A) (body : A → M unit) :
  (∀ x, preservesSync (body x)) → preservesSync (forEach arr body).
Proof.
  intros Hbody. induction arr as [|x arr IH]; simpl.
  - apply preserves_ret.
  - apply preserves_bind; auto.
Qed.

Lemma establishes_dispatchActiveIdleChangeIfNeeded_ :
  establishesSync dispatchActiveIdleChangeIfNeeded_.
Proof.
  intros w a w'. rewrite dispatchActiveIdleChangeIfNeeded_run.
  by intros [= <- <-].
Qed.

Create HintDb sync discriminated.

#[local] Hint Resolve preserves_ret preserves_gets preserves_emit
  preserves_newDeferred preserves_fire preserves_setTimeout
  preserves_liftResult establishes_throw
  establishes_dispatchActiveIdleChangeIfNeeded_ : sync.
#[local] Hint Resolve establishes_preserves | 10 : sync.

(** Splits a method into its steps and settles those that are known. *)
Ltac sync_steps :=
  repeat first
    [ progress eauto 2 with sync
    | apply preserves_modify; by intros []
    | apply preserves_forEach; intros ?
    | apply establishes_bind_l; [solve [eauto 2 with sync]|intros ?]
    | apply establishes_bind; intros ?
    | apply preserves_bind; [|intros ?]
    | match goal with
      | |- establishesSync (if ?b then _ else _) => destruct b
      | |- preservesSync (if ?b then _ else _) => destruct b
      | |- establishesSync (match ?x with _ => _ end) => destruct x
      | |- preservesSync (match ?x with _ => _ end) => destruct x
      end ].

Lemma preserves_execute fn arg : preservesSync (execute fn arg).
Proof. destruct fn; simpl; sync_steps. Qed.
#[local] Hint Resolve preserves_execute : sync.

Lemma preserves_callCallbacks_ callbacks arg :
  preservesSync (callCallbacks_ callbacks arg).
Proof. unfold callCallbacks_. sync_steps. Qed.
#[local] Hint Resolve preserves_callCallbacks_ : sync.

Lemma preserves_putModuleInfo id info : preservesSync (putModuleInfo id info).
Proof. unfold putModuleInfo. sync_steps. Qed.
#[local] Hint Resolve preserves_putModuleInfo : sync.

Lemma preserves_onLoad id info : preservesSync (onLoad id info).
Proof. unfold onLoad. sync_steps. Qed.

Lemma preserves_onError id info cause : preservesSync (onError id info cause).
Proof. unfold onError. sync_steps. Qed.
#[local] Hint Resolve preserves_onLoad preserves_onError : sync.

Lemma preserves_resolve fuel id : preservesSync (resolve fuel id).
Proof. unfold resolve. sync_steps. Qed.
#[local] Hint Resolve preserves_resolve : sync.

Lemma establishes_loadModule_ fuel id opt_isRetry :
  establishesSync (loadModule_ fuel id opt_isRetry).
Proof.
  unfold loadModule_, getModuleInfo. sync_steps.
Qed.
#[local] Hint Resolve establishes_loadModule_ : sync.

Lemma establishes_loadModuleOrEnqueue_ fuel id :
  establishesSync (loadModuleOrEnqueue_ fuel id).
Proof. unfold loadModuleOrEnqueue_. sync_steps. Qed.
#[local] Hint Resolve establishes_loadModuleOrEnqueue_ : sync.

Lemma establishes_loadNextModule_from fuel queue :
  establishesSync (loadNextModule_from fuel queue).
Proof.
  induction queue as [|nextId queue IH]; simpl; unfold getModuleInfo;
    sync_steps.
Qed.
#[local] Hint Resolve establishes_loadNextModule_from : sync.

Lemma establishes_loadNextModule_ fuel :
  establishesSync (loadNextModule_ fuel).
Proof. unfold loadNextModule_. sync_steps. Qed.
#[local] Hint Resolve establishes_loadNextModule_ : sync.

Lemma establishes_setLoaded fuel id : establishesSync (setLoaded fuel id).
Proof. unfold setLoaded, getModuleInfo. sync_steps. Qed.

Lemma preserves_filterDependents fuel queue id :
  preservesSync (filterDependents fuel queue id).
Proof. induction queue as [|requestedId queue IH]; simpl; sync_steps. Qed.
#[local] Hint Resolve preserves_filterDependents : sync.

Lemma establishes_dispatchModuleLoadFailed_ fuel cause :
  establishesSync (dispatchModuleLoadFailed_ fuel cause).
Proof. unfold dispatchModuleLoadFailed_, getModuleInfo. sync_steps. Qed.
#[local] Hint Resolve establishes_dispatchModuleLoadFailed_ : sync.

Lemma establishes_handleLoadTimeout_ fuel :
  establishesSync (handleLoadTimeout_ fuel).
Proof. unfold handleLoadTimeout_. sync_steps. Qed.

Lemma establishes_handleLoadError_ fuel status :
  establishesSync (handleLoadError_ fuel status).
Proof. unfold handleLoadError_. sync_steps. Qed.

Lemma preserves_registerCallback_on id fn :
  preservesSync (registerCallback_on id fn).
Proof. unfold registerCallback_on, getModuleInfo. sync_steps. Qed.

Lemma preserves_registerErrback_on id fn :
  preservesSync (registerErrback_on id fn).
Proof. unfold registerErrback_on, getModuleInfo. sync_steps. Qed.
#[local] Hint Resolve preserves_registerCallback_on
  preserves_registerErrback_on : sync.

Lemma preserves_isModuleLoading id : preservesSync (isModuleLoading id).
Proof. unfold isModuleLoading. sync_steps. Qed.
#[local] Hint Resolve preserves_isModuleLoading : sync.

Lemma preserves_load fuel moduleId : preservesSync (load fuel moduleId).
Proof. unfold load, getModuleInfo. sync_steps. Qed.

(** Pushing an id makes the manager user active; the check that follows
    brings the flag in step. *)
Lemma establishes_push_dispatch moduleId :
  establishesSync
    (pushUserInitiated moduleId ;; dispatchActiveIdleChangeIfNeeded_).
Proof. sync_steps. Qed.

Lemma establishes_push_loadModuleOrEnqueue_ fuel moduleId (b : bool) :
  establishesSync
    ((if b then pushUserInitiated moduleId else ret tt) ;;
     loadModuleOrEnqueue_ fuel moduleId).
Proof. sync_steps. Qed.
#[local] Hint Resolve establishes_push_dispatch
  establishes_push_loadModuleOrEnqueue_ : sync.

Lemma preserves_execOnLoad fuel moduleId f h noLoad userInitiated sync :
  preservesSync (execOnLoad fuel moduleId f h noLoad userInitiated sync).
Proof. unfold execOnLoad, getModuleInfo. sync_steps. Qed.

Lemma preserves_loadModuleOrEnqueueIfNotLoadedOrLoading_ fuel id d :
  preservesSync (loadModuleOrEnqueueIfNotLoadedOrLoading_ fuel id d).
Proof.
  unfold loadModuleOrEnqueueIfNotLoadedOrLoading_, getModuleInfo. sync_steps.
Qed.

Lemma preserves_runTimeout fuel i : preservesSync (runTimeout fuel i).
Proof.
  intros w a w'. unfold runTimeout.
  destruct (timeouts w !! i) as [[fn|id d]|]; [| |by intros [= <- <-]].
  - intros Hrun Hsync. by eapply preserves_execute.
  - intros Hrun Hsync.
    by eapply preserves_loadModuleOrEnqueueIfNotLoadedOrLoading_.
Qed.

Lemma preserves_registerCallback types fn :
  preservesSync (registerCallback types fn).
Proof. unfold registerCallback, registerCallback_. sync_steps. Qed.

Lemma preserves_runOp fuel op : preservesSync (runOp fuel op).
Proof.
  destruct op; simpl.
  - unfold setBatchModeEnabled. sync_steps.
  - unfold setAllModuleInfo. sync_steps.
  - unfold setModuleContext. sync_steps.
  - apply preserves_registerCallback.
  - apply preserves_bind; [apply preserves_load|sync_steps].
  - apply preserves_execOnLoad.
  - unfold preloadModule. sync_steps.
  - apply preserves_runTimeout.
  - unfold beforeLoadModuleCode. sync_steps.
  - unfold afterLoadModuleCode. sync_steps.
  - unfold registerInitializationCallback, getModuleInfo. sync_steps.
  - apply establishes_preserves, establishes_setLoaded.
  - apply establishes_preserves, establishes_handleLoadError_.
  - apply establishes_preserves, establishes_handleLoadTimeout_.
Qed.

Lemma preserves_runOps fuel ops : preservesSync (runOps fuel ops).
Proof.
  induction ops as [|op ops IH]; simpl.
  - apply preserves_ret.
  - apply preserves_bind; [apply preserves_runOp|done].
Qed.

Lemma registerCallback__run type fn w :
  ∃ w', registerCallback_ type fn w = Ok (tt, w') ∧
        registered (manager w') type = registered (manager w) type ++ [fn].
Proof.
  eexists. split; [reflexivity|]. unfold registered. simpl.
  by rewrite lookup_insert_eq.
Qed.

(** The flags follow the arrays when the registered functions leave the
    manager alone.  Every operation that returns leaves [lastActive_]
    equal to "loadingModuleIds_ is not empty" and [userLastActive_] equal
    to "userInitiatedLoadingModuleIds_ is not empty" when it found them
    so, hence so does every sequence of operations on a new manager.  The
    flags are brought in step by dispatchActiveIdleChangeIfNeeded_, which
    calls, for a flag that changes, each function registered for the
    event once, in registration order (registering appends), and nothing
    for a flag that stays. *)
Theorem flags_follow_arrays :
  (∀ fuel op w w',
     flagsInSync (manager w) → runOp fuel op w = Ok (tt, w') →
     flagsInSync (manager w')) ∧
  (∀ fuel ops w',
     runOps fuel ops newWorld = Ok (tt, w') → flagsInSync (manager w')) ∧
  (∀ w, ∃ w',
     dispatchActiveIdleChangeIfNeeded_ w = Ok (tt, w') ∧
     lastActive_ (manager w') = isActiveNow (manager w) ∧
     userLastActive_ (manager w') = isUserActiveNow (manager w) ∧
     loadingModuleIds_ (manager w') = loadingModuleIds_ (manager w) ∧
     userInitiatedLoadingModuleIds_ (manager w') =
       userInitiatedLoadingModuleIds_ (manager w) ∧
     calls w' =
       calls w ++ activeChange (manager w) ++ userActiveChange (manager w)) ∧
  (∀ mm, lastActive_ mm = isActiveNow mm → activeChange mm = []) ∧
  (∀ mm, lastActive_ mm ≠ isActiveNow mm →
     activeChange mm =
       (λ fn, Notify fn (if isActiveNow mm then ACTIVE else IDLE)) <$>
         registered mm (if isActiveNow mm then ACTIVE else IDLE)) ∧
  (∀ mm, userLastActive_ mm = isUserActiveNow mm →
     userActiveChange mm = []) ∧
  (∀ mm, userLastActive_ mm ≠ isUserActiveNow mm →
     userActiveChange mm =
       (λ fn, Notify fn
                (if isUserActiveNow mm then USER_ACTIVE else USER_IDLE)) <$>
         registered mm
           (if isUserActiveNow mm then USER_ACTIVE else USER_IDLE)) ∧
  (∀ type fn w, ∃ w',
     registerCallback_ type fn w = Ok (tt, w') ∧
     registered (manager w') type = registered (manager w) type ++ [fn]).
Proof.
  split_and!.
  - intros fuel op w w' Hsync Hrun. by eapply preserves_runOp.
  - intros fuel ops w' Hrun. eapply preserves_runOps; [done|].
    by split.
  - intros w. eexists. split; [apply dispatchActiveIdleChangeIfNeeded_run|].
    by split_and!.
  - intros mm Heq. unfold activeChange. by rewrite Heq, eqb_reflx.
  - intros mm Hne. unfold activeChange, notifications.
    destruct (eqb _ _) eqn:Heq; [|done].
    apply eqb_prop in Heq. congruence.
  - intros mm Heq. unfold userActiveChange. by rewrite Heq, eqb_reflx.
  - intros mm Hne. unfold userActiveChange, notifications.
    destruct (eqb _ _) eqn:Heq; [|done].
    apply eqb_prop in Heq. congruence.
  - apply registerCallback__run.
Qed.

(** ** load on a module that is already loaded *)

(** C9, as amended: when the module is already loaded, load fires the
    deferred it returns with the module context before it returns; it
    hands nothing to window.setTimeout, makes no call and leaves the
    manager as it was. *)
Theorem load_of_loaded_fires_before_return
    (fuel : nat) (w : World) (moduleId : string) (info : ModuleInfo) :
  moduleInfoMap_ (manager w) !! moduleId = Some info →
  isLoaded info = true →
  ∃ w', load fuel moduleId w = Ok (length (deferreds w), w') ∧
        deferreds w' =
          deferreds w ++
          [Resolved (ArgContext (moduleContext_ (manager w)))] ∧
        timeouts w' = timeouts w ∧
        calls w' = calls w ∧
        manager w' = manager w.
Proof.
  intros Hinfo Hloaded. eexists. split.
  - unfold load, getModuleInfo. rewrite bind_gets, Hinfo.
    unfold bind at 1. unfold newDeferred at 1.
    rewrite Hloaded. rewrite bind_assoc, bind_gets. simpl.
    unfold bind, fire, ret. simpl. reflexivity.
  - simpl. split_and!; try done.
    rewrite insert_app_r_alt by done. by rewrite Nat.sub_diag.
Qed.

Lemma load_of_loaded_fires_before_return_witness :
  moduleInfoMap_ (manager worldWithLoadedA) !! "A" = Some (loadedModule []) ∧
  isLoaded (loadedModule []) = true ∧
  ∃ w', load 10 "A" worldWithLoadedA =
          Ok (length (deferreds worldWithLoadedA), w') ∧
        deferreds w' =
          deferreds worldWithLoadedA ++
          [Resolved (ArgContext (moduleContext_ (manager worldWithLoadedA)))] ∧
        timeouts w' = timeouts worldWithLoadedA ∧
        calls w' = calls worldWithLoadedA ∧
        manager w' = manager worldWithLoadedA.
Proof.
  assert (moduleInfoMap_ (manager worldWithLoadedA) !! "A" =
          Some (loadedModule [])) as HA by (vm_compute; reflexivity).
  split; [exact HA|]. split; [reflexivity|].
  exact (load_of_loaded_fires_before_return 10 worldWithLoadedA "A"
           (loadedModule []) HA eq_refl).
Defined.

(** C9 as first stated fails: A is loaded, and the deferred that load
    returns for it has fired when load returns; nothing is left to run
    later. *)
Lemma load_of_loaded_is_not_deferred :
  ∃ info d w',
    moduleInfoMap_ (manager worldWithLoadedA) !! "A" = Some info ∧
    isLoaded info = true ∧
    load 10 "A" worldWithLoadedA = Ok (d, w') ∧
    deferreds w' !! d = Some (Resolved (ArgContext None)) ∧
    deferreds w' !! d ≠ Some Unfired ∧
    timeouts w' = [].
Proof.
  eexists _, _, _. split_and!.
  - vm_compute. reflexivity.
  - reflexivity.
  - vm_compute. reflexivity.
  - reflexivity.
  - discriminate.
  - reflexivity.
Qed.

(** ** loadModule_ *)

Lemma bind_liftResult_Ok {A B} (a : A) (k : A → M B) (w : World) :
  bind (liftResult (Ok a)) k w = k a w.
Proof. done. Qed.

Lemma resolve_run fuel id w ids :
  getNotYetLoadedTransitiveDepIds_ (moduleInfoMap_ (manager w)) fuel id =
    Ok ids →
  resolve fuel id w = Ok (ids, w).
Proof. intros Hres. unfold resolve. rewrite bind_gets, Hres. done. Qed.

Lemma set_requestedModuleIdsQueue_same (mm : ModuleManager) :
  set_requestedModuleIdsQueue_ (requestedModuleIdsQueue_ mm) mm = mm.
Proof. by destruct mm. Qed.

Lemma loadModule_run fuel id opt_isRetry w info ids :
  moduleInfoMap_ (manager w) !! id = Some info →
  isLoaded info = false →
  getNotYetLoadedTransitiveDepIds_ (moduleInfoMap_ (manager w)) fuel id =
    Ok ids →
  let mm' := loadModuleUpdate ids opt_isRetry (manager w) in
  loadModule_ fuel id opt_isRetry w =
  Ok (tt, addCalls
            (activeChange mm' ++ userActiveChange mm' ++
             [LoadModules (dispatchedIds (batchModeEnabled_ (manager w)) ids)])
            (setManager (syncFlags mm') w)).
Proof.
  intros Hinfo Hloaded Hres mm'.
  unfold loadModule_, getModuleInfo. rewrite bind_gets, Hinfo, Hloaded.
  erewrite bind_Ok by (by apply resolve_run).
  rewrite bind_gets.
  assert (∀ k : list string → M unit,
    bind (if negb (batchModeEnabled_ (manager w)) && (1 <? length ids)
          then match ids with
               | idToLoad :: rest =>
                   modify (λ mm, set_requestedModuleIdsQueue_
                                   (rest ++ requestedModuleIdsQueue_ mm) mm) ;;
                   ret [idToLoad]
               | [] => ret ids
               end
          else ret ids) k w =
    k (dispatchedIds (batchModeEnabled_ (manager w)) ids)
      (setManager (set_requestedModuleIdsQueue_
                     (postponedIds (batchModeEnabled_ (manager w)) ids ++
                      requestedModuleIdsQueue_ (manager w)) (manager w)) w))
    as Hsplit.
  { intros k. unfold dispatchedIds, postponedIds.
    destruct (negb _ && _) eqn:Hb.
    - destruct ids as [|idToLoad rest];
        [by rewrite andb_false_r in Hb|].
      by rewrite bind_assoc, bind_modify, bind_ret.
    - rewrite bind_ret. simpl.
      by rewrite set_requestedModuleIdsQueue_same, setManager_same. }
  rewrite Hsplit. clear Hsplit.
  destruct opt_isRetry; simpl.
  - rewrite bind_ret, bind_modify.
    erewrite bind_Ok by apply dispatchActiveIdleChangeIfNeeded_run.
    unfold emit, addCalls, setManager. simpl.
    by rewrite <- !app_assoc.
  - rewrite !bind_modify.
    erewrite bind_Ok by apply dispatchActiveIdleChangeIfNeeded_run.
    unfold emit, addCalls, setManager. simpl.
    by rewrite <- !app_assoc.
Qed.

Lemma not_elem_of_notifications mm type ids :
  LoadModules ids ∉ notifications mm type.
Proof.
  unfold notifications. by intros (fn & ? & _)%list_elem_of_fmap.
Qed.

Lemma not_elem_of_activeChange mm ids : LoadModules ids ∉ activeChange mm.
Proof.
  unfold activeChange. destruct (negb _); [|by intros ?%elem_of_nil].
  apply not_elem_of_notifications.
Qed.

Lemma not_elem_of_userActiveChange mm ids :
  LoadModules ids ∉ userActiveChange mm.
Proof.
  unfold userActiveChange. destruct (negb _); [|by intros ?%elem_of_nil].
  apply not_elem_of_notifications.
Qed.

(** C7: with batch mode off and more than one id resolved, loadModule_
    hands the first resolved id alone to the loader and puts the others
    back at the front of the queue; with batch mode on it hands the whole
    list over.  On {A: [], B: [A], C: [B]}, load("C") requests [A], then
    [B] once A is loaded, then [C] once B is loaded, and the deferred of
    load("C") fires once C is loaded; in batch mode the only request is
    [A, B, C]. *)
Theorem unbatched_load_goes_one_module_at_a_time :
  (∀ fuel w id info idToLoad rest opt_isRetry,
     moduleInfoMap_ (manager w) !! id = Some info →
     isLoaded info = false →
     getNotYetLoadedTransitiveDepIds_ (moduleInfoMap_ (manager w)) fuel id =
       Ok (idToLoad :: rest) →
     rest ≠ [] →
     ∃ w' events,
       loadModule_ fuel id opt_isRetry w = Ok (tt, w') ∧
       (∀ ids, LoadModules ids ∉ events) ∧
       if batchModeEnabled_ (manager w) then
         calls w' = calls w ++ events ++ [LoadModules (idToLoad :: rest)] ∧
         loadingModuleIds_ (manager w') = idToLoad :: rest ∧
         requestedModuleIdsQueue_ (manager w') =
           requestedModuleIdsQueue_ (manager w)
       else
         calls w' = calls w ++ events ++ [LoadModules [idToLoad]] ∧
         loadingModuleIds_ (manager w') = [idToLoad] ∧
         requestedModuleIdsQueue_ (manager w') =
           rest ++ requestedModuleIdsQueue_ (manager w)) ∧
  (∃ w0 d w1 w2 w3 w4,
     setAllModuleInfo chainInfo newWorld = Ok (tt, w0) ∧
     load 10 "C" w0 = Ok (d, w1) ∧
     calls w1 = [LoadModules ["A"]] ∧
     setLoaded 10 "A" w1 = Ok (tt, w2) ∧
     calls w2 = [LoadModules ["A"]; LoadModules ["B"]] ∧
     setLoaded 10 "B" w2 = Ok (tt, w3) ∧
     calls w3 = [LoadModules ["A"]; LoadModules ["B"]; LoadModules ["C"]] ∧
     deferreds w3 !! d = Some Unfired ∧
     setLoaded 10 "C" w3 = Ok (tt, w4) ∧
     calls w4 = calls w3 ∧
     deferreds w4 !! d = Some (Resolved (ArgContext None))) ∧
  (∃ w0 w0' d w1,
     setAllModuleInfo chainInfo newWorld = Ok (tt, w0) ∧
     setBatchModeEnabled true w0 = Ok (tt, w0') ∧
     load 10 "C" w0' = Ok (d, w1) ∧
     calls w1 = [LoadModules ["A"; "B"; "C"]]).
Proof.
  split_and!.
  - intros fuel w id info idToLoad rest opt_isRetry Hinfo Hloaded Hres Hrest.
    pose (mm' := loadModuleUpdate (idToLoad :: rest) opt_isRetry (manager w)).
    eexists _, (activeChange mm' ++ userActiveChange mm').
    split; [by apply (loadModule_run _ _ _ _ info (idToLoad :: rest))|].
    split.
    { intros ids [?|?]%elem_of_app.
      - by eapply not_elem_of_activeChange.
      - by eapply not_elem_of_userActiveChange. }
    unfold dispatchedIds, postponedIds.
    destruct rest as [|id2 rest]; [done|].
    destruct (batchModeEnabled_ (manager w)) eqn:Hbatch; simpl.
    all: subst mm'; unfold dispatchedIds, postponedIds; rewrite ?Hbatch.
    all: destruct opt_isRetry; simpl; by rewrite <- ?app_assoc.
  - eexists _, _, _, _, _, _.
    split_and!; try (vm_compute; reflexivity).
  - eexists _, _, _, _.
    split_and!; try (vm_compute; reflexivity).
Qed.

Lemma unbatched_load_goes_one_module_at_a_time_witness :
  let w := setManager (set_moduleInfoMap_ diamondMap newModuleManager)
             newWorld in
  moduleInfoMap_ (manager w) !! "D" = Some (pendingModule ["B"; "C"]) ∧
  isLoaded (pendingModule ["B"; "C"]) = false ∧
  getNotYetLoadedTransitiveDepIds_ (moduleInfoMap_ (manager w)) 10 "D" =
    Ok ("A" :: ["B"; "C"; "D"]) ∧
  ["B"; "C"; "D"] ≠ [] ∧
  ∃ w' events,
    loadModule_ 10 "D" false w = Ok (tt, w') ∧
    (∀ ids, LoadModules ids ∉ events) ∧
    calls w' = calls w ++ events ++ [LoadModules ["A"]] ∧
    loadingModuleIds_ (manager w') = ["A"] ∧
    requestedModuleIdsQueue_ (manager w') =
      ["B"; "C"; "D"] ++ requestedModuleIdsQueue_ (manager w).
Proof.
  intros w.
  assert (["B"; "C"; "D"] ≠ []) as Hrest by discriminate.
  split; [reflexivity|]. split; [reflexivity|]. split; [reflexivity|].
  split; [exact Hrest|].
  exact (proj1 unbatched_load_goes_one_module_at_a_time 10 w "D"
           (pendingModule ["B"; "C"]) "A" ["B"; "C"; "D"] false
           eq_refl eq_refl eq_refl Hrest).
Defined.

(** ** dispatchModuleLoadFailed_ *)

Lemma callCallbacks_run callbacks arg w :
  callCallbacks_ callbacks arg w =
  Ok (tt, {| manager := manager w;
             deferreds := fireAll callbacks arg (deferreds w);
             timeouts := timeouts w;
             calls := calls w ++ callEvents callbacks arg |}).
Proof.
  unfold callCallbacks_, fireAll, callEvents.
  revert w. induction callbacks as [|fn callbacks IH]; intros w; simpl.
  - rewrite app_nil_r. by destruct w.
  - unfold bind at 1. destruct fn as [d|d|f h]; simpl; rewrite IH; simpl;
      by rewrite ?app_nil_r, <- ?app_assoc.
Qed.

Lemma filterDependents_run fuel queue failed w :
  Forall (λ requestedId,
            is_Ok (getNotYetLoadedTransitiveDepIds_
                     (moduleInfoMap_ (manager w)) fuel requestedId)) queue →
  filterDependents fuel queue failed w =
  Ok (filter (λ requestedId,
                resolvesTo (moduleInfoMap_ (manager w)) fuel failed
                  requestedId) queue, w).
Proof.
  induction 1 as [|requestedId queue [ids Hids] _ IH]; simpl; [done|].
  erewrite bind_Ok by (by apply resolve_run).
  erewrite bind_Ok by apply IH. unfold ret.
  rewrite filter_cons.
  set (rest := filter _ queue). clearbody rest.
  unfold resolvesTo, resolvedIds. rewrite Hids.
  destruct failed as [failed|]; simpl;
    [destruct (goog_array.contains ids failed)|]; done.
Qed.

Lemma cancel_loop_run ids w :
  forEach ids (λ idToCancel,
    modify (λ mm, set_requestedModuleIdsQueue_
                    (goog_array.remove (requestedModuleIdsQueue_ mm)
                       idToCancel) mm) ;;
    modify (λ mm, set_userInitiatedLoadingModuleIds_
                    (goog_array.remove (userInitiatedLoadingModuleIds_ mm)
                       idToCancel) mm)) w =
  Ok (tt, setManager (cancelAll ids (manager w)) w).
Proof.
  revert w. induction ids as [|idToCancel ids IH]; intros w; simpl.
  - by rewrite setManager_same.
  - rewrite bind_assoc, bind_modify, bind_modify, IH. done.
Qed.

Lemma error_loop_run (callbacks : list nat) ids cause w :
  forEach callbacks (λ callback,
    forEach ids (λ idToCancel,
      emit (NotifyError callback idToCancel cause))) w =
  Ok (tt, addCalls
            (callbacks ≫= λ callback,
               (λ idToCancel, NotifyError callback idToCancel cause) <$> ids)
            w).
Proof.
  revert w. induction callbacks as [|callback callbacks IH]; intros w; simpl.
  - by rewrite addCalls_nil.
  - erewrite bind_Ok by apply forEach_emit. rewrite IH.
    by rewrite addCalls_addCalls.
Qed.

Lemma cancelAll_moduleInfoMap_ ids mm :
  moduleInfoMap_ (cancelAll ids mm) = moduleInfoMap_ mm.
Proof.
  unfold cancelAll. revert mm. induction ids as [|c ids IH]; intros mm;
    simpl; [done|]. by rewrite IH.
Qed.

Lemma cancelAll_callbackMap_ ids mm :
  callbackMap_ (cancelAll ids mm) = callbackMap_ mm.
Proof.
  unfold cancelAll. revert mm. induction ids as [|c ids IH]; intros mm;
    simpl; [done|]. by rewrite IH.
Qed.

Lemma dispatchModuleLoadFailed_run fuel cause w :
  queueResolves (manager w) fuel →
  dispatchModuleLoadFailed_ fuel cause w = Ok (tt, failureWorld w fuel cause).
Proof.
  intros Hqueue. unfold dispatchModuleLoadFailed_.
  rewrite bind_gets, bind_modify, bind_gets.
  erewrite bind_Ok by (apply filterDependents_run; exact Hqueue).
  erewrite bind_Ok by apply cancel_loop_run.
  rewrite bind_gets.
  cbn [manager setManager requestedModuleIdsQueue_ set_loadingModuleIds_
       moduleInfoMap_].
  fold (failedId (manager w)). fold (dependents (manager w) fuel).
  fold (idsToCancel (manager w) fuel).
  rewrite cancelAll_callbackMap_.
  cbn [callbackMap_ set_loadingModuleIds_].
  set (w1 := setManager _ (setManager _ w)).
  assert (∀ k : unit → M unit,
    bind (match callbackMap_ (manager w) !! callbackTypeName ERROR with
          | Some errorCallbacks =>
              forEach errorCallbacks (λ callback,
                forEach (idsToCancel (manager w) fuel) (λ idToCancel,
                  emit (NotifyError callback idToCancel cause)))
          | None => ret ()
          end) k w1 =
    k tt (addCalls
            (errorNotifications (manager w) (idsToCancel (manager w) fuel)
               cause) w1)) as Herr.
  { intros k. unfold errorNotifications, registered.
    destruct (callbackMap_ (manager w) !! callbackTypeName ERROR) as [fns|];
      cbn [default].
    - by erewrite bind_Ok by apply error_loop_run.
    - by rewrite bind_ret, addCalls_nil. }
  rewrite Herr. clear Herr.
  unfold getModuleInfo. rewrite bind_gets.
  subst w1. cbn [manager setManager addCalls].
  rewrite cancelAll_moduleInfoMap_.
  cbn [moduleInfoMap_ set_loadingModuleIds_].
  unfold failureWorld, failureCalls, afterFailure, afterOnError, errbacksOf.
  rewrite cancelAll_moduleInfoMap_.
  cbn [moduleInfoMap_ set_loadingModuleIds_].
  destruct (moduleInfoMap_ (manager w) !! propertyKey (failedId (manager w)))
    as [info|] eqn:Hinfo.
  - unfold onError, putModuleInfo.
    rewrite bind_assoc, bind_modify.
    erewrite bind_Ok by apply callCallbacks_run.
    rewrite dispatchActiveIdleChangeIfNeeded_run.
    unfold addCalls, setManager.
    cbn [manager deferreds timeouts calls].
    rewrite cancelAll_moduleInfoMap_.
    cbn [moduleInfoMap_ set_loadingModuleIds_].
    by rewrite <- !app_assoc.
  - rewrite bind_ret, dispatchActiveIdleChangeIfNeeded_run.
    unfold addCalls, setManager, fireAll, callEvents.
    cbn [manager deferreds timeouts calls foldl mbind list_bind].
    by rewrite <- !app_assoc.
Qed.


(** ** More on the resolver *)

Lemma resolved_elem_of m fuel id l x :
  getNotYetLoadedTransitiveDepIds_ m fuel id = Ok l →
  x ∈ l ↔ x = id ∨ tc (awaits m) id x.
Proof.
  unfold getNotYetLoadedTransitiveDepIds_, collectedDepIds.
  destruct (m !! id) as [info|] eqn:Hid; [|done].
  destruct (depIdsLoop m fuel _ _) as [ids| |] eqn:Hrun; [|done..].
  intros [= <-]. rewrite elem_of_removeDuplicates.
  pose proof (collected_sound_exit m id info fuel ids Hid Hrun)
    as [(pre & -> & Hpre) _].
  pose proof (collected_order_exit m id info fuel _ Hid Hrun) as Hord.
  split.
  - intros [Hx|Hx%list_elem_of_singleton]%elem_of_app; auto.
  - intros [->|Hx]; [set_solver|].
    eapply collected_order_closed; [done| |done]. set_solver.
Qed.

Lemma resolved_self m fuel id l :
  getNotYetLoadedTransitiveDepIds_ m fuel id = Ok l → id ∈ l.
Proof. intros Hres. apply (resolved_elem_of _ _ _ _ _ Hres). by left. Qed.

Lemma depIdsLoop_sameGraph m m' fuel ids depIds :
  sameGraph m m' → depIdsLoop m fuel ids depIds = depIdsLoop m' fuel ids depIds.
Proof.
  intros Hsame. revert ids depIds.
  induction fuel as [|fuel IH]; intros ids depIds; simpl; [done|].
  destruct (goog_array.pop depIds) as [[x rest]|]; [|done].
  specialize (Hsame x).
  destruct (m !! x) as [info|], (m' !! x) as [info'|]; simpl in Hsame;
    try done.
  injection Hsame as -> ->. by rewrite !IH.
Qed.

Lemma resolver_sameGraph m m' fuel id :
  sameGraph m m' →
  getNotYetLoadedTransitiveDepIds_ m fuel id =
  getNotYetLoadedTransitiveDepIds_ m' fuel id.
Proof.
  intros Hsame. unfold getNotYetLoadedTransitiveDepIds_, collectedDepIds.
  pose proof (Hsame id) as Hid.
  destruct (m !! id) as [info|], (m' !! id) as [info'|]; simpl in Hid;
    try done.
  injection Hid as -> _. by rewrite (depIdsLoop_sameGraph m m').
Qed.

Lemma sameGraph_clearPending m key info :
  m !! key = Some info → sameGraph m (<[key := clearPending info]> m).
Proof.
  intros Hkey x. destruct (decide (key = x)) as [<-|Hne].
  - by rewrite lookup_insert_eq, Hkey.
  - by rewrite lookup_insert_ne.
Qed.

(** Past some amount of fuel the resolver returns a list for every
    registered id. *)
Lemma resolver_Ok_uniform m :
  acyclic m → closed m →
  ∃ n, ∀ fuel id, n ≤ fuel → is_Some (m !! id) →
    is_Ok (getNotYetLoadedTransitiveDepIds_ m fuel id).
Proof.
  intros Hacyc Hclosed.
  destruct (collectedDepIds_fuel_uniform m Hacyc) as [n Hn].
  exists n. intros fuel id Hle Hid. specialize (Hn fuel id Hle).
  unfold getNotYetLoadedTransitiveDepIds_.
  destruct (collectedDepIds m fuel id) as [ids|e|] eqn:Hrun.
  - by eexists.
  - by apply collectedDepIds_no_throw in Hrun.
  - done.
Qed.

(** ** Cancelling *)

Lemma remove_not_elem_of l x : x ∉ l → goog_array.remove l x = l.
Proof.
  induction l as [|y l IH]; simpl; [done|]. intros Hx.
  destruct (decide (y = x)) as [->|]; [set_solver|].
  f_equal. apply IH. set_solver.
Qed.

Lemma foldl_remove_cons x l ds :
  x ∉ ds →
  foldl goog_array.remove (x :: l) ds = x :: foldl goog_array.remove l ds.
Proof.
  revert l. induction ds as [|d ds IH]; intros l Hx; simpl; [done|].
  destruct (decide (x = d)) as [->|]; [set_solver|].
  apply IH. set_solver.
Qed.

(** Removing, one by one, the entries that pass a test leaves those that
    fail it. *)
Lemma foldl_remove_filter (P : string → bool) l :
  foldl goog_array.remove l (filter (λ x, P x) l) =
  filter (λ x, ¬ P x) l.
Proof.
  induction l as [|x l IH]; simpl; [done|].
  rewrite !filter_cons. destruct (P x) eqn:HP; simpl.
  - destruct (decide (x = x)); [|done].
    destruct (decide (¬ true)) as [Hn|_]; [exfalso; by apply Hn|]. done.
  - destruct (decide (¬ false)) as [_|Hn]; [|exfalso; apply Hn; by intros []].
    rewrite foldl_remove_cons; [by rewrite IH|].
    intros [Hx _]%list_elem_of_filter. by rewrite HP in Hx.
Qed.

Lemma cancelAll_queue ids mm :
  requestedModuleIdsQueue_ (cancelAll ids mm) =
  foldl goog_array.remove (requestedModuleIdsQueue_ mm) ids.
Proof.
  unfold cancelAll. revert mm. induction ids as [|c ids IH]; intros mm;
    simpl; [done|]. by rewrite IH.
Qed.

Lemma cancelAll_loading ids mm :
  loadingModuleIds_ (cancelAll ids mm) = loadingModuleIds_ mm.
Proof.
  unfold cancelAll. revert mm. induction ids as [|c ids IH]; intros mm;
    simpl; [done|]. by rewrite IH.
Qed.

Lemma cancelAll_batchModeEnabled_ ids mm :
  batchModeEnabled_ (cancelAll ids mm) = batchModeEnabled_ mm.
Proof.
  unfold cancelAll. revert mm. induction ids as [|c ids IH]; intros mm;
    simpl; [done|]. by rewrite IH.
Qed.

Lemma cancelAll_consecutiveFailures_ ids mm :
  consecutiveFailures_ (cancelAll ids mm) = consecutiveFailures_ mm.
Proof.
  unfold cancelAll. revert mm. induction ids as [|c ids IH]; intros mm;
    simpl; [done|]. by rewrite IH.
Qed.

Lemma foldl_remove_app l ds ds' :
  foldl goog_array.remove l (ds ++ ds') =
  foldl goog_array.remove (foldl goog_array.remove l ds) ds'.
Proof. apply foldl_app. Qed.

(** ** What a failure leaves behind *)

Lemma failedId_snoc mm others failed :
  loadingModuleIds_ mm = others ++ [failed] → failedId mm = Some failed.
Proof. intros Hl. unfold failedId. by rewrite Hl, pop_snoc. Qed.

Lemma resolvesTo_true m fuel failed id l :
  getNotYetLoadedTransitiveDepIds_ m fuel id = Ok l →
  resolvesTo m fuel (Some failed) id ↔ failed ∈ l.
Proof.
  intros Hres. unfold resolvesTo, resolvedIds, goog_array.contains.
  rewrite Hres. apply bool_decide_spec.
Qed.

Lemma elem_of_dependents mm fuel id :
  id ∈ dependents mm fuel ↔
  id ∈ requestedModuleIdsQueue_ mm ∧
  resolvesTo (moduleInfoMap_ mm) fuel (failedId mm) id.
Proof. unfold dependents. rewrite list_elem_of_filter. tauto. Qed.

Lemma afterOnError_queue key mm :
  requestedModuleIdsQueue_ (afterOnError key mm) = requestedModuleIdsQueue_ mm.
Proof. unfold afterOnError. by destruct (moduleInfoMap_ mm !! key). Qed.

Lemma afterOnError_loading key mm :
  loadingModuleIds_ (afterOnError key mm) = loadingModuleIds_ mm.
Proof. unfold afterOnError. by destruct (moduleInfoMap_ mm !! key). Qed.

Lemma afterOnError_batchModeEnabled_ key mm :
  batchModeEnabled_ (afterOnError key mm) = batchModeEnabled_ mm.
Proof. unfold afterOnError. by destruct (moduleInfoMap_ mm !! key). Qed.

Lemma afterOnError_consecutiveFailures_ key mm :
  consecutiveFailures_ (afterOnError key mm) = consecutiveFailures_ mm.
Proof. unfold afterOnError. by destruct (moduleInfoMap_ mm !! key). Qed.

Lemma afterOnError_sameGraph key mm :
  sameGraph (moduleInfoMap_ mm) (moduleInfoMap_ (afterOnError key mm)).
Proof.
  unfold afterOnError.
  destruct (moduleInfoMap_ mm !! key) as [info|] eqn:Hkey; [|done].
  by apply sameGraph_clearPending.
Qed.

Lemma afterFailure_loading mm fuel :
  loadingModuleIds_ (afterFailure mm fuel) = [].
Proof.
  unfold afterFailure. by rewrite afterOnError_loading, cancelAll_loading.
Qed.

Lemma afterFailure_batchModeEnabled_ mm fuel :
  batchModeEnabled_ (afterFailure mm fuel) = batchModeEnabled_ mm.
Proof.
  unfold afterFailure.
  by rewrite afterOnError_batchModeEnabled_, cancelAll_batchModeEnabled_.
Qed.

Lemma afterFailure_consecutiveFailures_ mm fuel :
  consecutiveFailures_ (afterFailure mm fuel) = consecutiveFailures_ mm.
Proof.
  unfold afterFailure.
  by rewrite afterOnError_consecutiveFailures_,
    cancelAll_consecutiveFailures_.
Qed.

Lemma afterFailure_sameGraph mm fuel :
  sameGraph (moduleInfoMap_ mm) (moduleInfoMap_ (afterFailure mm fuel)).
Proof.
  unfold afterFailure. intros x.
  rewrite <- (afterOnError_sameGraph _ _ x).
  by rewrite cancelAll_moduleInfoMap_.
Qed.

(** The queue keeps the ids whose resolved list does not hold the failed
    id, and only those. *)
Lemma afterFailure_queue mm fuel :
  queueResolves mm fuel →
  requestedModuleIdsQueue_ (afterFailure mm fuel) =
  filter (λ id, ¬ resolvesTo (moduleInfoMap_ mm) fuel (failedId mm) id)
    (requestedModuleIdsQueue_ mm).
Proof.
  intros Hqueue. unfold afterFailure.
  rewrite afterOnError_queue, cancelAll_queue. simpl.
  unfold idsToCancel, goog_array.insert, goog_array.contains.
  pose proof (foldl_remove_filter
    (resolvesTo (moduleInfoMap_ mm) fuel (failedId mm))
    (requestedModuleIdsQueue_ mm)) as Hfilter.
  fold (dependents mm fuel) in Hfilter.
  destruct (truthy (failedId mm)) eqn:Htruthy; [|done].
  destruct (bool_decide _) eqn:Hin; [done|].
  apply bool_decide_eq_false in Hin.
  rewrite foldl_remove_app, Hfilter. simpl.
  apply remove_not_elem_of.
  destruct (failedId mm) as [failed|] eqn:Hfailed; [|done]. simpl in *.
  intros [Hnot Hq]%list_elem_of_filter.
  apply Hnot. unfold queueResolves in Hqueue.
  rewrite Forall_forall in Hqueue. destruct (Hqueue _ Hq) as [l Hl].
  apply (resolvesTo_true _ _ _ _ _ Hl). by eapply resolved_self.
Qed.

Lemma elem_of_idsToCancel mm fuel others failed id :
  loadingModuleIds_ mm = others ++ [failed] → failed ≠ EmptyString →
  id ∈ idsToCancel mm fuel ↔ id = failed ∨ id ∈ dependents mm fuel.
Proof.
  intros Hfailed%failedId_snoc Hne. unfold idsToCancel. rewrite Hfailed.
  unfold truthy. rewrite bool_decide_eq_false_2 by done. simpl.
  unfold goog_array.insert, goog_array.contains.
  destruct (bool_decide _) eqn:Hin.
  - apply bool_decide_eq_true in Hin. split; [by right|].
    by intros [->|?].
  - rewrite elem_of_app, list_elem_of_singleton. tauto.
Qed.

Lemma elem_of_errorNotifications mm ids cause fn id cause' :
  NotifyError fn id cause' ∈ errorNotifications mm ids cause ↔
  fn ∈ registered mm ERROR ∧ id ∈ ids ∧ cause' = cause.
Proof.
  unfold errorNotifications. rewrite list_elem_of_bind. split.
  - intros (fn' & (id' & [= -> -> ->] & Hid)%list_elem_of_fmap & Hfn). done.
  - intros (Hfn & Hid & ->). exists fn. split; [|done].
    apply list_elem_of_fmap. by exists id.
Qed.

Lemma not_LoadModules_errorNotifications mm ids cause l :
  LoadModules l ∉ errorNotifications mm ids cause.
Proof.
  unfold errorNotifications. rewrite list_elem_of_bind.
  by intros (fn & (id & ? & _)%list_elem_of_fmap & _).
Qed.

Lemma elem_of_callEvents callbacks arg e :
  e ∈ callEvents callbacks arg → ∃ f handler, e = Call f handler arg.
Proof.
  unfold callEvents. rewrite list_elem_of_bind.
  intros ([d|d|f h] & He & _); [by apply elem_of_nil in He..|].
  apply list_elem_of_singleton in He. eauto.
Qed.

Lemma elem_of_notifications mm type e :
  e ∈ notifications mm type → ∃ fn, e = Notify fn type.
Proof. unfold notifications. intros (fn & -> & _)%list_elem_of_fmap. eauto. Qed.

Lemma elem_of_activeChange mm e :
  e ∈ activeChange mm → ∃ fn type, e = Notify fn type.
Proof.
  unfold activeChange. destruct (negb _); [|by intros ?%elem_of_nil].
  intros [fn ->]%elem_of_notifications. eauto.
Qed.

Lemma elem_of_userActiveChange mm e :
  e ∈ userActiveChange mm → ∃ fn type, e = Notify fn type.
Proof.
  unfold userActiveChange. destruct (negb _); [|by intros ?%elem_of_nil].
  intros [fn ->]%elem_of_notifications. eauto.
Qed.

Lemma not_LoadModules_failureCalls mm fuel cause l :
  LoadModules l ∉ failureCalls mm fuel cause.
Proof.
  unfold failureCalls. rewrite !elem_of_app.
  intros [H|[H|[H|H]]].
  - by eapply not_LoadModules_errorNotifications.
  - by apply elem_of_callEvents in H as (? & ? & ?).
  - by apply elem_of_activeChange in H as (? & ? & ?).
  - by apply elem_of_userActiveChange in H as (? & ? & ?).
Qed.

Lemma NotifyError_failureCalls mm fuel cause fn id cause' :
  NotifyError fn id cause' ∈ failureCalls mm fuel cause ↔
  fn ∈ registered mm ERROR ∧ id ∈ idsToCancel mm fuel ∧ cause' = cause.
Proof.
  unfold failureCalls. rewrite !elem_of_app, elem_of_errorNotifications.
  split; [|tauto]. intros [H|[H|[H|H]]]; [done|..].
  - by apply elem_of_callEvents in H as (? & ? & ?).
  - by apply elem_of_activeChange in H as (? & ? & ?).
  - by apply elem_of_userActiveChange in H as (? & ? & ?).
Qed.

(** With enough fuel the resolver returns a list for every queued id. *)
Lemma queueResolves_uniform mm :
  acyclic (moduleInfoMap_ mm) → closed (moduleInfoMap_ mm) →
  (∀ id, id ∈ requestedModuleIdsQueue_ mm →
         is_Some (moduleInfoMap_ mm !! id)) →
  ∃ n, ∀ fuel, n ≤ fuel →
    queueResolves mm fuel ∧
    ∀ id, is_Some (moduleInfoMap_ mm !! id) →
      is_Ok (getNotYetLoadedTransitiveDepIds_ (moduleInfoMap_ mm) fuel id).
Proof.
  intros Hacyc Hclosed Hreg.
  destruct (resolver_Ok_uniform _ Hacyc Hclosed) as [n Hn].
  exists n. intros fuel Hle. split; [|by auto].
  apply Forall_forall. intros id Hid. apply Hn; auto.
Qed.

(** ** The loader reports an error *)

(** The world once the failure counter has gone up. *)
Lemma handleLoadError__counted fuel status w :
  handleLoadError_ fuel status w =
  (if (status =? 401)%Z then
     dispatchModuleLoadFailed_ fuel UNAUTHORIZED ;;
     modify (set_requestedModuleIdsQueue_ [])
   else if (status =? 410)%Z then
     dispatchModuleLoadFailed_ fuel OLD_CODE_GONE ;;
     loadNextModule_ fuel
   else
     let* consecutiveFailures := gets consecutiveFailures_ in
     if 3 <=? consecutiveFailures then
       dispatchModuleLoadFailed_ fuel CONSECUTIVE_FAILURES ;;
       loadNextModule_ fuel
     else
       let* loading := gets loadingModuleIds_ in
       let id := fst <$> goog_array.pop loading in
       modify (set_loadingModuleIds_ []) ;;
       loadModule_ fuel (propertyKey id) true)
    (setManager
       (set_consecutiveFailures_ (consecutiveFailures_ (manager w) + 1)
          (manager w)) w).
Proof. unfold handleLoadError_. by rewrite bind_modify. Qed.

(** C3, as amended: when the loader reports 401 for a load in flight, the
    manager calls the registered error callbacks with UNAUTHORIZED for the
    failed id (the last of the loading ids, taken not to be the empty
    string) and for the queued ids that await it through not-yet-loaded
    modules, and for no other id; it then empties both the loading ids
    and the queue and makes no request to the loader. *)
Theorem unauthorized_reports_dependents_and_empties_queue
    (w : World) (others : list string) (failed : string) :
  acyclic (moduleInfoMap_ (manager w)) →
  closed (moduleInfoMap_ (manager w)) →
  (∀ id, id ∈ requestedModuleIdsQueue_ (manager w) →
         is_Some (moduleInfoMap_ (manager w) !! id)) →
  loadingModuleIds_ (manager w) = others ++ [failed] →
  failed ≠ EmptyString →
  ∃ n, ∀ fuel, n ≤ fuel → ∃ w' events,
    handleLoadError_ fuel 401 w = Ok (tt, w') ∧
    requestedModuleIdsQueue_ (manager w') = [] ∧
    loadingModuleIds_ (manager w') = [] ∧
    calls w' = calls w ++ events ∧
    (∀ ids, LoadModules ids ∉ events) ∧
    (∀ fn id cause,
       NotifyError fn id cause ∈ events ↔
       fn ∈ registered (manager w) ERROR ∧ cause = UNAUTHORIZED ∧
       (id = failed ∨
        (id ∈ requestedModuleIdsQueue_ (manager w) ∧
         tc (awaits (moduleInfoMap_ (manager w))) id failed))).
Proof.
  intros Hacyc Hclosed Hreg Hloading Hne.
  destruct (queueResolves_uniform _ Hacyc Hclosed Hreg) as [n Hn].
  exists n. intros fuel Hle. destruct (Hn fuel Hle) as [Hqueue Hres].
  set (w0 := setManager
               (set_consecutiveFailures_
                  (consecutiveFailures_ (manager w) + 1) (manager w)) w).
  exists (setManager (set_requestedModuleIdsQueue_ []
                        (manager (failureWorld w0 fuel UNAUTHORIZED)))
            (failureWorld w0 fuel UNAUTHORIZED)),
    (failureCalls (manager w0) fuel UNAUTHORIZED).
  split_and!.
  - rewrite handleLoadError__counted. fold w0. simpl.
    by erewrite bind_Ok by (by apply dispatchModuleLoadFailed_run).
  - done.
  - simpl. apply afterFailure_loading.
  - done.
  - intros ids. apply not_LoadModules_failureCalls.
  - intros fn id cause. rewrite NotifyError_failureCalls.
    rewrite (elem_of_idsToCancel _ _ others failed) by done.
    rewrite elem_of_dependents.
    change (failedId (manager w0)) with (failedId (manager w)).
    rewrite (failedId_snoc _ _ _ Hloading). simpl.
    change (registered (manager w0) ERROR)
      with (registered (manager w) ERROR).
    split.
    + intros (Hfn & [->|[Hq Hdep]] & ->); split_and!; auto.
      destruct (Hres id (Hreg id Hq)) as [l Hl].
      apply (resolvesTo_true _ _ _ _ _ Hl) in Hdep.
      apply (resolved_elem_of _ _ _ _ _ Hl) in Hdep as [->|?]; auto.
    + intros (Hfn & -> & [->|[Hq Hdep]]); split_and!; auto.
      right. split; [done|].
      destruct (Hres id (Hreg id Hq)) as [l Hl].
      apply (resolvesTo_true _ _ _ _ _ Hl).
      apply (resolved_elem_of _ _ _ _ _ Hl). by right.
Qed.

Lemma worldLoadingAForB_acyclic :
  acyclic (moduleInfoMap_ (manager worldLoadingAForB)).
Proof.
  apply (topological_acyclic ["A"; "B"; "C"]).
  apply (bool_decide_unpack _). by vm_compute.
Qed.

Lemma worldLoadingAForB_closed :
  closed (moduleInfoMap_ (manager worldLoadingAForB)).
Proof.
  apply allRegistered_closed. apply (bool_decide_unpack _). by vm_compute.
Qed.

Lemma worldLoadingAForB_queue_registered :
  ∀ id, id ∈ requestedModuleIdsQueue_ (manager worldLoadingAForB) →
        is_Some (moduleInfoMap_ (manager worldLoadingAForB) !! id).
Proof.
  intros id Hid.
  assert (requestedModuleIdsQueue_ (manager worldLoadingAForB) = ["B"])
    as Hq by (vm_compute; reflexivity).
  rewrite Hq in Hid. apply list_elem_of_singleton in Hid as ->.
  apply (bool_decide_unpack _). by vm_compute.
Qed.

Lemma worldLoadingAForB_loading :
  loadingModuleIds_ (manager worldLoadingAForB) = [] ++ ["A"].
Proof. vm_compute. reflexivity. Qed.

Lemma unauthorized_reports_dependents_and_empties_queue_witness :
  acyclic (moduleInfoMap_ (manager worldLoadingAForB)) ∧
  closed (moduleInfoMap_ (manager worldLoadingAForB)) ∧
  (∀ id, id ∈ requestedModuleIdsQueue_ (manager worldLoadingAForB) →
         is_Some (moduleInfoMap_ (manager worldLoadingAForB) !! id)) ∧
  loadingModuleIds_ (manager worldLoadingAForB) = [] ++ ["A"] ∧
  "A" ≠ EmptyString ∧
  ∃ n, ∀ fuel, n ≤ fuel → ∃ w' events,
    handleLoadError_ fuel 401 worldLoadingAForB = Ok (tt, w') ∧
    requestedModuleIdsQueue_ (manager w') = [] ∧
    loadingModuleIds_ (manager w') = [] ∧
    calls w' = calls worldLoadingAForB ++ events ∧
    (∀ ids, LoadModules ids ∉ events) ∧
    (∀ fn id cause,
       NotifyError fn id cause ∈ events ↔
       fn ∈ registered (manager worldLoadingAForB) ERROR ∧
       cause = UNAUTHORIZED ∧
       (id = "A" ∨
        (id ∈ requestedModuleIdsQueue_ (manager worldLoadingAForB) ∧
         tc (awaits (moduleInfoMap_ (manager worldLoadingAForB))) id "A"))).
Proof.
  assert ("A" ≠ EmptyString) as Hne by discriminate.
  split; [exact worldLoadingAForB_acyclic|].
  split; [exact worldLoadingAForB_closed|].
  split; [exact worldLoadingAForB_queue_registered|].
  split; [exact worldLoadingAForB_loading|].
  split; [exact Hne|].
  exact (unauthorized_reports_dependents_and_empties_queue
           worldLoadingAForB [] "A" worldLoadingAForB_acyclic
           worldLoadingAForB_closed worldLoadingAForB_queue_registered
           worldLoadingAForB_loading Hne).
Defined.

(** ** Turning to the next queued module *)

Lemma loadModule__unregistered fuel id opt_isRetry w :
  moduleInfoMap_ (manager w) !! id = None →
  loadModule_ fuel id opt_isRetry w = Throw TypeError.
Proof.
  intros Hid. unfold loadModule_, getModuleInfo. by rewrite bind_gets, Hid.
Qed.

Lemma loadNextModule_from_run fuel queue w :
  loadNextModule_from fuel queue w =
  match nextToLoad (moduleInfoMap_ (manager w)) queue with
  | None =>
      match queue with
      | [] => dispatchActiveIdleChangeIfNeeded_ w
      | _ :: _ =>
          dispatchActiveIdleChangeIfNeeded_
            (setManager (set_requestedModuleIdsQueue_ [] (manager w)) w)
      end
  | Some (nextId, rest) =>
      loadModule_ fuel nextId false
        (setManager (set_requestedModuleIdsQueue_ rest (manager w)) w)
  end.
Proof.
  revert w. induction queue as [|nextId queue IH]; intros w; [done|].
  cbn [loadNextModule_from nextToLoad].
  rewrite bind_modify. unfold getModuleInfo. rewrite bind_gets.
  cbn [manager setManager moduleInfoMap_ set_requestedModuleIdsQueue_].
  destruct (moduleInfoMap_ (manager w) !! nextId) as [info|] eqn:Hnext.
  - destruct (isLoaded info); [|done].
    rewrite IH.
    cbn [manager setManager moduleInfoMap_ set_requestedModuleIdsQueue_].
    destruct (nextToLoad (moduleInfoMap_ (manager w)) queue)
      as [[n rest]|]; [done|].
    destruct queue; [|done].
    done.
  - by rewrite loadModule__unregistered.
Qed.

Lemma nextToLoad_Some m queue nextId rest :
  nextToLoad m queue = Some (nextId, rest) →
  (∃ skipped, queue = skipped ++ nextId :: rest) ∧
  (∀ info, m !! nextId = Some info → isLoaded info = false).
Proof.
  revert nextId rest. induction queue as [|x queue IH]; intros nextId rest;
    simpl; [done|].
  destruct (m !! x) as [info|] eqn:Hx.
  - destruct (isLoaded info) eqn:Hl.
    + intros [[skipped ->] Hn]%IH. split; [by exists (x :: skipped)|done].
    + intros [= <- <-]. split; [by exists []|]. congruence.
  - intros [= <- <-]. split; [by exists []|]. congruence.
Qed.

Lemma nextToLoad_sameGraph m m' queue :
  sameGraph m m' → nextToLoad m queue = nextToLoad m' queue.
Proof.
  intros Hsame. induction queue as [|x queue IH]; simpl; [done|].
  specialize (Hsame x).
  destruct (m !! x) as [info|], (m' !! x) as [info'|]; simpl in Hsame;
    try done.
  injection Hsame as _ ->. by rewrite IH.
Qed.

Lemma sameGraph_lookup m m' x info :
  sameGraph m m' → m !! x = Some info →
  ∃ info', m' !! x = Some info' ∧
           getDependencies info' = getDependencies info ∧
           isLoaded info' = isLoaded info.
Proof.
  intros Hsame Hx. specialize (Hsame x). rewrite Hx in Hsame.
  destruct (m' !! x) as [info'|]; simpl in Hsame; [|done].
  injection Hsame as -> ->. eauto.
Qed.

(** What loadModule_ returned, when it returned. *)
Lemma loadModule__inv fuel id opt_isRetry w w' :
  loadModule_ fuel id opt_isRetry w = Ok (tt, w') →
  ∃ info ids,
    moduleInfoMap_ (manager w) !! id = Some info ∧
    isLoaded info = false ∧
    getNotYetLoadedTransitiveDepIds_ (moduleInfoMap_ (manager w)) fuel id =
      Ok ids ∧
    w' = addCalls
           (activeChange (loadModuleUpdate ids opt_isRetry (manager w)) ++
            userActiveChange (loadModuleUpdate ids opt_isRetry (manager w)) ++
            [LoadModules (dispatchedIds (batchModeEnabled_ (manager w)) ids)])
           (setManager
              (syncFlags (loadModuleUpdate ids opt_isRetry (manager w))) w).
Proof.
  intros Hrun.
  destruct (moduleInfoMap_ (manager w) !! id) as [info|] eqn:Hid;
    [|by rewrite loadModule__unregistered in Hrun].
  destruct (isLoaded info) eqn:Hl.
  { unfold loadModule_, getModuleInfo in Hrun.
    by rewrite bind_gets, Hid, Hl in Hrun. }
  destruct (getNotYetLoadedTransitiveDepIds_ (moduleInfoMap_ (manager w))
              fuel id) as [ids|e|] eqn:Hres.
  - rewrite (loadModule_run _ _ _ _ info ids) in Hrun by done.
    injection Hrun as <-. by exists info, ids.
  - unfold loadModule_, getModuleInfo, resolve in Hrun.
    by rewrite bind_gets, Hid, Hl, bind_assoc, bind_gets, Hres in Hrun.
  - unfold loadModule_, getModuleInfo, resolve in Hrun.
    by rewrite bind_gets, Hid, Hl, bind_assoc, bind_gets, Hres in Hrun.
Qed.

Lemma dispatchedIds_subseteq batch ids x :
  x ∈ dispatchedIds batch ids → x ∈ ids.
Proof.
  unfold dispatchedIds. destruct (negb batch && _); [|done].
  apply subseteq_take.
Qed.

Lemma postponedIds_subseteq batch ids x :
  x ∈ postponedIds batch ids → x ∈ ids.
Proof.
  unfold postponedIds. destruct (negb batch && _);
    [|by intros ?%elem_of_nil].
  apply subseteq_drop.
Qed.

(** ** Transient failures *)

Lemma transient_status status :
  status ≠ 401%Z → status ≠ 410%Z →
  (status =? 401)%Z = false ∧ (status =? 410)%Z = false.
Proof. intros H1 H2. split; by apply Z.eqb_neq. Qed.

(** Below the threshold a transient failure retries the last of the
    loading ids with the retry flag, on the counter that has gone up. *)
Lemma handleLoadError__retry fuel status w :
  status ≠ 401%Z → status ≠ 410%Z →
  consecutiveFailures_ (manager w) + 1 < 3 →
  handleLoadError_ fuel status w =
  loadModule_ fuel (propertyKey (failedId (manager w))) true
    (setManager
       (set_loadingModuleIds_ []
          (set_consecutiveFailures_ (consecutiveFailures_ (manager w) + 1)
             (manager w))) w).
Proof.
  intros H1 H2 Hlt. destruct (transient_status status H1 H2) as [E1 E2].
  rewrite handleLoadError__counted, E1, E2, bind_gets.
  cbn [manager setManager consecutiveFailures_ set_consecutiveFailures_].
  destruct (3 <=? consecutiveFailures_ (manager w) + 1) eqn:Hle;
    [apply Nat.leb_le in Hle; lia|].
  by rewrite bind_gets, bind_modify.
Qed.

(** At the threshold it gives the load up and turns to the queue. *)
Lemma handleLoadError__give_up fuel status w :
  status ≠ 401%Z → status ≠ 410%Z →
  3 ≤ consecutiveFailures_ (manager w) + 1 →
  handleLoadError_ fuel status w =
  (dispatchModuleLoadFailed_ fuel CONSECUTIVE_FAILURES ;;
   loadNextModule_ fuel)
    (setManager
       (set_consecutiveFailures_ (consecutiveFailures_ (manager w) + 1)
          (manager w)) w).
Proof.
  intros H1 H2 Hle. destruct (transient_status status H1 H2) as [E1 E2].
  rewrite handleLoadError__counted, E1, E2, bind_gets.
  cbn [manager setManager consecutiveFailures_ set_consecutiveFailures_].
  by rewrite (proj2 (Nat.leb_le _ _) Hle).
Qed.

Lemma handleLoadError__retry_counter fuel status w w' :
  status ≠ 401%Z → status ≠ 410%Z →
  consecutiveFailures_ (manager w) + 1 < 3 →
  handleLoadError_ fuel status w = Ok (tt, w') →
  consecutiveFailures_ (manager w') = consecutiveFailures_ (manager w) + 1.
Proof.
  intros H1 H2 Hlt. rewrite handleLoadError__retry by done.
  intros (info & ids & _ & _ & _ & ->)%loadModule__inv. done.
Qed.

Lemma retry_below_threshold fuel status w others failed info ids :
  status ≠ 401%Z → status ≠ 410%Z →
  consecutiveFailures_ (manager w) + 1 < 3 →
  loadingModuleIds_ (manager w) = others ++ [failed] →
  moduleInfoMap_ (manager w) !! failed = Some info →
  isLoaded info = false →
  getNotYetLoadedTransitiveDepIds_ (moduleInfoMap_ (manager w)) fuel failed =
    Ok ids →
  ∃ w' events,
    handleLoadError_ fuel status w = Ok (tt, w') ∧
    consecutiveFailures_ (manager w') =
      consecutiveFailures_ (manager w) + 1 ∧
    calls w' =
      calls w ++ events ++
      [LoadModules (dispatchedIds (batchModeEnabled_ (manager w)) ids)] ∧
    (∀ e, e ∈ events → ∃ fn type, e = Notify fn type) ∧
    loadingModuleIds_ (manager w') =
      dispatchedIds (batchModeEnabled_ (manager w)) ids ∧
    requestedModuleIdsQueue_ (manager w') =
      postponedIds (batchModeEnabled_ (manager w)) ids ++
      requestedModuleIdsQueue_ (manager w).
Proof.
  intros H1 H2 Hlt Hloading Hinfo Hloaded Hres.
  rewrite handleLoadError__retry by done.
  rewrite (failedId_snoc _ _ _ Hloading). cbn [propertyKey].
  set (w1 := setManager _ w).
  pose (mm' := loadModuleUpdate ids true (manager w1)).
  exists (addCalls
            (activeChange mm' ++ userActiveChange mm' ++
             [LoadModules (dispatchedIds (batchModeEnabled_ (manager w1)) ids)])
            (setManager (syncFlags mm') w1)),
    (activeChange mm' ++ userActiveChange mm').
  split_and!.
  - by apply (loadModule_run _ _ _ _ info ids).
  - done.
  - simpl. by rewrite <- !app_assoc.
  - intros e [He|He]%elem_of_app.
    + by apply elem_of_activeChange in He.
    + by apply elem_of_userActiveChange in He.
  - done.
  - done.
Qed.

Lemma give_up_at_threshold fuel status w others failed :
  status ≠ 401%Z → status ≠ 410%Z →
  3 ≤ consecutiveFailures_ (manager w) + 1 →
  loadingModuleIds_ (manager w) = others ++ [failed] →
  failed ≠ EmptyString →
  (∀ id, id ∈ requestedModuleIdsQueue_ (manager w) →
         is_Some (moduleInfoMap_ (manager w) !! id)) →
  queueResolves (manager w) fuel →
  ∃ w' events (cancelled : string → bool),
    handleLoadError_ fuel status w = Ok (tt, w') ∧
    calls w' = calls w ++ events ∧
    (∀ fn, fn ∈ registered (manager w) ERROR →
           NotifyError fn failed CONSECUTIVE_FAILURES ∈ events) ∧
    (∀ ids, LoadModules ids ∈ events → failed ∉ ids) ∧
    (failed ∉ loadingModuleIds_ (manager w')) ∧
    (failed ∉ requestedModuleIdsQueue_ (manager w')) ∧
    (∀ id, id ∈ requestedModuleIdsQueue_ (manager w) →
       (cancelled id ↔
        id = failed ∨ tc (awaits (moduleInfoMap_ (manager w))) id failed)) ∧
    match nextToLoad (moduleInfoMap_ (manager w))
            (filter (λ id, ¬ cancelled id)
               (requestedModuleIdsQueue_ (manager w))) with
    | None =>
        loadingModuleIds_ (manager w') = [] ∧
        requestedModuleIdsQueue_ (manager w') = [] ∧
        ∀ ids, LoadModules ids ∉ events
    | Some (nextId, rest) =>
        ∃ ids,
          getNotYetLoadedTransitiveDepIds_ (moduleInfoMap_ (manager w)) fuel
            nextId = Ok ids ∧
          loadingModuleIds_ (manager w') =
            dispatchedIds (batchModeEnabled_ (manager w)) ids ∧
          requestedModuleIdsQueue_ (manager w') =
            postponedIds (batchModeEnabled_ (manager w)) ids ++ rest ∧
          ∀ ids', LoadModules ids' ∈ events ↔
                  ids' = dispatchedIds (batchModeEnabled_ (manager w)) ids
    end.
Proof.
  intros H1 H2 Hle Hloading Hne Hreg Hqueue.
  rewrite handleLoadError__give_up by done.
  set (w0 := setManager _ w).
  assert (queueResolves (manager w0) fuel) as Hqueue0 by exact Hqueue.
  erewrite bind_Ok by (by apply dispatchModuleLoadFailed_run).
  set (wf := failureWorld w0 fuel CONSECUTIVE_FAILURES).
  set (m := moduleInfoMap_ (manager w)).
  set (cancelled := resolvesTo m fuel (Some failed)).
  set (remaining := filter (λ id, ¬ cancelled id)
                      (requestedModuleIdsQueue_ (manager w))).
  assert (failedId (manager w0) = Some failed) as Hfailed
    by by apply (failedId_snoc _ others).
  assert (requestedModuleIdsQueue_ (manager wf) = remaining) as Hqf.
  { change (requestedModuleIdsQueue_ (manager wf))
      with (requestedModuleIdsQueue_ (afterFailure (manager w0) fuel)).
    rewrite afterFailure_queue by done. by rewrite Hfailed. }
  assert (sameGraph m (moduleInfoMap_ (manager wf))) as Hsame.
  { apply (afterFailure_sameGraph (manager w0)). }
  assert (∀ id l, getNotYetLoadedTransitiveDepIds_ m fuel id = Ok l →
            (cancelled id ↔ failed ∈ l)) as Hcancelled.
  { intros id l Hl. by apply resolvesTo_true. }
  assert (∀ id, id ∈ requestedModuleIdsQueue_ (manager w) →
            ∃ l, getNotYetLoadedTransitiveDepIds_ m fuel id = Ok l) as Hres.
  { intros id Hid. unfold queueResolves in Hqueue.
    rewrite Forall_forall in Hqueue. by apply Hqueue. }
  assert (failed ∉ remaining) as Hfr.
  { intros [Hnot Hq]%list_elem_of_filter. apply Hnot.
    destruct (Hres _ Hq) as [l Hl]. apply (Hcancelled _ _ Hl).
    by eapply resolved_self. }
  assert (∀ fn, fn ∈ registered (manager w) ERROR →
            NotifyError fn failed CONSECUTIVE_FAILURES ∈
              failureCalls (manager w0) fuel CONSECUTIVE_FAILURES)
    as Hreported.
  { intros fn Hfn. apply NotifyError_failureCalls. split_and!; [done| |done].
    apply (elem_of_idsToCancel _ _ others failed); [done..|by left]. }
  assert (∀ id, id ∈ requestedModuleIdsQueue_ (manager w) →
            (cancelled id ↔ id = failed ∨ tc (awaits m) id failed))
    as Hspec.
  { intros id Hid. destruct (Hres _ Hid) as [l Hl].
    rewrite (Hcancelled _ _ Hl), (resolved_elem_of _ _ _ _ _ Hl).
    split; intros [?|?]; auto. }
  unfold loadNextModule_. rewrite bind_gets, loadNextModule_from_run.
  rewrite Hqf, <- (nextToLoad_sameGraph m _ remaining Hsame).
  destruct (nextToLoad m remaining) as [[nextId rest]|] eqn:Hnext.
  - pose proof (nextToLoad_Some _ _ _ _ Hnext)
      as [[skipped Hskipped] Hunloaded].
    assert (nextId ∈ remaining) as Hin by (rewrite Hskipped; set_solver).
    pose proof Hin as [Hnot Hq]%list_elem_of_filter.
    destruct (Hres _ Hq) as [ids Hids].
    destruct (Hreg _ Hq) as [info Hinfo].
    destruct (sameGraph_lookup _ _ _ _ Hsame Hinfo)
      as (info' & Hinfo' & _ & Hl').
    assert (failed ∉ ids) as Hfi.
    { intros Hfi. apply Hnot. by apply (Hcancelled _ _ Hids). }
    set (w2 := setManager _ wf).
    pose (mm' := loadModuleUpdate ids false (manager w2)).
    exists (addCalls
              (activeChange mm' ++ userActiveChange mm' ++
               [LoadModules
                  (dispatchedIds (batchModeEnabled_ (manager w2)) ids)])
              (setManager (syncFlags mm') w2)),
      (failureCalls (manager w0) fuel CONSECUTIVE_FAILURES ++
       activeChange mm' ++ userActiveChange mm' ++
       [LoadModules (dispatchedIds (batchModeEnabled_ (manager w2)) ids)]),
      cancelled.
    assert (batchModeEnabled_ (manager w2) = batchModeEnabled_ (manager w))
      as Hbatch.
    { apply (afterFailure_batchModeEnabled_ (manager w0)). }
    assert (∀ ids', LoadModules ids' ∈
              failureCalls (manager w0) fuel CONSECUTIVE_FAILURES ++
              activeChange mm' ++ userActiveChange mm' ++
              [LoadModules
                 (dispatchedIds (batchModeEnabled_ (manager w2)) ids)] ↔
            ids' = dispatchedIds (batchModeEnabled_ (manager w)) ids)
      as Hloads.
    { intros ids'. rewrite !elem_of_app, list_elem_of_singleton, Hbatch.
      split; [|by intros ->; auto].
      intros [H|[H|[H|[= ->]]]]; [| | |done].
      - by apply not_LoadModules_failureCalls in H.
      - by apply elem_of_activeChange in H as (? & ? & ?).
      - by apply elem_of_userActiveChange in H as (? & ? & ?). }
    split_and!.
    + apply (loadModule_run _ _ _ _ info' ids); [done| |].
      * rewrite Hl'. by apply Hunloaded.
      * change (moduleInfoMap_ (manager w2))
          with (moduleInfoMap_ (manager wf)).
        by rewrite <- (resolver_sameGraph m _ fuel nextId Hsame).
    + simpl. by rewrite <- !app_assoc.
    + intros fn Hfn. apply elem_of_app. left. by apply Hreported.
    + intros ids' ->%Hloads Hf.
      by apply dispatchedIds_subseteq in Hf.
    + simpl. intros Hf. by apply dispatchedIds_subseteq in Hf.
    + change (requestedModuleIdsQueue_ (manager (addCalls _ (setManager (syncFlags mm') w2))))
        with (postponedIds (batchModeEnabled_ (manager w2)) ids ++ rest).
      intros [Hf%postponedIds_subseteq|Hf]%elem_of_app; [done|].
      apply Hfr. rewrite Hskipped. set_solver.
    + done.
    + fold remaining. rewrite Hnext.
      exists ids. split_and!; [done| | |done].
      * by rewrite <- Hbatch.
      * by rewrite <- Hbatch.
  - assert (∀ wx,
      loadingModuleIds_ (manager wx) = [] →
      requestedModuleIdsQueue_ (manager wx) = [] →
      calls wx = calls w ++
                 failureCalls (manager w0) fuel CONSECUTIVE_FAILURES →
      ∃ w' events (cancelled : string → bool),
        dispatchActiveIdleChangeIfNeeded_ wx = Ok (tt, w') ∧
        calls w' = calls w ++ events ∧
        (∀ fn, fn ∈ registered (manager w) ERROR →
               NotifyError fn failed CONSECUTIVE_FAILURES ∈ events) ∧
        (∀ ids, LoadModules ids ∈ events → failed ∉ ids) ∧
        (failed ∉ loadingModuleIds_ (manager w')) ∧
        (failed ∉ requestedModuleIdsQueue_ (manager w')) ∧
        (∀ id, id ∈ requestedModuleIdsQueue_ (manager w) →
           (cancelled id ↔ id = failed ∨ tc (awaits m) id failed)) ∧
        match nextToLoad m
                (filter (λ id, ¬ cancelled id)
                   (requestedModuleIdsQueue_ (manager w))) with
        | None =>
            loadingModuleIds_ (manager w') = [] ∧
            requestedModuleIdsQueue_ (manager w') = [] ∧
            ∀ ids, LoadModules ids ∉ events
        | Some (nextId, rest) =>
            ∃ ids,
              getNotYetLoadedTransitiveDepIds_ m fuel nextId = Ok ids ∧
              loadingModuleIds_ (manager w') =
                dispatchedIds (batchModeEnabled_ (manager w)) ids ∧
              requestedModuleIdsQueue_ (manager w') =
                postponedIds (batchModeEnabled_ (manager w)) ids ++ rest ∧
              ∀ ids', LoadModules ids' ∈ events ↔
                      ids' = dispatchedIds (batchModeEnabled_ (manager w)) ids
        end) as Hidle.
    { intros wx Hlx Hqx Hcx.
      assert (∀ ids, LoadModules ids ∉
                failureCalls (manager w0) fuel CONSECUTIVE_FAILURES ++
                activeChange (manager wx) ++ userActiveChange (manager wx))
        as Hnone.
      { intros ids [H|[H|H]%elem_of_app]%elem_of_app.
        - by apply not_LoadModules_failureCalls in H.
        - by apply elem_of_activeChange in H as (? & ? & ?).
        - by apply elem_of_userActiveChange in H as (? & ? & ?). }
      exists (addCalls (activeChange (manager wx) ++
                        userActiveChange (manager wx))
                (setManager (syncFlags (manager wx)) wx)),
        (failureCalls (manager w0) fuel CONSECUTIVE_FAILURES ++
         activeChange (manager wx) ++ userActiveChange (manager wx)),
        cancelled.
      split_and!.
      - apply dispatchActiveIdleChangeIfNeeded_run.
      - simpl. by rewrite Hcx, <- !app_assoc.
      - intros fn Hfn. apply elem_of_app. left. by apply Hreported.
      - intros ids Hids. by apply Hnone in Hids.
      - simpl. rewrite Hlx. by intros ?%elem_of_nil.
      - simpl. rewrite Hqx. by intros ?%elem_of_nil.
      - done.
      - fold remaining. rewrite Hnext. by split_and!. }
    clear Hnext Hfr. clearbody remaining.
    destruct remaining.
    + apply Hidle; [|done..]. apply (afterFailure_loading (manager w0)).
    + apply Hidle; [|done..]. apply (afterFailure_loading (manager w0)).
Qed.

(** C6: a transient failure (a status other than 401 and 410) below the
    threshold retries the last of the loading ids through loadModule_ with
    the retry flag: the resolved list goes to the loader again and the
    counter, which has gone up by one, is not reset.  The one that brings
    the counter to three reports CONSECUTIVE_FAILURES to the error
    callbacks, empties the loading ids, and turns to the first queued id
    that is neither cancelled nor loaded; no request of this reaction
    holds the failed id, which is no longer loading nor queued.  Two
    transient failures on a counter at zero leave it at two, so that the
    third one takes the latter path. *)
Theorem three_transient_failures_abandon_the_load (status : Z) :
  status ≠ 401%Z → status ≠ 410%Z →
  (∀ w others failed,
     acyclic (moduleInfoMap_ (manager w)) →
     closed (moduleInfoMap_ (manager w)) →
     (∀ id, id ∈ requestedModuleIdsQueue_ (manager w) →
            is_Some (moduleInfoMap_ (manager w) !! id)) →
     loadingModuleIds_ (manager w) = others ++ [failed] →
     failed ≠ EmptyString →
     3 ≤ consecutiveFailures_ (manager w) + 1 →
     ∃ n, ∀ fuel, n ≤ fuel →
       ∃ w' events (cancelled : string → bool),
         handleLoadError_ fuel status w = Ok (tt, w') ∧
         calls w' = calls w ++ events ∧
         (∀ fn, fn ∈ registered (manager w) ERROR →
                NotifyError fn failed CONSECUTIVE_FAILURES ∈ events) ∧
         (∀ ids, LoadModules ids ∈ events → failed ∉ ids) ∧
         (failed ∉ loadingModuleIds_ (manager w')) ∧
         (failed ∉ requestedModuleIdsQueue_ (manager w')) ∧
         (∀ id, id ∈ requestedModuleIdsQueue_ (manager w) →
            (cancelled id ↔
             id = failed ∨
             tc (awaits (moduleInfoMap_ (manager w))) id failed)) ∧
         match nextToLoad (moduleInfoMap_ (manager w))
                 (filter (λ id, ¬ cancelled id)
                    (requestedModuleIdsQueue_ (manager w))) with
         | None =>
             loadingModuleIds_ (manager w') = [] ∧
             requestedModuleIdsQueue_ (manager w') = [] ∧
             ∀ ids, LoadModules ids ∉ events
         | Some (nextId, rest) =>
             ∃ ids,
               getNotYetLoadedTransitiveDepIds_ (moduleInfoMap_ (manager w))
                 fuel nextId = Ok ids ∧
               loadingModuleIds_ (manager w') =
                 dispatchedIds (batchModeEnabled_ (manager w)) ids ∧
               requestedModuleIdsQueue_ (manager w') =
                 postponedIds (batchModeEnabled_ (manager w)) ids ++ rest ∧
               ∀ ids', LoadModules ids' ∈ events ↔
                       ids' =
                         dispatchedIds (batchModeEnabled_ (manager w)) ids
         end) ∧
  (∀ w others failed,
     acyclic (moduleInfoMap_ (manager w)) →
     closed (moduleInfoMap_ (manager w)) →
     loadingModuleIds_ (manager w) = others ++ [failed] →
     notYetLoaded (moduleInfoMap_ (manager w)) failed →
     consecutiveFailures_ (manager w) + 1 < 3 →
     ∃ n, ∀ fuel, n ≤ fuel →
       ∃ ids w' events,
         getNotYetLoadedTransitiveDepIds_ (moduleInfoMap_ (manager w)) fuel
           failed = Ok ids ∧
         handleLoadError_ fuel status w = Ok (tt, w') ∧
         consecutiveFailures_ (manager w') =
           consecutiveFailures_ (manager w) + 1 ∧
         calls w' =
           calls w ++ events ++
           [LoadModules (dispatchedIds (batchModeEnabled_ (manager w)) ids)] ∧
         (∀ e, e ∈ events → ∃ fn type, e = Notify fn type) ∧
         loadingModuleIds_ (manager w') =
           dispatchedIds (batchModeEnabled_ (manager w)) ids ∧
         requestedModuleIdsQueue_ (manager w') =
           postponedIds (batchModeEnabled_ (manager w)) ids ++
           requestedModuleIdsQueue_ (manager w)) ∧
  (∀ fuel status' w w1 w2,
     status' ≠ 401%Z → status' ≠ 410%Z →
     consecutiveFailures_ (manager w) = 0 →
     handleLoadError_ fuel status w = Ok (tt, w1) →
     handleLoadError_ fuel status' w1 = Ok (tt, w2) →
     consecutiveFailures_ (manager w1) = 1 ∧
     consecutiveFailures_ (manager w2) = 2).
Proof.
  intros H1 H2. split_and!.
  - intros w others failed Hacyc Hclosed Hreg Hloading Hne Hle.
    destruct (queueResolves_uniform _ Hacyc Hclosed Hreg) as [n Hn].
    exists n. intros fuel Hfuel. destruct (Hn fuel Hfuel) as [Hqueue _].
    by apply (give_up_at_threshold _ _ _ others).
  - intros w others failed Hacyc Hclosed Hloading (info & Hinfo & Hl) Hlt.
    destruct (resolver_Ok_uniform _ Hacyc Hclosed) as [n Hn].
    exists n. intros fuel Hfuel.
    destruct (Hn fuel failed Hfuel) as [ids Hids]; [by eexists|].
    destruct (retry_below_threshold fuel status w others failed info ids)
      as (w' & events & Hrun); try done.
    by exists ids, w', events.
  - intros fuel status' w w1 w2 H1' H2' Hzero Hrun1 Hrun2.
    apply handleLoadError__retry_counter in Hrun1; [|done|done|lia].
    apply handleLoadError__retry_counter in Hrun2; [|done|done|lia].
    lia.
Qed.

Lemma worldAfterTwoFailures_acyclic :
  acyclic (moduleInfoMap_ (manager worldAfterTwoFailures)).
Proof.
  apply (topological_acyclic ["A"; "B"; "C"]).
  apply (bool_decide_unpack _). by vm_compute.
Qed.

Lemma worldAfterTwoFailures_closed :
  closed (moduleInfoMap_ (manager worldAfterTwoFailures)).
Proof.
  apply allRegistered_closed. apply (bool_decide_unpack _). by vm_compute.
Qed.

Lemma worldAfterTwoFailures_queue_registered :
  ∀ id, id ∈ requestedModuleIdsQueue_ (manager worldAfterTwoFailures) →
        is_Some (moduleInfoMap_ (manager worldAfterTwoFailures) !! id).
Proof.
  intros id Hid.
  assert (requestedModuleIdsQueue_ (manager worldAfterTwoFailures) = ["B"])
    as Hq by (vm_compute; reflexivity).
  rewrite Hq in Hid. apply list_elem_of_singleton in Hid as ->.
  apply (bool_decide_unpack _). by vm_compute.
Qed.

Lemma worldAfterTwoFailures_loading :
  loadingModuleIds_ (manager worldAfterTwoFailures) = [] ++ ["A"].
Proof. vm_compute. reflexivity. Qed.

Lemma worldAfterTwoFailures_counter :
  3 ≤ consecutiveFailures_ (manager worldAfterTwoFailures) + 1.
Proof. vm_compute. lia. Qed.

Lemma worldLoadingAForB_counter :
  consecutiveFailures_ (manager worldLoadingAForB) + 1 < 3.
Proof. vm_compute. lia. Qed.

Lemma worldLoadingAForB_notYetLoaded :
  notYetLoaded (moduleInfoMap_ (manager worldLoadingAForB)) "A".
Proof. eexists. split; [vm_compute; reflexivity|reflexivity]. Qed.

Lemma three_transient_failures_abandon_the_load_witness :
  500%Z ≠ 401%Z ∧ 500%Z ≠ 410%Z ∧
  (acyclic (moduleInfoMap_ (manager worldAfterTwoFailures)) ∧
   closed (moduleInfoMap_ (manager worldAfterTwoFailures)) ∧
   (∀ id, id ∈ requestedModuleIdsQueue_ (manager worldAfterTwoFailures) →
          is_Some (moduleInfoMap_ (manager worldAfterTwoFailures) !! id)) ∧
   loadingModuleIds_ (manager worldAfterTwoFailures) = [] ++ ["A"] ∧
   "A" ≠ EmptyString ∧
   3 ≤ consecutiveFailures_ (manager worldAfterTwoFailures) + 1 ∧
   ∃ n, ∀ fuel, n ≤ fuel →
     ∃ w' events (cancelled : string → bool),
       handleLoadError_ fuel 500 worldAfterTwoFailures = Ok (tt, w') ∧
       calls w' = calls worldAfterTwoFailures ++ events ∧
       (∀ fn, fn ∈ registered (manager worldAfterTwoFailures) ERROR →
              NotifyError fn "A" CONSECUTIVE_FAILURES ∈ events) ∧
       (∀ ids, LoadModules ids ∈ events → "A" ∉ ids) ∧
       ("A" ∉ loadingModuleIds_ (manager w')) ∧
       ("A" ∉ requestedModuleIdsQueue_ (manager w')) ∧
       (∀ id, id ∈ requestedModuleIdsQueue_ (manager worldAfterTwoFailures) →
          (cancelled id ↔
           id = "A" ∨
           tc (awaits (moduleInfoMap_ (manager worldAfterTwoFailures)))
             id "A")) ∧
       match nextToLoad (moduleInfoMap_ (manager worldAfterTwoFailures))
               (filter (λ id, ¬ cancelled id)
                  (requestedModuleIdsQueue_ (manager worldAfterTwoFailures)))
       with
       | None =>
           loadingModuleIds_ (manager w') = [] ∧
           requestedModuleIdsQueue_ (manager w') = [] ∧
           ∀ ids, LoadModules ids ∉ events
       | Some (nextId, rest) =>
           ∃ ids,
             getNotYetLoadedTransitiveDepIds_
               (moduleInfoMap_ (manager worldAfterTwoFailures)) fuel nextId =
               Ok ids ∧
             loadingModuleIds_ (manager w') =
               dispatchedIds
                 (batchModeEnabled_ (manager worldAfterTwoFailures)) ids ∧
             requestedModuleIdsQueue_ (manager w') =
               postponedIds
                 (batchModeEnabled_ (manager worldAfterTwoFailures)) ids ++
               rest ∧
             ∀ ids', LoadModules ids' ∈ events ↔
                     ids' =
                       dispatchedIds
                         (batchModeEnabled_ (manager worldAfterTwoFailures))
                         ids
       end) ∧
  (acyclic (moduleInfoMap_ (manager worldLoadingAForB)) ∧
   closed (moduleInfoMap_ (manager worldLoadingAForB)) ∧
   loadingModuleIds_ (manager worldLoadingAForB) = [] ++ ["A"] ∧
   notYetLoaded (moduleInfoMap_ (manager worldLoadingAForB)) "A" ∧
   consecutiveFailures_ (manager worldLoadingAForB) + 1 < 3 ∧
   ∃ n, ∀ fuel, n ≤ fuel →
     ∃ ids w' events,
       getNotYetLoadedTransitiveDepIds_
         (moduleInfoMap_ (manager worldLoadingAForB)) fuel "A" = Ok ids ∧
       handleLoadError_ fuel 500 worldLoadingAForB = Ok (tt, w') ∧
       consecutiveFailures_ (manager w') =
         consecutiveFailures_ (manager worldLoadingAForB) + 1 ∧
       calls w' =
         calls worldLoadingAForB ++ events ++
         [LoadModules
            (dispatchedIds (batchModeEnabled_ (manager worldLoadingAForB))
               ids)] ∧
       (∀ e, e ∈ events → ∃ fn type, e = Notify fn type) ∧
       loadingModuleIds_ (manager w') =
         dispatchedIds (batchModeEnabled_ (manager worldLoadingAForB)) ids ∧
       requestedModuleIdsQueue_ (manager w') =
         postponedIds (batchModeEnabled_ (manager worldLoadingAForB)) ids ++
         requestedModuleIdsQueue_ (manager worldLoadingAForB)).
Proof.
  assert (500%Z ≠ 401%Z) as H1 by lia.
  assert (500%Z ≠ 410%Z) as H2 by lia.
  assert ("A" ≠ EmptyString) as Hne by discriminate.
  split; [exact H1|]. split; [exact H2|].
  split.
  - split; [exact worldAfterTwoFailures_acyclic|].
    split; [exact worldAfterTwoFailures_closed|].
    split; [exact worldAfterTwoFailures_queue_registered|].
    split; [exact worldAfterTwoFailures_loading|].
    split; [exact Hne|].
    split; [exact worldAfterTwoFailures_counter|].
    exact (proj1 (three_transient_failures_abandon_the_load 500 H1 H2)
             worldAfterTwoFailures [] "A" worldAfterTwoFailures_acyclic
             worldAfterTwoFailures_closed
             worldAfterTwoFailures_queue_registered
             worldAfterTwoFailures_loading Hne
             worldAfterTwoFailures_counter).
  - split; [exact worldLoadingAForB_acyclic|].
    split; [exact worldLoadingAForB_closed|].
    split; [exact worldLoadingAForB_loading|].
    split; [exact worldLoadingAForB_notYetLoaded|].
    split; [exact worldLoadingAForB_counter|].
    exact (proj1 (proj2 (three_transient_failures_abandon_the_load 500 H1 H2))
             worldLoadingAForB [] "A" worldLoadingAForB_acyclic
             worldLoadingAForB_closed worldLoadingAForB_loading
             worldLoadingAForB_notYetLoaded worldLoadingAForB_counter).
Defined.

(** The whole of it on {A: [], B: [A], C: [B]}: load("B") sends A to the
    loader; the loader reports 500 three times.  A goes to the loader three
    times in all; the third failure is reported for B and A, and the
    manager is left idle. *)
Example three_failures_run :
  ∃ w1 w2 w3,
    handleLoadError_ 10 500 worldLoadingAForB = Ok (tt, w1) ∧
    handleLoadError_ 10 500 w1 = Ok (tt, w2) ∧
    handleLoadError_ 10 500 w2 = Ok (tt, w3) ∧
    calls w3 =
      [LoadModules ["A"]; LoadModules ["A"]; LoadModules ["A"];
       NotifyError 7 "B" CONSECUTIVE_FAILURES;
       NotifyError 7 "A" CONSECUTIVE_FAILURES] ∧
    loadingModuleIds_ (manager w3) = [] ∧
    requestedModuleIdsQueue_ (manager w3) = [] ∧
    deferreds w3 = [Unfired].
Proof.
  eexists _, _, _. split_and!; try (vm_compute; reflexivity).
Qed.

(** ** Requests to the loader *)

(** Registering a callback on a module changes its record only. *)
Lemma registerCallback_on_inv id fn w w' :
  registerCallback_on id fn w = Ok (tt, w') →
  ∃ info, moduleInfoMap_ (manager w) !! id = Some info ∧
    w' = setManager
           (set_moduleInfoMap_
              (<[id := registerCallback_info fn info]>
                 (moduleInfoMap_ (manager w))) (manager w)) w.
Proof.
  unfold registerCallback_on, getModuleInfo. rewrite bind_gets.
  destruct (moduleInfoMap_ (manager w) !! id) as [info|]; [|done].
  intros [= <-]. by exists info.
Qed.

Lemma registerErrback_on_inv id fn w w' :
  registerErrback_on id fn w = Ok (tt, w') →
  ∃ info, moduleInfoMap_ (manager w) !! id = Some info ∧
    w' = setManager
           (set_moduleInfoMap_
              (<[id := registerErrback_info fn info]>
                 (moduleInfoMap_ (manager w))) (manager w)) w.
Proof.
  unfold registerErrback_on, getModuleInfo. rewrite bind_gets.
  destruct (moduleInfoMap_ (manager w) !! id) as [info|]; [|done].
  intros [= <-]. by exists info.
Qed.

Lemma registerBoth_inv id f1 f2 w w' :
  (registerCallback_on id f1 ;; registerErrback_on id f2) w = Ok (tt, w') →
  calls w' = calls w ∧ deferreds w' = deferreds w ∧
  loadingModuleIds_ (manager w') = loadingModuleIds_ (manager w) ∧
  requestedModuleIdsQueue_ (manager w') = requestedModuleIdsQueue_ (manager w).
Proof.
  intros ([] & w1 & (info & _ & ->)%registerCallback_on_inv
            & (info' & _ & ->)%registerErrback_on_inv)%bind_Ok_inv.
  done.
Qed.

Lemma contains_false arr x : goog_array.contains arr x = false → x ∉ arr.
Proof. apply bool_decide_eq_false. Qed.

Lemma contains_true arr x : x ∈ arr → goog_array.contains arr x = true.
Proof. apply bool_decide_eq_true. Qed.

Lemma not_LoadModules_transitions mm ids :
  LoadModules ids ∉ activeChange mm ++ userActiveChange mm.
Proof.
  intros [H|H]%elem_of_app.
  - by apply elem_of_activeChange in H as (? & ? & ?).
  - by apply elem_of_userActiveChange in H as (? & ? & ?).
Qed.

(** What loadModuleOrEnqueue_ asks of the loader, it asks while nothing is
    loading. *)
Lemma loadModuleOrEnqueue__inv fuel id w w' :
  loadModuleOrEnqueue_ fuel id w = Ok (tt, w') →
  ∃ events, calls w' = calls w ++ events ∧
    ∀ ids, LoadModules ids ∈ events → loadingModuleIds_ (manager w) = [].
Proof.
  unfold loadModuleOrEnqueue_. rewrite bind_gets.
  destruct (loadingModuleIds_ (manager w)) as [|x loading] eqn:Hloading.
  - intros (info & ids & _ & _ & _ & ->)%loadModule__inv.
    eexists. split; [reflexivity|done].
  - rewrite bind_modify, dispatchActiveIdleChangeIfNeeded_run.
    intros [= <-]. eexists. split; [reflexivity|].
    intros ids Hids. by apply not_LoadModules_transitions in Hids.
Qed.

Lemma load_inv fuel moduleId w d w' :
  load fuel moduleId w = Ok (d, w') →
  ∃ events, calls w' = calls w ++ events ∧
    ∀ ids, LoadModules ids ∈ events →
      loadingModuleIds_ (manager w) = [] ∧
      moduleId ∉ requestedModuleIdsQueue_ (manager w).
Proof.
  unfold load, getModuleInfo. rewrite bind_gets.
  unfold bind at 1. unfold newDeferred at 1.
  set (wd := {| manager := manager w;
                deferreds := deferreds w ++ [Unfired];
                timeouts := timeouts w; calls := calls w |}).
  destruct (moduleInfoMap_ (manager w) !! moduleId) as [info|]; [|done].
  intros ([] & w1 & Hbody & [= <- <-])%bind_Ok_inv.
  destruct (isLoaded info).
  - rewrite bind_gets in Hbody. injection Hbody as <-.
    exists []. split; [by rewrite app_nil_r|]. by intros ids ?%elem_of_nil.
  - unfold isModuleLoading in Hbody. rewrite bind_gets in Hbody.
    destruct (goog_array.contains (loadingModuleIds_ (manager wd)) moduleId)
      eqn:Hl; cbn [orb] in Hbody.
    { apply registerBoth_inv in Hbody as (Hc & _).
      exists []. split; [by rewrite app_nil_r, Hc|].
      by intros ids ?%elem_of_nil. }
    destruct (goog_array.contains (requestedModuleIdsQueue_ (manager wd))
                moduleId) eqn:Hq; cbn [orb] in Hbody.
    { apply registerBoth_inv in Hbody as (Hc & _).
      exists []. split; [by rewrite app_nil_r, Hc|].
      by intros ids ?%elem_of_nil. }
    rewrite <- bind_assoc in Hbody.
    apply bind_Ok_inv in Hbody as ([] & w2 & Hreg & Hload).
    apply registerBoth_inv in Hreg as (Hc & _ & Hl2 & Hq2).
    apply loadModuleOrEnqueue__inv in Hload as (events & Hcalls & Hloads).
    exists events. split; [by rewrite Hcalls, Hc|].
    intros ids Hids. split.
    + specialize (Hloads ids Hids). rewrite Hl2 in Hloads. exact Hloads.
    + by apply contains_false in Hq.
Qed.

Lemma load_of_loading fuel moduleId w info :
  moduleInfoMap_ (manager w) !! moduleId = Some info →
  isLoaded info = false →
  moduleId ∈ loadingModuleIds_ (manager w) ∨
  moduleId ∈ requestedModuleIdsQueue_ (manager w) →
  ∃ w', load fuel moduleId w = Ok (length (deferreds w), w') ∧
        calls w' = calls w ∧
        loadingModuleIds_ (manager w') = loadingModuleIds_ (manager w) ∧
        requestedModuleIdsQueue_ (manager w') =
          requestedModuleIdsQueue_ (manager w).
Proof.
  intros Hinfo Hloaded Hin.
  assert (goog_array.contains (loadingModuleIds_ (manager w)) moduleId
          || goog_array.contains (requestedModuleIdsQueue_ (manager w))
               moduleId = true) as Hloading.
  { destruct Hin as [Hin|Hin]; apply contains_true in Hin; rewrite Hin;
      [done|apply orb_true_r]. }
  eexists. split.
  - unfold load, getModuleInfo. rewrite bind_gets, Hinfo.
    unfold bind at 1. unfold newDeferred at 1. rewrite Hloaded.
    rewrite bind_assoc. unfold isModuleLoading. rewrite bind_gets.
    cbn [manager]. rewrite Hloading.
    unfold registerCallback_on, registerErrback_on, getModuleInfo,
      putModuleInfo.
    rewrite !bind_assoc, bind_gets. cbn [manager]. rewrite Hinfo.
    rewrite bind_modify, bind_assoc, bind_gets.
    cbn [manager setManager moduleInfoMap_ set_moduleInfoMap_].
    rewrite lookup_insert_eq, bind_modify. reflexivity.
  - done.
Qed.

Lemma onLoad_run id info w :
  onLoad id info w =
  Ok (tt, {| manager :=
               set_moduleInfoMap_
                 (<[id := markLoaded info]> (moduleInfoMap_ (manager w)))
                 (manager w);
             deferreds :=
               fireAll (pendingCallbacks info)
                 (ArgContext (moduleContext_ (manager w)))
                 (fireAll (earlyCallbacks info)
                    (ArgContext (moduleContext_ (manager w))) (deferreds w));
             timeouts := timeouts w;
             calls :=
               calls w ++
               callEvents (earlyCallbacks info)
                 (ArgContext (moduleContext_ (manager w))) ++
               callEvents (pendingCallbacks info)
                 (ArgContext (moduleContext_ (manager w))) |}).
Proof.
  unfold onLoad, putModuleInfo. rewrite bind_gets, bind_modify.
  erewrite bind_Ok by apply callCallbacks_run.
  rewrite callCallbacks_run. simpl. by rewrite <- app_assoc.
Qed.

Lemma not_LoadModules_callEvents callbacks arg ids :
  LoadModules ids ∉ callEvents callbacks arg.
Proof. by intros (? & ? & ?)%elem_of_callEvents. Qed.

Lemma remove_nil arr id x :
  goog_array.remove arr id = [] → x ∈ arr → x = id.
Proof.
  destruct arr as [|y arr]; simpl; [by intros _ ?%elem_of_nil|].
  destruct (decide (y = id)) as [->|]; [|done].
  intros -> Hx. by apply list_elem_of_singleton in Hx.
Qed.

(** What the resolver lists is not yet loaded, the requested id apart. *)
Lemma resolved_notYetLoaded m fuel id l x :
  getNotYetLoadedTransitiveDepIds_ m fuel id = Ok l →
  x ∈ l → x = id ∨ notYetLoaded m x.
Proof.
  intros Hres [->|Hx]%(resolved_elem_of _ _ _ _ _ Hres); [by left|].
  right. by eapply tc_awaits_notYetLoaded.
Qed.

Lemma setLoaded_inv fuel id w w' :
  setLoaded fuel id w = Ok (tt, w') →
  ∃ events, calls w' = calls w ++ events ∧
    ∀ ids x, LoadModules ids ∈ events → x ∈ ids →
             x ∉ loadingModuleIds_ (manager w).
Proof.
  unfold setLoaded. rewrite !bind_modify. unfold getModuleInfo.
  rewrite bind_gets.
  cbn [manager setManager moduleInfoMap_ set_loadingModuleIds_
       set_userInitiatedLoadingModuleIds_].
  destruct (moduleInfoMap_ (manager w) !! id) as [info|] eqn:Hinfo; [|done].
  erewrite bind_Ok by apply onLoad_run.
  rewrite bind_gets.
  cbn [manager setManager loadingModuleIds_ set_moduleInfoMap_
       set_loadingModuleIds_ set_userInitiatedLoadingModuleIds_].
  set (wl := {| manager := _ |}).
  pose (loaded :=
          callEvents (earlyCallbacks info)
            (ArgContext (moduleContext_ (manager w))) ++
          callEvents (pendingCallbacks info)
            (ArgContext (moduleContext_ (manager w)))).
  assert (calls wl = calls w ++ loaded) as Hcl by done.
  assert (∀ ids, LoadModules ids ∉ loaded) as Hloaded.
  { intros ids [H|H]%elem_of_app; by apply not_LoadModules_callEvents in H. }
  destruct (goog_array.remove (loadingModuleIds_ (manager w)) id)
    as [|y loading] eqn:Hremove.
  - intros ([] & w3 & Hnext & Hdispatch)%bind_Ok_inv.
    rewrite dispatchActiveIdleChangeIfNeeded_run in Hdispatch.
    injection Hdispatch as <-.
    unfold loadNextModule_ in Hnext.
    rewrite bind_gets, loadNextModule_from_run in Hnext.
    destruct (nextToLoad _ _) as [[nextId rest]|] eqn:Hn.
    + apply nextToLoad_Some in Hn as [_ Hunloaded].
      apply loadModule__inv in Hnext
        as (info' & ids & Hinfo' & Hl' & Hres & ->).
      eexists. split.
      { simpl. rewrite <- !app_assoc. reflexivity. }
      intros ids' x Hin Hx Hloading.
      apply (remove_nil _ _ _ Hremove) in Hloading as ->.
      rewrite !elem_of_app in Hin.
      destruct_or!;
        try (by apply Hloaded in Hin);
        try (by apply not_LoadModules_callEvents in Hin);
        try (by apply elem_of_activeChange in Hin as (? & ? & ?));
        try (by apply elem_of_userActiveChange in Hin as (? & ? & ?)).
      apply list_elem_of_singleton in Hin. injection Hin as ->.
      apply dispatchedIds_subseteq in Hx.
      assert (moduleInfoMap_ (manager wl) !! id = Some (markLoaded info))
        as Hid by apply lookup_insert_eq.
      destruct (resolved_notYetLoaded _ _ _ _ _ Hres Hx)
        as [->|(info'' & Hinfo'' & Hl'')].
      * change (moduleInfoMap_ (manager (setManager _ wl)))
          with (moduleInfoMap_ (manager wl)) in Hinfo'.
        rewrite Hid in Hinfo'. by injection Hinfo' as <-.
      * change (moduleInfoMap_ (manager (setManager _ wl)))
          with (moduleInfoMap_ (manager wl)) in Hinfo''.
        rewrite Hid in Hinfo''. by injection Hinfo'' as <-.
    + assert (∃ wx, dispatchActiveIdleChangeIfNeeded_ wx = Ok (tt, w3) ∧
                    calls wx = calls wl) as (wx & Hwx & Hcx).
      { destruct (requestedModuleIdsQueue_ (manager wl)); eauto. }
      rewrite dispatchActiveIdleChangeIfNeeded_run in Hwx.
      injection Hwx as <-.
      eexists. split.
      { simpl. rewrite Hcx, Hcl, <- !app_assoc. reflexivity. }
      intros ids' x Hin _. rewrite !elem_of_app in Hin.
      destruct_or!;
        try (by apply Hloaded in Hin);
        try (by apply not_LoadModules_callEvents in Hin);
        try (by apply elem_of_activeChange in Hin as (? & ? & ?));
        try (by apply elem_of_userActiveChange in Hin as (? & ? & ?)).
  - rewrite bind_ret, dispatchActiveIdleChangeIfNeeded_run.
    intros [= <-]. eexists. split.
    { simpl. rewrite <- !app_assoc. reflexivity. }
    intros ids' x Hin _. rewrite !elem_of_app in Hin.
    destruct_or!;
      try (by apply Hloaded in Hin);
      try (by apply not_LoadModules_callEvents in Hin);
      try (by apply elem_of_activeChange in Hin as (? & ? & ?));
      try (by apply elem_of_userActiveChange in Hin as (? & ? & ?)).
Qed.

(** C5, as amended: load(id) makes no request to the loader when [id] is
    already among the loading ids or in the queue; a request that load(id)
    does make is made while nothing is loading and [id] is not queued; no
    id that setLoaded hands to the loader is among the loading ids at that
    moment; switching batch mode makes no request.  (An id can be handed
    to the loader while it waits in the queue.) *)
Theorem no_request_for_an_id_that_is_loading :
  (∀ fuel w moduleId info,
     moduleInfoMap_ (manager w) !! moduleId = Some info →
     isLoaded info = false →
     moduleId ∈ loadingModuleIds_ (manager w) ∨
     moduleId ∈ requestedModuleIdsQueue_ (manager w) →
     ∃ w', load fuel moduleId w = Ok (length (deferreds w), w') ∧
           calls w' = calls w ∧
           loadingModuleIds_ (manager w') = loadingModuleIds_ (manager w) ∧
           requestedModuleIdsQueue_ (manager w') =
             requestedModuleIdsQueue_ (manager w)) ∧
  (∀ fuel moduleId w d w',
     load fuel moduleId w = Ok (d, w') →
     ∃ events, calls w' = calls w ++ events ∧
       ∀ ids, LoadModules ids ∈ events →
         loadingModuleIds_ (manager w) = [] ∧
         moduleId ∉ requestedModuleIdsQueue_ (manager w)) ∧
  (∀ fuel id w w',
     setLoaded fuel id w = Ok (tt, w') →
     ∃ events, calls w' = calls w ++ events ∧
       ∀ ids x, LoadModules ids ∈ events → x ∈ ids →
                x ∉ loadingModuleIds_ (manager w)) ∧
  (∀ enabled w, ∃ w',
     setBatchModeEnabled enabled w = Ok (tt, w') ∧ calls w' = calls w).
Proof.
  split_and!.
  - intros fuel w moduleId info. apply load_of_loading.
  - apply load_inv.
  - apply setLoaded_inv.
  - intros enabled w. by eexists.
Qed.

Lemma no_request_for_an_id_that_is_loading_witness :
  moduleInfoMap_ (manager worldLoadingAForB) !! "B" =
    Some (registerErrback_info (DeferredErrback 0)
            (registerCallback_info (DeferredCallback 0)
               (pendingModule ["A"]))) ∧
  isLoaded (registerErrback_info (DeferredErrback 0)
              (registerCallback_info (DeferredCallback 0)
                 (pendingModule ["A"]))) = false ∧
  ("B" ∈ loadingModuleIds_ (manager worldLoadingAForB) ∨
   "B" ∈ requestedModuleIdsQueue_ (manager worldLoadingAForB)) ∧
  ∃ w', load 10 "B" worldLoadingAForB =
          Ok (length (deferreds worldLoadingAForB), w') ∧
        calls w' = calls worldLoadingAForB ∧
        loadingModuleIds_ (manager w') =
          loadingModuleIds_ (manager worldLoadingAForB) ∧
        requestedModuleIdsQueue_ (manager w') =
          requestedModuleIdsQueue_ (manager worldLoadingAForB).
Proof.
  assert (moduleInfoMap_ (manager worldLoadingAForB) !! "B" =
            Some (registerErrback_info (DeferredErrback 0)
                    (registerCallback_info (DeferredCallback 0)
                       (pendingModule ["A"])))) as Hinfo
    by (vm_compute; reflexivity).
  assert ("B" ∈ loadingModuleIds_ (manager worldLoadingAForB) ∨
          "B" ∈ requestedModuleIdsQueue_ (manager worldLoadingAForB))
    as Hin.
  { right. apply (bool_decide_unpack _). vm_compute. reflexivity. }
  split; [exact Hinfo|]. split; [reflexivity|]. split; [exact Hin|].
  exact (proj1 no_request_for_an_id_that_is_loading 10 worldLoadingAForB "B"
           _ Hinfo eq_refl Hin).
Defined.
(** ** Runs that end in a failure *)

(** C2: the run on which the code leaves a cancelled id among the
    user-initiated ids.  On {A: [], B: [A], C: [B]} with batch mode off,
    two user-initiated execOnLoad("B") calls put B twice into
    [userInitiatedLoadingModuleIds_] while A is with the loader and B
    waits in the queue.  The load of A then times out: B is taken out of
    the queue and the registered error callback is called for B and for A
    with TIMEOUT, but only one of the two entries of B leaves the
    user-initiated ids, so that the manager stays user active with nothing
    loading and nothing queued. *)
Theorem cancelled_id_stays_user_initiated :
  ∃ w0 w1 w2 w3 w4,
    setAllModuleInfo chainInfo newWorld = Ok (tt, w0) ∧
    registerCallback [ERROR; USER_IDLE] 7 w0 = Ok (tt, w1) ∧
    execOnLoad 10 "B" 1 None false true false w1 = Ok (tt, w2) ∧
    execOnLoad 10 "B" 2 None false true false w2 = Ok (tt, w3) ∧
    loadingModuleIds_ (manager w3) = ["A"] ∧
    requestedModuleIdsQueue_ (manager w3) = ["B"] ∧
    userInitiatedLoadingModuleIds_ (manager w3) = ["B"; "B"] ∧
    getNotYetLoadedTransitiveDepIds_ (moduleInfoMap_ (manager w3)) 10 "B" =
      Ok ["A"; "B"] ∧
    handleLoadTimeout_ 10 w3 = Ok (tt, w4) ∧
    calls w4 =
      calls w3 ++ [NotifyError 7 "B" TIMEOUT; NotifyError 7 "A" TIMEOUT] ∧
    loadingModuleIds_ (manager w4) = [] ∧
    requestedModuleIdsQueue_ (manager w4) = [] ∧
    userInitiatedLoadingModuleIds_ (manager w4) = ["B"] ∧
    userLastActive_ (manager w4) = true.
Proof.
  eexists _, _, _, _, _. split_and!; try (vm_compute; reflexivity).
Qed.

(** C4: the run on which the deferred of load never fires.  On
    {A: [], B: [A], C: [B]} with batch mode off, load("B") sends A to the
    loader and queues B.  The load of A times out: B is cancelled, the
    registered error callback is called for B with TIMEOUT, and the
    deferred that load("B") returned is left unfired, with nothing loading
    and nothing queued.  With batch mode on the same failure rejects the
    deferred with TIMEOUT. *)
Theorem cancelled_load_leaves_deferred_unfired :
  (∃ w0 w1 d w2 w3,
     setAllModuleInfo chainInfo newWorld = Ok (tt, w0) ∧
     registerCallback [ERROR] 7 w0 = Ok (tt, w1) ∧
     load 10 "B" w1 = Ok (d, w2) ∧
     loadingModuleIds_ (manager w2) = ["A"] ∧
     requestedModuleIdsQueue_ (manager w2) = ["B"] ∧
     handleLoadTimeout_ 10 w2 = Ok (tt, w3) ∧
     calls w3 =
       calls w2 ++ [NotifyError 7 "B" TIMEOUT; NotifyError 7 "A" TIMEOUT] ∧
     loadingModuleIds_ (manager w3) = [] ∧
     requestedModuleIdsQueue_ (manager w3) = [] ∧
     timeouts w3 = [] ∧
     deferreds w3 !! d = Some Unfired) ∧
  (∃ w0 w1 w1' d w2 w3,
     setAllModuleInfo chainInfo newWorld = Ok (tt, w0) ∧
     registerCallback [ERROR] 7 w0 = Ok (tt, w1) ∧
     setBatchModeEnabled true w1 = Ok (tt, w1') ∧
     load 10 "B" w1' = Ok (d, w2) ∧
     loadingModuleIds_ (manager w2) = ["A"; "B"] ∧
     handleLoadTimeout_ 10 w2 = Ok (tt, w3) ∧
     deferreds w3 !! d = Some (Rejected (ArgCause TIMEOUT))).
Proof.
  split.
  - eexists _, _, _, _, _. split_and!; try (vm_compute; reflexivity).
  - eexists _, _, _, _, _, _. split_and!; try (vm_compute; reflexivity).
Qed.

(** C3 as first stated fails: X is with the loader and the unrelated Y
    waits in the queue when the loader reports 401.  The queue is emptied,
    the registered error callback is called for X alone, and the deferred
    of load("Y") is left unfired. *)
Lemma unauthorized_drops_queued_id_unreported :
  ∃ w0 w1 dX w2 dY w3 w4,
    setAllModuleInfo independentInfo newWorld = Ok (tt, w0) ∧
    registerCallback [ERROR] 7 w0 = Ok (tt, w1) ∧
    load 10 "X" w1 = Ok (dX, w2) ∧
    load 10 "Y" w2 = Ok (dY, w3) ∧
    loadingModuleIds_ (manager w3) = ["X"] ∧
    requestedModuleIdsQueue_ (manager w3) = ["Y"] ∧
    registered (manager w3) ERROR = [7] ∧
    handleLoadError_ 10 401 w3 = Ok (tt, w4) ∧
    requestedModuleIdsQueue_ (manager w4) = [] ∧
    calls w4 = calls w3 ++ [NotifyError 7 "X" UNAUTHORIZED] ∧
    (NotifyError 7 "Y" UNAUTHORIZED ∉ calls w4) ∧
    deferreds w4 !! dX = Some (Rejected (ArgCause UNAUTHORIZED)) ∧
    deferreds w4 !! dY = Some Unfired.
Proof.
  eexists _, _, _, _, _, _, _.
  split_and!; try (vm_compute; reflexivity).
  vm_compute. intros Hin.
  repeat (apply elem_of_cons in Hin as [Hin|Hin]; [discriminate Hin|]).
  by apply elem_of_nil in Hin.
Qed.

(** C5 as first stated fails: on {X: [], A: [], B: [A]} with batch mode
    off, load("X"), load("B") and load("A") leave X with the loader and B
    and A in the queue.  Once X is loaded the manager turns to B and hands
    its prerequisite A to the loader, while A is in the queue. *)
Lemma queued_id_is_dispatched :
  ∃ w0 dX w1 dB w2 dA w3 w4,
    setAllModuleInfo sharedInfo newWorld = Ok (tt, w0) ∧
    load 10 "X" w0 = Ok (dX, w1) ∧
    load 10 "B" w1 = Ok (dB, w2) ∧
    load 10 "A" w2 = Ok (dA, w3) ∧
    loadingModuleIds_ (manager w3) = ["X"] ∧
    requestedModuleIdsQueue_ (manager w3) = ["B"; "A"] ∧
    setLoaded 10 "X" w3 = Ok (tt, w4) ∧
    calls w4 = calls w3 ++ [LoadModules ["A"]] ∧
    ("A" ∈ requestedModuleIdsQueue_ (manager w3)) ∧
    requestedModuleIdsQueue_ (manager w4) = ["B"; "A"].
Proof.
  eexists _, _, _, _, _, _, _, _.
  split_and!; try (vm_compute; reflexivity).
  apply (bool_decide_unpack _). vm_compute. reflexivity.
Qed.

(** * Further properties *)

(** ** The resolver at the edges *)

Lemma depIdsLoop_all_loaded m fuel ids depIds :
  (∀ x, x ∈ depIds → ∃ info, m !! x = Some info ∧ isLoaded info = true) →
  length depIds < fuel →
  depIdsLoop m fuel ids depIds = Ok ids.
Proof.
  revert depIds. induction fuel as [|fuel IH]; intros depIds Hall Hlt; [lia|].
  simpl. destruct (goog_array.pop depIds) as [[x rest]|] eqn:Hpop; [|done].
  apply pop_Some in Hpop as ->.
  destruct (Hall x) as (info & -> & ->); [set_solver|].
  apply IH.
  - intros y Hy. apply Hall. set_solver.
  - rewrite length_app in Hlt. simpl in Hlt. lia.
Qed.

(** X1: when the declared dependencies of a registered module are all
    registered and loaded, the resolver returns the module alone, whatever
    lies behind those dependencies; a fuel above their number is enough. *)
Theorem resolve_with_loaded_dependencies
    (m : gmap string ModuleInfo) (fuel : nat) (id : string)
    (info : ModuleInfo) :
  m !! id = Some info →
  (∀ d, d ∈ getDependencies info →
        ∃ dinfo, m !! d = Some dinfo ∧ isLoaded dinfo = true) →
  length (getDependencies info) < fuel →
  getNotYetLoadedTransitiveDepIds_ m fuel id = Ok [id].
Proof.
  intros Hid Hall Hlt.
  unfold getNotYetLoadedTransitiveDepIds_, collectedDepIds. rewrite Hid.
  by rewrite depIdsLoop_all_loaded.
Qed.

Lemma resolve_with_loaded_dependencies_witness :
  chainWithLoadedA !! "B" = Some (pendingModule ["A"]) ∧
  (∀ d, d ∈ getDependencies (pendingModule ["A"]) →
        ∃ dinfo, chainWithLoadedA !! d = Some dinfo ∧
                 isLoaded dinfo = true) ∧
  length (getDependencies (pendingModule ["A"])) < 2 ∧
  getNotYetLoadedTransitiveDepIds_ chainWithLoadedA 2 "B" = Ok ["B"].
Proof.
  assert (∀ d, d ∈ getDependencies (pendingModule ["A"]) →
            ∃ dinfo, chainWithLoadedA !! d = Some dinfo ∧
                     isLoaded dinfo = true) as Hall.
  { intros d Hd. apply list_elem_of_singleton in Hd as ->.
    exists (loadedModule []). split; reflexivity. }
  assert (length (getDependencies (pendingModule ["A"])) < 2) as Hlt
    by (simpl; lia).
  split; [reflexivity|]. split; [exact Hall|]. split; [exact Hlt|].
  exact (resolve_with_loaded_dependencies chainWithLoadedA 2 "B"
           (pendingModule ["A"]) eq_refl Hall Hlt).
Defined.

Lemma reachesCycle_step m y :
  reachesCycle m y → ∃ d, awaits m y d ∧ reachesCycle m d.
Proof.
  intros (_ & z & Hyz & Hzz).
  assert (tc (awaits m) y z) as Hy.
  { apply rtc_tc in Hyz as [->|?]; done. }
  clear Hyz. inversion Hy as [? ? Hyd|? d ? Hyd Hdz]; subst.
  - exists z. split; [done|]. split; [by destruct Hyd|].
    exists z. split; [done|done].
  - exists d. split; [done|]. split; [by destruct Hyd|].
    exists z. split; [by apply tc_rtc|done].
Qed.

Lemma depIdsLoop_on_cycle m fuel ids depIds :
  closed m →
  (∀ x, x ∈ depIds → is_Some (m !! x)) →
  (∃ x, x ∈ depIds ∧ reachesCycle m x) →
  depIdsLoop m fuel ids depIds = OutOfFuel.
Proof.
  intros Hclosed. revert ids depIds.
  induction fuel as [|fuel IH]; intros ids depIds Hreg (c & Hc & Hcycle);
    [done|].
  simpl. destruct (goog_array.pop depIds) as [[x rest]|] eqn:Hpop.
  - apply pop_Some in Hpop as ->.
    destruct (Hreg x) as [info Hx]; [set_solver|]. rewrite Hx.
    destruct (isLoaded info) eqn:Hl.
    + apply IH; [intros; apply Hreg; set_solver|].
      exists c. split; [|done].
      apply elem_of_app in Hc as [?|Hc]; [done|].
      apply list_elem_of_singleton in Hc as ->.
      destruct Hcycle as [(info' & Hx' & Hl') _]. congruence.
    + apply IH.
      * intros y [Hy|Hy]%elem_of_app; [|apply Hreg; set_solver].
        apply (Hclosed x). by exists info.
      * apply elem_of_app in Hc as [?|Hc].
        { exists c. split; [set_solver|done]. }
        apply list_elem_of_singleton in Hc as ->.
        destruct (reachesCycle_step _ _ Hcycle)
          as (d & [(info' & Hx' & Hd) _] & Hdc).
        exists d. split; [|done].
        assert (info' = info) as -> by congruence. set_solver.
  - apply pop_None in Hpop as ->. by apply elem_of_nil in Hc.
Qed.

(** X2: there is no cycle check.  When the declared dependencies are all
    registered and the module awaits, through not-yet-loaded modules, one
    that awaits itself, the loop of the resolver never ends: whatever the
    fuel, the run is cut short. *)
Theorem resolver_loops_on_a_cycle
    (m : gmap string ModuleInfo) (id x : string) :
  closed m → tc (awaits m) id x → tc (awaits m) x x →
  ∀ fuel, getNotYetLoadedTransitiveDepIds_ m fuel id = OutOfFuel.
Proof.
  intros Hclosed Hidx Hxx fuel.
  assert (∃ d, awaits m id d ∧ reachesCycle m d) as (d & Hd & Hdc).
  { inversion Hidx as [? ? Hstep|? d ? Hstep Hdx]; subst.
    - exists x. split; [done|]. split; [by destruct Hstep|]. by exists x.
    - exists d. split; [done|]. split; [by destruct Hstep|].
      exists x. split; [by apply tc_rtc|done]. }
  destruct Hd as [(info & Hid & Hdeps) _].
  unfold getNotYetLoadedTransitiveDepIds_, collectedDepIds. rewrite Hid.
  rewrite depIdsLoop_on_cycle; [done..| |by exists d].
  intros y Hy. apply (Hclosed id). by exists info.
Qed.

Lemma cyclicMap_closed : closed cyclicMap.
Proof.
  apply allRegistered_closed. apply (bool_decide_unpack _). by vm_compute.
Qed.

Lemma cyclicMap_awaits_RP : awaits cyclicMap "R" "P".
Proof.
  split.
  - exists (pendingModule ["P"]). split; [reflexivity|]. set_solver.
  - exists (pendingModule ["Q"]). split; reflexivity.
Qed.

Lemma cyclicMap_awaits_PQ : awaits cyclicMap "P" "Q".
Proof.
  split.
  - exists (pendingModule ["Q"]). split; [reflexivity|]. set_solver.
  - exists (pendingModule ["P"]). split; reflexivity.
Qed.

Lemma cyclicMap_awaits_QP : awaits cyclicMap "Q" "P".
Proof.
  split.
  - exists (pendingModule ["P"]). split; [reflexivity|]. set_solver.
  - exists (pendingModule ["Q"]). split; reflexivity.
Qed.

Lemma resolver_loops_on_a_cycle_witness :
  closed cyclicMap ∧ tc (awaits cyclicMap) "R" "P" ∧
  tc (awaits cyclicMap) "P" "P" ∧
  ∀ fuel, getNotYetLoadedTransitiveDepIds_ cyclicMap fuel "R" = OutOfFuel.
Proof.
  assert (tc (awaits cyclicMap) "R" "P") as HRP
    by exact (tc_once _ _ _ cyclicMap_awaits_RP).
  assert (tc (awaits cyclicMap) "P" "P") as HPP
    by exact (tc_l _ _ _ _ cyclicMap_awaits_PQ
                (tc_once _ _ _ cyclicMap_awaits_QP)).
  split; [exact cyclicMap_closed|]. split; [exact HRP|]. split; [exact HPP|].
  exact (resolver_loops_on_a_cycle cyclicMap "R" "P" cyclicMap_closed
           HRP HPP).
Defined.

(** ** What goes to the loader when batch mode is off *)

Lemma collected_registered_exit m id info fuel r :
  m !! id = Some info →
  depIdsLoop m fuel [id] (getDependencies info) = Ok r →
  collected_registered m r [].
Proof.
  intros Hid. apply depIdsLoop_invariant.
  - intros ids rest x xinfo Hinv Hx Hl y d Hy Hyd.
    destruct (Hinv y d Hy Hyd) as [Hd|?]; [|by right].
    apply elem_of_app in Hd as [?|Hd]; [by left|].
    apply list_elem_of_singleton in Hd as ->. right. by exists xinfo.
  - intros ids rest x xinfo Hinv Hx Hl y d Hy Hyd.
    apply elem_of_cons in Hy as [->|Hy].
    + left. destruct Hyd as (xinfo' & Hx' & Hd).
      assert (xinfo' = xinfo) as -> by congruence. set_solver.
    + destruct (Hinv y d Hy Hyd) as [Hd|?]; [|by right].
      apply elem_of_app in Hd as [?|Hd]; [left; set_solver|].
      apply list_elem_of_singleton in Hd as ->. right. by exists xinfo.
  - intros y d Hy Hyd. apply list_elem_of_singleton in Hy as ->.
    left. destruct Hyd as (info' & Hid' & Hd).
    by assert (info' = info) as -> by congruence.
Qed.

(** The first id of a resolved list needs nothing that is not loaded. *)
Lemma resolved_first_needs_nothing m fuel id x rest d :
  getNotYetLoadedTransitiveDepIds_ m fuel id = Ok (x :: rest) →
  dependsOn m x d →
  ∃ dinfo, m !! d = Some dinfo ∧ isLoaded dinfo = true.
Proof.
  unfold getNotYetLoadedTransitiveDepIds_, collectedDepIds.
  destruct (m !! id) as [info|] eqn:Hid; [|done].
  destruct (depIdsLoop m fuel _ _) as [ids| |] eqn:Hrun; [|done..].
  intros [= Hl] Hxd.
  assert (x ∈ ids) as Hx.
  { apply elem_of_removeDuplicates. rewrite Hl. by left. }
  destruct (collected_registered_exit m id info fuel ids Hid Hrun x d Hx Hxd)
    as [?%elem_of_nil|[dinfo Hd]]; [done|].
  exists dinfo. split; [done|].
  destruct (isLoaded dinfo) eqn:Hloaded; [done|]. exfalso.
  assert (awaits m x d) as Hawaits by (split; [done|by exists dinfo]).
  pose proof (collected_order_exit m id info fuel ids Hid Hrun) as Hord.
  pose proof (collected_order_before m ids x d Hord Hx Hawaits)
    as (i & j & Hi & Hj & Hlt).
  rewrite Hl in Hi, Hj.
  pose proof (NoDup_removeDuplicates ids) as Hnodup. rewrite Hl in Hnodup.
  assert (j = 0); [|lia].
  by apply (NoDup_lookup _ _ _ _ Hnodup Hj).
Qed.

Lemma dispatchedIds_unbatched x rest :
  dispatchedIds false (x :: rest) = [x].
Proof. unfold dispatchedIds. by destruct rest. Qed.

(** X3: with batch mode off, a call of loadModule_ that returns has handed
    the loader exactly one module, the only one now loading, and every
    declared dependency of that module is registered and loaded. *)
Theorem unbatched_request_needs_nothing
    (fuel : nat) (id : string) (opt_isRetry : bool) (w w' : World) :
  batchModeEnabled_ (manager w) = false →
  loadModule_ fuel id opt_isRetry w = Ok (tt, w') →
  ∃ x, loadingModuleIds_ (manager w') = [x] ∧
       last (calls w') = Some (LoadModules [x]) ∧
       ∀ d, dependsOn (moduleInfoMap_ (manager w)) x d →
            ∃ dinfo, moduleInfoMap_ (manager w) !! d = Some dinfo ∧
                     isLoaded dinfo = true.
Proof.
  intros Hbatch (info & ids & Hid & Hl & Hres & ->)%loadModule__inv.
  rewrite Hbatch. destruct ids as [|x rest].
  { by apply resolved_self, elem_of_nil in Hres. }
  exists x. rewrite dispatchedIds_unbatched. split_and!.
  - simpl. unfold loadModuleUpdate. rewrite Hbatch.
    rewrite dispatchedIds_unbatched. by destruct opt_isRetry.
  - simpl. by rewrite !app_assoc, last_snoc.
  - intros d. by apply (resolved_first_needs_nothing _ fuel id x rest).
Qed.

Lemma unbatched_request_needs_nothing_witness :
  batchModeEnabled_ (manager worldWithChain) = false ∧
  loadModule_ 10 "C" false worldWithChain =
    Ok (tt, after (loadModule_ 10 "C" false) worldWithChain) ∧
  ∃ x, loadingModuleIds_
         (manager (after (loadModule_ 10 "C" false) worldWithChain)) = [x] ∧
       last (calls (after (loadModule_ 10 "C" false) worldWithChain)) =
         Some (LoadModules [x]) ∧
       ∀ d, dependsOn (moduleInfoMap_ (manager worldWithChain)) x d →
            ∃ dinfo,
              moduleInfoMap_ (manager worldWithChain) !! d = Some dinfo ∧
              isLoaded dinfo = true.
Proof.
  assert (loadModule_ 10 "C" false worldWithChain =
            Ok (tt, after (loadModule_ 10 "C" false) worldWithChain)) as Hrun
    by (vm_compute; reflexivity).
  split; [reflexivity|]. split; [exact Hrun|].
  exact (unbatched_request_needs_nothing 10 "C" false worldWithChain _
           eq_refl Hrun).
Defined.

(** ** Invariants of the manager *)

Lemma ensures_keeps {A} I (c : M A) : ensures I c → keeps I c.
Proof. intros H w a w' Hrun _. eauto. Qed.

Lemma ensures_bind {A B} I (c : M A) (k : A → M B) :
  (∀ a, ensures I (k a)) → ensures I (bind c k).
Proof.
  intros Hk w b w'' (a & w' & _ & Hrun)%bind_Ok_inv. by eapply Hk.
Qed.

Lemma ensures_bind_l {A B} I (c : M A) (k : A → M B) :
  ensures I c → (∀ a, keeps I (k a)) → ensures I (bind c k).
Proof.
  intros Hc Hk w b w'' (a & w' & Hrun & Hrun')%bind_Ok_inv.
  eapply Hk; [done|]. by eapply Hc.
Qed.

Lemma keeps_bind {A B} I (c : M A) (k : A → M B) :
  keeps I c → (∀ a, keeps I (k a)) → keeps I (bind c k).
Proof.
  intros Hc Hk w b w'' (a & w' & Hrun & Hrun')%bind_Ok_inv HI.
  eapply Hk; [done|]. by eapply Hc.
Qed.

Lemma keeps_ret {A} I (a : A) : keeps I (ret a).
Proof. by intros w a' w' [= <- <-]. Qed.

Lemma ensures_throw {A} I (e : Exn) : ensures I (@throw A e).
Proof. by intros w a w'. Qed.

Lemma keeps_gets {A} I (f : ModuleManager → A) : keeps I (gets f).
Proof. by intros w a' w' [= <- <-]. Qed.

Lemma keeps_emit I (e : Event) : keeps I (emit e).
Proof. by intros w a' w' [= <- <-]. Qed.

Lemma keeps_newDeferred I : keeps I newDeferred.
Proof. by intros w a' w' [= <- <-]. Qed.

Lemma keeps_fire I d state : keeps I (fire d state).
Proof. by intros w a' w' [= <- <-]. Qed.

Lemma keeps_setTimeout I t : keeps I (setTimeout t).
Proof. by intros w a' w' [= <- <-]. Qed.

Lemma keeps_liftResult {A} I (r : Result A) : keeps I (liftResult r).
Proof. intros w a' w'. unfold liftResult. by destruct r; intros [= <- <-]. Qed.

Lemma keeps_modify I (f : ModuleManager → ModuleManager) :
  (∀ mm, I mm → I (f mm)) → keeps I (modify f).
Proof. intros Hf w a' w' [= <- <-]. apply Hf. Qed.

Lemma ensures_modify I (f : ModuleManager → ModuleManager) :
  (∀ mm, I (f mm)) → ensures I (modify f).
Proof. intros Hf w a' w' [= <- <-]. apply Hf. Qed.

Lemma keeps_forEach {A} I (arr : list A) (body : A → M unit) :
  (∀ x, keeps I (body x)) → keeps I (forEach arr body).
Proof.
  intros Hbody. induction arr as [|x arr IH]; simpl.
  - apply keeps_ret.
  - apply keeps_bind; auto.
Qed.

Lemma keeps_dispatchActiveIdleChangeIfNeeded_ I :
  flagBlind I → keeps I dispatchActiveIdleChangeIfNeeded_.
Proof.
  intros HI w a w'. rewrite dispatchActiveIdleChangeIfNeeded_run.
  intros [= <- <-]. apply HI.
Qed.

Lemma keeps_execute I fn arg : keeps I (execute fn arg).
Proof.
  destruct fn; simpl; auto using keeps_fire, keeps_emit.
Qed.

Lemma keeps_callCallbacks_ I callbacks arg :
  keeps I (callCallbacks_ callbacks arg).
Proof. apply keeps_forEach. intros fn. apply keeps_execute. Qed.

Lemma keeps_resolve I fuel id : keeps I (resolve fuel id).
Proof.
  apply keeps_bind; [apply keeps_gets|]. intros m. apply keeps_liftResult.
Qed.

Lemma keeps_isModuleLoading I id : keeps I (isModuleLoading id).
Proof. apply keeps_gets. Qed.

Lemma keeps_filterDependents I fuel queue id :
  keeps I (filterDependents fuel queue id).
Proof.
  induction queue as [|requestedId queue IH]; simpl; [apply keeps_ret|].
  apply keeps_bind; [apply keeps_resolve|]. intros deps.
  apply keeps_bind; [done|]. intros rest. apply keeps_ret.
Qed.

Create HintDb inv discriminated.

#[export] Hint Resolve keeps_ret keeps_gets keeps_emit keeps_newDeferred
  keeps_fire keeps_setTimeout keeps_liftResult ensures_throw keeps_execute
  keeps_callCallbacks_ keeps_resolve keeps_isModuleLoading
  keeps_filterDependents keeps_dispatchActiveIdleChangeIfNeeded_ : inv.
#[export] Hint Resolve ensures_keeps | 10 : inv.

(** Splits a method into its steps and settles those that are known; an
    assignment that the invariant does not look at is settled by
    computation. *)
Ltac inv_steps :=
  repeat first
    [ progress eauto 3 with inv
    | apply keeps_modify; intros ? ?; assumption
    | apply keeps_forEach; intros ?
    | apply ensures_bind_l; [solve [eauto 3 with inv]|intros ?]
    | apply ensures_bind; intros ?
    | apply keeps_bind; [|intros ?]
    | match goal with
      | |- ensures _ (if ?b then _ else _) => destruct b
      | |- keeps _ (if ?b then _ else _) => destruct b
      | |- ensures _ (match ?x with _ => _ end) => destruct x
      | |- keeps _ (match ?x with _ => _ end) => destruct x
      end ].

(** *** Nothing queued while nothing loads *)

Lemma flagBlind_queueEmptyWhenIdle : flagBlind queueEmptyWhenIdle.
Proof. by intros mm a u H. Qed.
#[export] Hint Resolve flagBlind_queueEmptyWhenIdle : inv.

Lemma dispatchedIds_nonempty batch ids :
  dispatchedIds batch ids = [] → ids = [].
Proof.
  unfold dispatchedIds. destruct (negb batch && _); [|done].
  by destruct ids.
Qed.

Lemma idle_loadModule_ fuel id opt_isRetry :
  ensures queueEmptyWhenIdle (loadModule_ fuel id opt_isRetry).
Proof.
  intros w [] w' (info & ids & Hid & Hl & Hres & ->)%loadModule__inv Hidle.
  exfalso. simpl in Hidle. unfold loadModuleUpdate in Hidle.
  simpl in Hidle. apply dispatchedIds_nonempty in Hidle as ->.
  by apply resolved_self, elem_of_nil in Hres.
Qed.
#[export] Hint Resolve idle_loadModule_ : inv.

Lemma idle_loadModuleOrEnqueue_ fuel id :
  keeps queueEmptyWhenIdle (loadModuleOrEnqueue_ fuel id).
Proof.
  intros w [] w'. unfold loadModuleOrEnqueue_. rewrite bind_gets.
  destruct (loadingModuleIds_ (manager w)) as [|x loading] eqn:Hloading.
  - intros Hrun _. by eapply idle_loadModule_.
  - rewrite bind_modify, dispatchActiveIdleChangeIfNeeded_run.
    intros [= <-] _. unfold queueEmptyWhenIdle. simpl. by rewrite Hloading.
Qed.
#[export] Hint Resolve idle_loadModuleOrEnqueue_ : inv.

Lemma idle_loadNextModule_ fuel :
  ensures queueEmptyWhenIdle (loadNextModule_ fuel).
Proof.
  intros w [] w'. unfold loadNextModule_. rewrite bind_gets.
  rewrite loadNextModule_from_run.
  destruct (nextToLoad _ _) as [[nextId rest]|].
  - apply idle_loadModule_.
  - destruct (requestedModuleIdsQueue_ (manager w)) eqn:Hq;
      rewrite dispatchActiveIdleChangeIfNeeded_run; intros [= <-];
      by intros _.
Qed.
#[export] Hint Resolve idle_loadNextModule_ : inv.

Lemma idle_setLoaded fuel id :
  ensures queueEmptyWhenIdle (setLoaded fuel id).
Proof.
  unfold setLoaded, getModuleInfo.
  do 3 (apply ensures_bind; intros ?).
  destruct a1 as [info|]; [|inv_steps].
  apply ensures_bind. intros _.
  intros w [] w'. rewrite bind_gets.
  destruct (loadingModuleIds_ (manager w)) as [|x loading] eqn:Hloading.
  - apply ensures_bind_l; inv_steps.
  - rewrite bind_ret, dispatchActiveIdleChangeIfNeeded_run.
    intros [= <-]. unfold queueEmptyWhenIdle. simpl. by rewrite Hloading.
Qed.

Lemma idle_dispatchModuleLoadFailed_ fuel cause (k : M unit) :
  ensures queueEmptyWhenIdle k →
  ensures queueEmptyWhenIdle (dispatchModuleLoadFailed_ fuel cause ;; k).
Proof. intros Hk. by apply ensures_bind. Qed.

Lemma idle_handleLoadError_ fuel status :
  ensures queueEmptyWhenIdle (handleLoadError_ fuel status).
Proof.
  unfold handleLoadError_. inv_steps.
  apply ensures_modify. by intros mm.
Qed.

Lemma idle_handleLoadTimeout_ fuel :
  ensures queueEmptyWhenIdle (handleLoadTimeout_ fuel).
Proof. unfold handleLoadTimeout_. inv_steps. Qed.

Lemma idle_putModuleInfo id info :
  keeps queueEmptyWhenIdle (putModuleInfo id info).
Proof. unfold putModuleInfo. inv_steps. Qed.
#[export] Hint Resolve idle_putModuleInfo : inv.

Lemma idle_registerCallback_on id fn :
  keeps queueEmptyWhenIdle (registerCallback_on id fn).
Proof. unfold registerCallback_on, getModuleInfo. inv_steps. Qed.

Lemma idle_registerErrback_on id fn :
  keeps queueEmptyWhenIdle (registerErrback_on id fn).
Proof. unfold registerErrback_on, getModuleInfo. inv_steps. Qed.
#[export] Hint Resolve idle_registerCallback_on idle_registerErrback_on : inv.

Lemma idle_load fuel moduleId :
  keeps queueEmptyWhenIdle (load fuel moduleId).
Proof. unfold load, getModuleInfo. inv_steps. Qed.

Lemma idle_execOnLoad fuel moduleId f h noLoad userInitiated sync :
  keeps queueEmptyWhenIdle
    (execOnLoad fuel moduleId f h noLoad userInitiated sync).
Proof. unfold execOnLoad, getModuleInfo, pushUserInitiated. inv_steps. Qed.

Lemma idle_loadModuleOrEnqueueIfNotLoadedOrLoading_ fuel id d :
  keeps queueEmptyWhenIdle
    (loadModuleOrEnqueueIfNotLoadedOrLoading_ fuel id d).
Proof.
  unfold loadModuleOrEnqueueIfNotLoadedOrLoading_, getModuleInfo. inv_steps.
Qed.

Lemma keeps_runTimeout I fuel i :
  (∀ id d, keeps I (loadModuleOrEnqueueIfNotLoadedOrLoading_ fuel id d)) →
  keeps I (runTimeout fuel i).
Proof.
  intros Hload w a w'. unfold runTimeout.
  destruct (timeouts w !! i) as [[fn|id d]|]; [| |by intros [= <- <-]].
  - intros Hrun HI. by eapply keeps_execute.
  - intros Hrun HI. by eapply Hload.
Qed.

Lemma idle_runOp fuel op : keeps queueEmptyWhenIdle (runOp fuel op).
Proof.
  destruct op; simpl.
  - unfold setBatchModeEnabled. inv_steps.
  - unfold setAllModuleInfo. inv_steps.
  - unfold setModuleContext. inv_steps.
  - unfold registerCallback, registerCallback_. inv_steps.
  - apply keeps_bind; [apply idle_load|inv_steps].
  - apply idle_execOnLoad.
  - unfold preloadModule. inv_steps.
  - apply keeps_runTimeout, idle_loadModuleOrEnqueueIfNotLoadedOrLoading_.
  - unfold beforeLoadModuleCode. inv_steps.
  - unfold afterLoadModuleCode. inv_steps.
  - unfold registerInitializationCallback, getModuleInfo. inv_steps.
  - apply ensures_keeps, idle_setLoaded.
  - apply ensures_keeps, idle_handleLoadError_.
  - apply ensures_keeps, idle_handleLoadTimeout_.
Qed.

Lemma keeps_runOps I fuel ops :
  (∀ op, keeps I (runOp fuel op)) → keeps I (runOps fuel ops).
Proof.
  intros Hop. induction ops as [|op ops IH]; simpl.
  - apply keeps_ret.
  - apply keeps_bind; [apply Hop|done].
Qed.

(** X4: an operation that returns leaves no id waiting in the queue while
    nothing is with the loader, if none was: from a state in which
    [loadingModuleIds_] is empty only if [requestedModuleIdsQueue_] is, as
    in a new manager, every sequence of operations that return leads to
    such a state. *)
Theorem no_queue_while_idle (fuel : nat) (ops : list Op) (w w' : World) :
  queueEmptyWhenIdle (manager w) →
  runOps fuel ops w = Ok (tt, w') →
  queueEmptyWhenIdle (manager w').
Proof.
  intros Hidle Hrun.
  by eapply (keeps_runOps _ fuel ops (idle_runOp fuel)).
Qed.

Lemma no_queue_while_idle_witness :
  queueEmptyWhenIdle (manager newWorld) ∧
  runOps 10 [OpSetAllModuleInfo chainInfo; OpLoad "C"; OpSetLoaded "A";
             OpHandleLoadTimeout] newWorld =
    Ok (tt, worldAfter 10 [OpSetAllModuleInfo chainInfo; OpLoad "C";
                           OpSetLoaded "A"; OpHandleLoadTimeout]) ∧
  queueEmptyWhenIdle
    (manager (worldAfter 10 [OpSetAllModuleInfo chainInfo; OpLoad "C";
                             OpSetLoaded "A"; OpHandleLoadTimeout])).
Proof.
  assert (queueEmptyWhenIdle (manager newWorld)) as Hidle by done.
  assert (runOps 10 [OpSetAllModuleInfo chainInfo; OpLoad "C";
                     OpSetLoaded "A"; OpHandleLoadTimeout] newWorld =
          Ok (tt, worldAfter 10 [OpSetAllModuleInfo chainInfo; OpLoad "C";
                                 OpSetLoaded "A"; OpHandleLoadTimeout]))
    as Hrun by (vm_compute; reflexivity).
  split; [exact Hidle|]. split; [exact Hrun|].
  exact (no_queue_while_idle 10 _ newWorld _ Hidle Hrun).
Defined.

(** *** What is with the loader is not loaded *)

Lemma flagBlind_loadingPending : flagBlind loadingPending.
Proof. by intros mm a u H. Qed.
#[export] Hint Resolve flagBlind_loadingPending : inv.

Lemma resolved_NoDup m fuel id l :
  getNotYetLoadedTransitiveDepIds_ m fuel id = Ok l → NoDup l.
Proof.
  unfold getNotYetLoadedTransitiveDepIds_.
  destruct (collectedDepIds m fuel id); [|done..].
  intros [= <-]. apply NoDup_removeDuplicates.
Qed.

Lemma dispatchedIds_NoDup batch ids :
  NoDup ids → NoDup (dispatchedIds batch ids).
Proof.
  unfold dispatchedIds. destruct (negb batch && _); [|done].
  intros Hnodup. eapply sublist_NoDup; [exact Hnodup|apply sublist_take].
Qed.

Lemma pending_loadModule_ fuel id opt_isRetry :
  ensures loadingPending (loadModule_ fuel id opt_isRetry).
Proof.
  intros w [] w' (info & ids & Hid & Hl & Hres & ->)%loadModule__inv.
  split.
  - simpl. unfold loadModuleUpdate. cbn [loadingModuleIds_
      set_loadingModuleIds_].
    apply dispatchedIds_NoDup. by eapply resolved_NoDup.
  - intros x. simpl. unfold loadModuleUpdate. cbn [loadingModuleIds_
      set_loadingModuleIds_].
    intros Hx%dispatchedIds_subseteq.
    assert (moduleInfoMap_
              ((if opt_isRetry then λ mm, mm else set_consecutiveFailures_ 0)
                 (set_requestedModuleIdsQueue_
                    (postponedIds (batchModeEnabled_ (manager w)) ids ++
                     requestedModuleIdsQueue_ (manager w)) (manager w))) =
            moduleInfoMap_ (manager w)) as Hmap by (by destruct opt_isRetry).
    change (notYetLoaded (moduleInfoMap_
              ((if opt_isRetry then λ mm, mm else set_consecutiveFailures_ 0)
                 (set_requestedModuleIdsQueue_
                    (postponedIds (batchModeEnabled_ (manager w)) ids ++
                     requestedModuleIdsQueue_ (manager w)) (manager w)))) x).
    rewrite Hmap.
    destruct (resolved_notYetLoaded _ _ _ _ _ Hres Hx) as [->|?]; [|done].
    by exists info.
Qed.
#[export] Hint Resolve pending_loadModule_ : inv.

Lemma loadingPending_insert mm id info info' :
  moduleInfoMap_ mm !! id = Some info →
  isLoaded info' = isLoaded info →
  loadingPending mm →
  loadingPending
    (set_moduleInfoMap_ (<[id := info']> (moduleInfoMap_ mm)) mm).
Proof.
  intros Hid Hl [Hnodup Hpending]. split; [done|].
  intros x Hx. destruct (Hpending x Hx) as (xinfo & Hxinfo & Hxl).
  simpl. destruct (decide (x = id)) as [->|Hne].
  - exists info'. rewrite lookup_insert_eq. split; [done|]. congruence.
  - exists xinfo. by rewrite lookup_insert_ne.
Qed.

Lemma pending_registerCallback_on id fn :
  keeps loadingPending (registerCallback_on id fn).
Proof.
  intros w [] w' (info & Hid & ->)%registerCallback_on_inv.
  intros Hpending. by apply (loadingPending_insert _ _ info).
Qed.

Lemma pending_registerErrback_on id fn :
  keeps loadingPending (registerErrback_on id fn).
Proof.
  intros w [] w' (info & Hid & ->)%registerErrback_on_inv.
  intros Hpending. by apply (loadingPending_insert _ _ info).
Qed.
#[export] Hint Resolve pending_registerCallback_on
  pending_registerErrback_on : inv.

Lemma pending_registerInitializationCallback f h :
  keeps loadingPending (registerInitializationCallback f h).
Proof.
  intros w [] w'. unfold registerInitializationCallback, getModuleInfo.
  rewrite bind_gets.
  destruct (negb (truthy (currentlyLoadingModule_ (manager w)))).
  { by intros [= <-]. }
  rewrite bind_gets.
  destruct (moduleInfoMap_ (manager w) !! _) as [info|] eqn:Hid; [|done].
  intros [= <-] Hpending. by apply (loadingPending_insert _ _ info).
Qed.

Lemma pending_setAllModuleInfo infoMap :
  keeps loadingPending (setAllModuleInfo infoMap).
Proof.
  apply keeps_modify. intros mm [Hnodup Hpending]. split; [done|].
  intros x Hx. destruct (Hpending x Hx) as (xinfo & Hxinfo & Hxl).
  simpl. unfold notYetLoaded. rewrite lookup_union, lookup_fmap.
  destruct (infoMap !! x) as [deps|]; simpl.
  - rewrite Hxinfo. simpl. by eexists.
  - rewrite Hxinfo. simpl. by eexists.
Qed.

(** Nothing is with the loader. *)
Lemma nothing_loading_pending mm :
  loadingModuleIds_ mm = [] → loadingPending mm.
Proof.
  intros Hl. unfold loadingPending. rewrite Hl. split; [constructor|].
  by intros x ?%elem_of_nil.
Qed.

Lemma ensures_weaken {A} (I J : ModuleManager → Prop) (c : M A) :
  (∀ mm, I mm → J mm) → ensures I c → ensures J c.
Proof. intros HIJ Hc w a w' Hrun. apply HIJ. by eapply Hc. Qed.

Lemma flagBlind_nothing_loading :
  flagBlind (λ mm, loadingModuleIds_ mm = []).
Proof. by intros mm a u H. Qed.
#[export] Hint Resolve flagBlind_nothing_loading : inv.

Lemma pending_dispatchModuleLoadFailed_ fuel cause :
  ensures loadingPending (dispatchModuleLoadFailed_ fuel cause).
Proof.
  apply (ensures_weaken _ _ _ nothing_loading_pending).
  unfold dispatchModuleLoadFailed_. apply ensures_bind. intros loading.
  apply ensures_bind_l; [by apply ensures_modify|]. intros _.
  unfold getModuleInfo, onError, putModuleInfo. inv_steps.
Qed.
#[export] Hint Resolve pending_dispatchModuleLoadFailed_ : inv.

Lemma pending_loadNextModule_from fuel queue :
  keeps loadingPending (loadNextModule_from fuel queue).
Proof.
  induction queue as [|nextId queue IH]; simpl; unfold getModuleInfo;
    inv_steps.
Qed.
#[export] Hint Resolve pending_loadNextModule_from : inv.

Lemma pending_loadNextModule_ fuel :
  keeps loadingPending (loadNextModule_ fuel).
Proof. unfold loadNextModule_. inv_steps. Qed.
#[export] Hint Resolve pending_loadNextModule_ : inv.

Lemma NoDup_remove l x : NoDup l → NoDup (goog_array.remove l x).
Proof.
  induction 1 as [|y l Hy Hnodup IH]; simpl; [constructor|].
  destruct (decide (y = x)); [done|].
  constructor; [|done]. intros Hin. apply Hy.
  clear -Hin. induction l as [|z l IH]; simpl in Hin; [done|].
  destruct (decide (z = x)); [by right|].
  apply elem_of_cons in Hin as [->|?]; [by left|right; auto].
Qed.

Lemma elem_of_remove_NoDup l x y :
  NoDup l → y ∈ goog_array.remove l x → y ∈ l ∧ y ≠ x.
Proof.
  induction 1 as [|z l Hz Hnodup IH]; simpl; [by intros ?%elem_of_nil|].
  destruct (decide (z = x)) as [->|Hne].
  - intros Hy. split; [by right|]. by intros ->.
  - intros [->|Hy]%elem_of_cons; [split; [by left|done]|].
    destruct (IH Hy). split; [by right|done].
Qed.

Lemma pending_setLoaded fuel id : keeps loadingPending (setLoaded fuel id).
Proof.
  intros w [] w'. unfold setLoaded, getModuleInfo.
  rewrite !bind_modify, bind_gets.
  cbn [manager setManager moduleInfoMap_ loadingModuleIds_
       set_loadingModuleIds_ set_userInitiatedLoadingModuleIds_].
  destruct (moduleInfoMap_ (manager w) !! id) as [info|] eqn:Hid; [|done].
  erewrite bind_Ok by apply onLoad_run.
  intros Hrun [Hnodup Hpending]. revert Hrun.
  match goal with
  | |- ?c ?w1 = _ → _ =>
      assert (keeps loadingPending c) as Hrest by inv_steps;
      intros Hrun; apply (Hrest _ _ _ Hrun)
  end.
  split; simpl.
  - by apply NoDup_remove.
  - intros x [Hx Hne]%elem_of_remove_NoDup; [|done].
    destruct (Hpending x Hx) as (xinfo & Hxinfo & Hxl).
    exists xinfo. by rewrite lookup_insert_ne.
Qed.

Lemma pending_handleLoadError_ fuel status :
  ensures loadingPending (handleLoadError_ fuel status).
Proof.
  unfold handleLoadError_. inv_steps.
Qed.

Lemma pending_handleLoadTimeout_ fuel :
  ensures loadingPending (handleLoadTimeout_ fuel).
Proof. unfold handleLoadTimeout_. inv_steps. Qed.

Lemma pending_loadModuleOrEnqueue_ fuel id :
  keeps loadingPending (loadModuleOrEnqueue_ fuel id).
Proof. unfold loadModuleOrEnqueue_. inv_steps. Qed.
#[export] Hint Resolve pending_loadModuleOrEnqueue_ : inv.

Lemma pending_load fuel moduleId :
  keeps loadingPending (load fuel moduleId).
Proof. unfold load, getModuleInfo. inv_steps. Qed.

Lemma pending_execOnLoad fuel moduleId f h noLoad userInitiated sync :
  keeps loadingPending
    (execOnLoad fuel moduleId f h noLoad userInitiated sync).
Proof. unfold execOnLoad, getModuleInfo, pushUserInitiated. inv_steps. Qed.

Lemma pending_loadModuleOrEnqueueIfNotLoadedOrLoading_ fuel id d :
  keeps loadingPending
    (loadModuleOrEnqueueIfNotLoadedOrLoading_ fuel id d).
Proof.
  unfold loadModuleOrEnqueueIfNotLoadedOrLoading_, getModuleInfo. inv_steps.
Qed.

Lemma pending_runOp fuel op : keeps loadingPending (runOp fuel op).
Proof.
  destruct op; simpl.
  - unfold setBatchModeEnabled. inv_steps.
  - apply pending_setAllModuleInfo.
  - unfold setModuleContext. inv_steps.
  - unfold registerCallback, registerCallback_. inv_steps.
  - apply keeps_bind; [apply pending_load|inv_steps].
  - apply pending_execOnLoad.
  - unfold preloadModule. inv_steps.
  - apply keeps_runTimeout,
      pending_loadModuleOrEnqueueIfNotLoadedOrLoading_.
  - unfold beforeLoadModuleCode. inv_steps.
  - unfold afterLoadModuleCode. inv_steps.
  - apply pending_registerInitializationCallback.
  - apply pending_setLoaded.
  - apply ensures_keeps, pending_handleLoadError_.
  - apply ensures_keeps, pending_handleLoadTimeout_.
Qed.

(** ** preloadModule and its timer *)

Lemma bind_newDeferred {B} (k : nat → M B) (w : World) :
  bind newDeferred k w =
  k (length (deferreds w))
    {| manager := manager w; deferreds := deferreds w ++ [Unfired];
       timeouts := timeouts w; calls := calls w |}.
Proof. done. Qed.

Lemma bind_setTimeout {B} (t : Scheduled) (k : unit → M B) (w : World) :
  bind (setTimeout t) k w =
  k tt {| manager := manager w; deferreds := deferreds w;
          timeouts := timeouts w ++ [t]; calls := calls w |}.
Proof. done. Qed.

Lemma delete_last_snoc {A} (l : list A) (x : A) :
  delete (length l) (l ++ [x]) = l.
Proof. induction l as [|y l IH]; simpl; [done|]. by rewrite IH. Qed.

Lemma bind_registerCallback_on {B} id fn info (k : unit → M B) w :
  moduleInfoMap_ (manager w) !! id = Some info →
  bind (registerCallback_on id fn) k w =
  k tt (setManager
          (set_moduleInfoMap_
             (<[id := registerCallback_info fn info]>
                (moduleInfoMap_ (manager w))) (manager w)) w).
Proof.
  intros Hid. unfold registerCallback_on, getModuleInfo, putModuleInfo.
  by rewrite bind_assoc, bind_gets, Hid, bind_modify.
Qed.

Lemma bind_registerErrback_on {B} id fn info (k : unit → M B) w :
  moduleInfoMap_ (manager w) !! id = Some info →
  bind (registerErrback_on id fn) k w =
  k tt (setManager
          (set_moduleInfoMap_
             (<[id := registerErrback_info fn info]>
                (moduleInfoMap_ (manager w))) (manager w)) w).
Proof.
  intros Hid. unfold registerErrback_on, getModuleInfo, putModuleInfo.
  by rewrite bind_assoc, bind_gets, Hid, bind_modify.
Qed.

(** X6: preloadModule only creates the deferred and sets a timer; when
    that timer runs next, the two together leave exactly what load leaves,
    the same deferred, calls, manager and failure included. *)
Theorem preload_and_its_timer_do_what_load_does
    (fuel : nat) (id : string) (w : World) :
  (let* d := preloadModule id in
   runTimeout fuel (length (timeouts w)) ;; ret d) w =
  load fuel id w.
Proof.
  unfold preloadModule, load, getModuleInfo.
  rewrite bind_assoc, bind_newDeferred, bind_assoc, bind_setTimeout,
    bind_ret, bind_gets, bind_newDeferred.
  set (d := length (deferreds w)).
  unfold bind at 1. unfold runTimeout at 1.
  cbn [timeouts manager deferreds calls].
  rewrite list_lookup_middle by done. rewrite delete_last_snoc.
  set (wd := {| manager := manager w; deferreds := deferreds w ++ [Unfired];
                timeouts := timeouts w; calls := calls w |}).
  change (bind (loadModuleOrEnqueueIfNotLoadedOrLoading_ fuel id d)
            (λ _, ret d) wd =
          match moduleInfoMap_ (manager w) !! id with
          | Some moduleInfo =>
              (if isLoaded moduleInfo then
                 let* context := gets moduleContext_ in
                 execute (DeferredCallback d) (ArgContext context)
               else
                 let* loading := isModuleLoading id in
                 if loading then
                   registerCallback_on id (DeferredCallback d) ;;
                   registerErrback_on id (DeferredErrback d)
                 else
                   registerCallback_on id (DeferredCallback d) ;;
                   registerErrback_on id (DeferredErrback d) ;;
                   loadModuleOrEnqueue_ fuel id) ;;
              ret d
          | None => throw TypeError
          end wd).
  unfold loadModuleOrEnqueueIfNotLoadedOrLoading_, getModuleInfo.
  rewrite bind_assoc, bind_gets. change (manager wd) with (manager w).
  destruct (moduleInfoMap_ (manager w) !! id) as [info|] eqn:Hid; [|done].
  destruct (isLoaded info); [done|].
  assert (∀ f, moduleInfoMap_
                 (manager
                    (setManager
                       (set_moduleInfoMap_
                          (<[id := f]> (moduleInfoMap_ (manager wd)))
                          (manager wd)) wd)) !! id = Some f) as Hid'.
  { intros f. apply lookup_insert_eq. }
  rewrite !bind_assoc.
  rewrite (bind_registerCallback_on _ _ info) by done.
  rewrite bind_assoc.
  rewrite (bind_registerErrback_on _ _ _ _ _ (Hid' _)).
  unfold isModuleLoading. rewrite bind_assoc, !bind_gets.
  cbn [manager setManager loadingModuleIds_ requestedModuleIdsQueue_
       set_moduleInfoMap_].
  change (manager wd) with (manager w).
  destruct (goog_array.contains (loadingModuleIds_ (manager w)) id
            || goog_array.contains (requestedModuleIdsQueue_ (manager w)) id).
  - rewrite bind_ret, bind_assoc.
    rewrite (bind_registerCallback_on _ _ info) by done.
    by rewrite (bind_registerErrback_on _ _ _ _ _ (Hid' _)).
  - rewrite !bind_assoc.
    rewrite (bind_registerCallback_on _ _ info) by done.
    rewrite bind_assoc.
    by rewrite (bind_registerErrback_on _ _ _ _ _ (Hid' _)).
Qed.

(** ** Who changes the dependency graph *)

Lemma resolve_inv fuel id w ids w' :
  resolve fuel id w = Ok (ids, w') →
  w' = w ∧
  getNotYetLoadedTransitiveDepIds_ (moduleInfoMap_ (manager w)) fuel id =
    Ok ids.
Proof.
  unfold resolve. rewrite bind_gets. unfold liftResult.
  destruct (getNotYetLoadedTransitiveDepIds_ _ _ _); [|done..].
  by intros [= <- <-].
Qed.

Lemma filterDependents_inv fuel queue failed w r w' :
  filterDependents fuel queue failed w = Ok (r, w') →
  Forall (λ requestedId,
            is_Ok (getNotYetLoadedTransitiveDepIds_
                     (moduleInfoMap_ (manager w)) fuel requestedId)) queue.
Proof.
  revert r w'. induction queue as [|requestedId queue IH]; intros r w';
    simpl; [constructor|].
  intros (ids & w1 & [-> Hids]%resolve_inv & Hrest)%bind_Ok_inv.
  apply bind_Ok_inv in Hrest as (rest & w2 & Hrest & _).
  constructor; [by exists ids|by eapply IH].
Qed.

(** What dispatchModuleLoadFailed_ returned, when it returned. *)
Lemma dispatchModuleLoadFailed__inv fuel cause w w' :
  dispatchModuleLoadFailed_ fuel cause w = Ok (tt, w') →
  queueResolves (manager w) fuel ∧ w' = failureWorld w fuel cause.
Proof.
  intros Hrun.
  assert (queueResolves (manager w) fuel) as Hqueue.
  { unfold dispatchModuleLoadFailed_ in Hrun.
    rewrite bind_gets, bind_modify, bind_gets in Hrun.
    apply bind_Ok_inv in Hrun as (r & w1 & Hfilter & _).
    by apply filterDependents_inv in Hfilter. }
  split; [done|].
  rewrite dispatchModuleLoadFailed_run in Hrun by done. congruence.
Qed.

Lemma sameGraph_refl m : sameGraph m m.
Proof. done. Qed.

Lemma sameGraph_trans m1 m2 m3 :
  sameGraph m1 m2 → sameGraph m2 m3 → sameGraph m1 m3.
Proof. intros H12 H23 x. by rewrite H12. Qed.

Lemma flagBlind_graphIs m : flagBlind (graphIs m).
Proof. by intros mm a u H. Qed.
#[export] Hint Resolve flagBlind_graphIs : inv.

Lemma graphIs_insert m mm id info info' :
  moduleInfoMap_ mm !! id = Some info →
  getDependencies info' = getDependencies info →
  isLoaded info' = isLoaded info →
  graphIs m mm →
  graphIs m (set_moduleInfoMap_ (<[id := info']> (moduleInfoMap_ mm)) mm).
Proof.
  intros Hid Hdeps Hl Hsame x. rewrite (Hsame x). simpl.
  destruct (decide (id = x)) as [<-|Hne].
  - rewrite lookup_insert_eq, Hid. simpl. by rewrite Hdeps, Hl.
  - by rewrite lookup_insert_ne.
Qed.

Lemma graph_registerCallback_on m id fn :
  keeps (graphIs m) (registerCallback_on id fn).
Proof.
  intros w [] w' (info & Hid & ->)%registerCallback_on_inv Hsame.
  by apply (graphIs_insert _ _ _ info).
Qed.

Lemma graph_registerErrback_on m id fn :
  keeps (graphIs m) (registerErrback_on id fn).
Proof.
  intros w [] w' (info & Hid & ->)%registerErrback_on_inv Hsame.
  by apply (graphIs_insert _ _ _ info).
Qed.
#[export] Hint Resolve graph_registerCallback_on graph_registerErrback_on
  : inv.

Lemma graph_registerInitializationCallback m f h :
  keeps (graphIs m) (registerInitializationCallback f h).
Proof.
  intros w [] w'. unfold registerInitializationCallback, getModuleInfo.
  rewrite bind_gets.
  destruct (negb (truthy (currentlyLoadingModule_ (manager w)))).
  { by intros [= <-]. }
  rewrite bind_gets.
  destruct (moduleInfoMap_ (manager w) !! _) as [info|] eqn:Hid; [|done].
  intros [= <-] Hsame. by apply (graphIs_insert _ _ _ info).
Qed.

Lemma graph_dispatchModuleLoadFailed_ m fuel cause :
  keeps (graphIs m) (dispatchModuleLoadFailed_ fuel cause).
Proof.
  intros w [] w' [_ ->]%dispatchModuleLoadFailed__inv Hsame.
  eapply sameGraph_trans; [done|]. apply afterFailure_sameGraph.
Qed.
#[export] Hint Resolve graph_dispatchModuleLoadFailed_ : inv.

Lemma graph_loadModule_ m fuel id opt_isRetry :
  keeps (graphIs m) (loadModule_ fuel id opt_isRetry).
Proof. unfold loadModule_, getModuleInfo. inv_steps. Qed.
#[export] Hint Resolve graph_loadModule_ : inv.

Lemma graph_loadNextModule_from m fuel queue :
  keeps (graphIs m) (loadNextModule_from fuel queue).
Proof.
  induction queue as [|nextId queue IH]; simpl; unfold getModuleInfo;
    inv_steps.
Qed.
#[export] Hint Resolve graph_loadNextModule_from : inv.

Lemma graph_loadNextModule_ m fuel :
  keeps (graphIs m) (loadNextModule_ fuel).
Proof. unfold loadNextModule_. inv_steps. Qed.
#[export] Hint Resolve graph_loadNextModule_ : inv.

Lemma graph_loadModuleOrEnqueue_ m fuel id :
  keeps (graphIs m) (loadModuleOrEnqueue_ fuel id).
Proof. unfold loadModuleOrEnqueue_. inv_steps. Qed.
#[export] Hint Resolve graph_loadModuleOrEnqueue_ : inv.

Lemma graph_loadModuleOrEnqueueIfNotLoadedOrLoading_ m fuel id d :
  keeps (graphIs m) (loadModuleOrEnqueueIfNotLoadedOrLoading_ fuel id d).
Proof.
  unfold loadModuleOrEnqueueIfNotLoadedOrLoading_, getModuleInfo. inv_steps.
Qed.

Lemma graph_setLoaded fuel id w w' :
  setLoaded fuel id w = Ok (tt, w') →
  ∃ info, moduleInfoMap_ (manager w) !! id = Some info ∧
          sameGraph (<[id := markLoaded info]> (moduleInfoMap_ (manager w)))
            (moduleInfoMap_ (manager w')).
Proof.
  unfold setLoaded, getModuleInfo.
  rewrite !bind_modify, bind_gets.
  cbn [manager setManager moduleInfoMap_ loadingModuleIds_
       set_loadingModuleIds_ set_userInitiatedLoadingModuleIds_].
  destruct (moduleInfoMap_ (manager w) !! id) as [info|] eqn:Hid; [|done].
  erewrite bind_Ok by apply onLoad_run.
  intros Hrun. exists info. split; [done|]. revert Hrun.
  match goal with
  | |- ?c ?w1 = _ → _ =>
      assert (keeps (graphIs (<[id := markLoaded info]>
                                (moduleInfoMap_ (manager w)))) c)
        as Hrest by inv_steps;
      intros Hrun; apply (Hrest _ _ _ Hrun)
  end.
  apply sameGraph_refl.
Qed.

(** X7: what an operation that returns does to the registered modules,
    their dependency lists and their loaded flags.  setAllModuleInfo puts a
    new, not loaded record at every id it is given, over what was there;
    setLoaded marks the module it is called for loaded and changes no
    other flag; every other operation, a failure report included, leaves
    the ids, the dependency lists and the flags as they are. *)
Theorem only_setLoaded_marks_a_module_loaded
    (fuel : nat) (op : Op) (w w' : World) :
  runOp fuel op w = Ok (tt, w') →
  match op with
  | OpSetAllModuleInfo infoMap =>
      moduleInfoMap_ (manager w') =
      (newModuleInfo <$> infoMap) ∪ moduleInfoMap_ (manager w)
  | OpSetLoaded id =>
      ∃ info, moduleInfoMap_ (manager w) !! id = Some info ∧
              sameGraph
                (<[id := markLoaded info]> (moduleInfoMap_ (manager w)))
                (moduleInfoMap_ (manager w'))
  | _ => sameGraph (moduleInfoMap_ (manager w)) (moduleInfoMap_ (manager w'))
  end.
Proof.
  assert (∀ c : M unit,
            (∀ m, keeps (graphIs m) c) → c w = Ok (tt, w') →
            sameGraph (moduleInfoMap_ (manager w))
              (moduleInfoMap_ (manager w'))) as Hkeeps.
  { intros c Hc Hrun. apply (Hc _ _ _ _ Hrun). apply sameGraph_refl. }
  destruct op; simpl.
  - apply Hkeeps. intros m. unfold setBatchModeEnabled. inv_steps.
  - by intros [= <-].
  - apply Hkeeps. intros m. unfold setModuleContext. inv_steps.
  - apply Hkeeps. intros m. unfold registerCallback, registerCallback_.
    inv_steps.
  - apply Hkeeps. intros m. unfold load, getModuleInfo. inv_steps.
  - apply Hkeeps. intros m.
    unfold execOnLoad, getModuleInfo, pushUserInitiated. inv_steps.
  - apply Hkeeps. intros m. unfold preloadModule. inv_steps.
  - apply Hkeeps. intros m.
    apply keeps_runTimeout,
      graph_loadModuleOrEnqueueIfNotLoadedOrLoading_.
  - apply Hkeeps. intros m. unfold beforeLoadModuleCode. inv_steps.
  - apply Hkeeps. intros m. unfold afterLoadModuleCode. inv_steps.
  - apply Hkeeps. intros m. apply graph_registerInitializationCallback.
  - apply graph_setLoaded.
  - apply Hkeeps. intros m. unfold handleLoadError_. inv_steps.
  - apply Hkeeps. intros m. unfold handleLoadTimeout_. inv_steps.
Qed.

Lemma only_setLoaded_marks_a_module_loaded_witness :
  runOp 10 (OpSetLoaded "A") worldLoadingAForB =
    Ok (tt, after (runOp 10 (OpSetLoaded "A")) worldLoadingAForB) ∧
  ∃ info,
    moduleInfoMap_ (manager worldLoadingAForB) !! "A" = Some info ∧
    sameGraph
      (<["A" := markLoaded info]>
         (moduleInfoMap_ (manager worldLoadingAForB)))
      (moduleInfoMap_
         (manager (after (runOp 10 (OpSetLoaded "A")) worldLoadingAForB))).
Proof.
  assert (runOp 10 (OpSetLoaded "A") worldLoadingAForB =
          Ok (tt, after (runOp 10 (OpSetLoaded "A")) worldLoadingAForB))
    as Hrun by (vm_compute; reflexivity).
  split; [exact Hrun|].
  exact (only_setLoaded_marks_a_module_loaded 10 (OpSetLoaded "A")
           worldLoadingAForB _ Hrun).
Defined.

(** ** Failures that are not retried *)

(** A failure that is reported and followed by the next queued module. *)
Lemma failure_then_next fuel cause w others failed :
  loadingModuleIds_ (manager w) = others ++ [failed] →
  failed ≠ EmptyString →
  (∀ id, id ∈ requestedModuleIdsQueue_ (manager w) →
         is_Some (moduleInfoMap_ (manager w) !! id)) →
  queueResolves (manager w) fuel →
  ∃ w' events (cancelled : string → bool),
    (dispatchModuleLoadFailed_ fuel cause ;; loadNextModule_ fuel) w =
      Ok (tt, w') ∧
    calls w' = calls w ++ events ∧
    (∀ fn, fn ∈ registered (manager w) ERROR →
           NotifyError fn failed cause ∈ events) ∧
    (∀ ids, LoadModules ids ∈ events → failed ∉ ids) ∧
    (failed ∉ loadingModuleIds_ (manager w')) ∧
    (failed ∉ requestedModuleIdsQueue_ (manager w')) ∧
    (∀ id, id ∈ requestedModuleIdsQueue_ (manager w) →
       (cancelled id ↔
        id = failed ∨ tc (awaits (moduleInfoMap_ (manager w))) id failed)) ∧
    match nextToLoad (moduleInfoMap_ (manager w))
            (filter (λ id, ¬ cancelled id)
               (requestedModuleIdsQueue_ (manager w))) with
    | None =>
        loadingModuleIds_ (manager w') = [] ∧
        requestedModuleIdsQueue_ (manager w') = [] ∧
        ∀ ids, LoadModules ids ∉ events
    | Some (nextId, rest) =>
        ∃ ids,
          getNotYetLoadedTransitiveDepIds_ (moduleInfoMap_ (manager w)) fuel
            nextId = Ok ids ∧
          loadingModuleIds_ (manager w') =
            dispatchedIds (batchModeEnabled_ (manager w)) ids ∧
          requestedModuleIdsQueue_ (manager w') =
            postponedIds (batchModeEnabled_ (manager w)) ids ++ rest ∧
          ∀ ids', LoadModules ids' ∈ events ↔
                  ids' = dispatchedIds (batchModeEnabled_ (manager w)) ids
    end.
Proof.
  intros Hloading Hne Hreg Hqueue.
  erewrite bind_Ok by (by apply dispatchModuleLoadFailed_run).
  set (wf := failureWorld w fuel cause).
  set (m := moduleInfoMap_ (manager w)).
  set (cancelled := resolvesTo m fuel (Some failed)).
  set (remaining := filter (λ id, ¬ cancelled id)
                      (requestedModuleIdsQueue_ (manager w))).
  assert (failedId (manager w) = Some failed) as Hfailed
    by by apply (failedId_snoc _ others).
  assert (requestedModuleIdsQueue_ (manager wf) = remaining) as Hqf.
  { change (requestedModuleIdsQueue_ (manager wf))
      with (requestedModuleIdsQueue_ (afterFailure (manager w) fuel)).
    rewrite afterFailure_queue by done. by rewrite Hfailed. }
  assert (sameGraph m (moduleInfoMap_ (manager wf))) as Hsame.
  { apply (afterFailure_sameGraph (manager w)). }
  assert (∀ id l, getNotYetLoadedTransitiveDepIds_ m fuel id = Ok l →
            (cancelled id ↔ failed ∈ l)) as Hcancelled.
  { intros id l Hl. by apply resolvesTo_true. }
  assert (∀ id, id ∈ requestedModuleIdsQueue_ (manager w) →
            ∃ l, getNotYetLoadedTransitiveDepIds_ m fuel id = Ok l) as Hres.
  { intros id Hid. unfold queueResolves in Hqueue.
    rewrite Forall_forall in Hqueue. by apply Hqueue. }
  assert (failed ∉ remaining) as Hfr.
  { intros [Hnot Hq]%list_elem_of_filter. apply Hnot.
    destruct (Hres _ Hq) as [l Hl]. apply (Hcancelled _ _ Hl).
    by eapply resolved_self. }
  assert (∀ fn, fn ∈ registered (manager w) ERROR →
            NotifyError fn failed cause ∈
              failureCalls (manager w) fuel cause)
    as Hreported.
  { intros fn Hfn. apply NotifyError_failureCalls. split_and!; [done| |done].
    apply (elem_of_idsToCancel _ _ others failed); [done..|by left]. }
  assert (∀ id, id ∈ requestedModuleIdsQueue_ (manager w) →
            (cancelled id ↔ id = failed ∨ tc (awaits m) id failed))
    as Hspec.
  { intros id Hid. destruct (Hres _ Hid) as [l Hl].
    rewrite (Hcancelled _ _ Hl), (resolved_elem_of _ _ _ _ _ Hl).
    split; intros [?|?]; auto. }
  unfold loadNextModule_. rewrite bind_gets, loadNextModule_from_run.
  rewrite Hqf, <- (nextToLoad_sameGraph m _ remaining Hsame).
  destruct (nextToLoad m remaining) as [[nextId rest]|] eqn:Hnext.
  - pose proof (nextToLoad_Some _ _ _ _ Hnext)
      as [[skipped Hskipped] Hunloaded].
    assert (nextId ∈ remaining) as Hin by (rewrite Hskipped; set_solver).
    pose proof Hin as [Hnot Hq]%list_elem_of_filter.
    destruct (Hres _ Hq) as [ids Hids].
    destruct (Hreg _ Hq) as [info Hinfo].
    destruct (sameGraph_lookup _ _ _ _ Hsame Hinfo)
      as (info' & Hinfo' & _ & Hl').
    assert (failed ∉ ids) as Hfi.
    { intros Hfi. apply Hnot. by apply (Hcancelled _ _ Hids). }
    set (w2 := setManager _ wf).
    pose (mm' := loadModuleUpdate ids false (manager w2)).
    exists (addCalls
              (activeChange mm' ++ userActiveChange mm' ++
               [LoadModules
                  (dispatchedIds (batchModeEnabled_ (manager w2)) ids)])
              (setManager (syncFlags mm') w2)),
      (failureCalls (manager w) fuel cause ++
       activeChange mm' ++ userActiveChange mm' ++
       [LoadModules (dispatchedIds (batchModeEnabled_ (manager w2)) ids)]),
      cancelled.
    assert (batchModeEnabled_ (manager w2) = batchModeEnabled_ (manager w))
      as Hbatch.
    { apply (afterFailure_batchModeEnabled_ (manager w)). }
    assert (∀ ids', LoadModules ids' ∈
              failureCalls (manager w) fuel cause ++
              activeChange mm' ++ userActiveChange mm' ++
              [LoadModules
                 (dispatchedIds (batchModeEnabled_ (manager w2)) ids)] ↔
            ids' = dispatchedIds (batchModeEnabled_ (manager w)) ids)
      as Hloads.
    { intros ids'. rewrite !elem_of_app, list_elem_of_singleton, Hbatch.
      split; [|by intros ->; auto].
      intros [H|[H|[H|[= ->]]]]; [| | |done].
      - by apply not_LoadModules_failureCalls in H.
      - by apply elem_of_activeChange in H as (? & ? & ?).
      - by apply elem_of_userActiveChange in H as (? & ? & ?). }
    split_and!.
    + apply (loadModule_run _ _ _ _ info' ids); [done| |].
      * rewrite Hl'. by apply Hunloaded.
      * change (moduleInfoMap_ (manager w2))
          with (moduleInfoMap_ (manager wf)).
        by rewrite <- (resolver_sameGraph m _ fuel nextId Hsame).
    + simpl. by rewrite <- !app_assoc.
    + intros fn Hfn. apply elem_of_app. left. by apply Hreported.
    + intros ids' ->%Hloads Hf.
      by apply dispatchedIds_subseteq in Hf.
    + simpl. intros Hf. by apply dispatchedIds_subseteq in Hf.
    + change (requestedModuleIdsQueue_ (manager (addCalls _ (setManager (syncFlags mm') w2))))
        with (postponedIds (batchModeEnabled_ (manager w2)) ids ++ rest).
      intros [Hf%postponedIds_subseteq|Hf]%elem_of_app; [done|].
      apply Hfr. rewrite Hskipped. set_solver.
    + done.
    + fold remaining. rewrite Hnext.
      exists ids. split_and!; [done| | |done].
      * by rewrite <- Hbatch.
      * by rewrite <- Hbatch.
  - assert (∀ wx,
      loadingModuleIds_ (manager wx) = [] →
      requestedModuleIdsQueue_ (manager wx) = [] →
      calls wx = calls w ++
                 failureCalls (manager w) fuel cause →
      ∃ w' events (cancelled : string → bool),
        dispatchActiveIdleChangeIfNeeded_ wx = Ok (tt, w') ∧
        calls w' = calls w ++ events ∧
        (∀ fn, fn ∈ registered (manager w) ERROR →
               NotifyError fn failed cause ∈ events) ∧
        (∀ ids, LoadModules ids ∈ events → failed ∉ ids) ∧
        (failed ∉ loadingModuleIds_ (manager w')) ∧
        (failed ∉ requestedModuleIdsQueue_ (manager w')) ∧
        (∀ id, id ∈ requestedModuleIdsQueue_ (manager w) →
           (cancelled id ↔ id = failed ∨ tc (awaits m) id failed)) ∧
        match nextToLoad m
                (filter (λ id, ¬ cancelled id)
                   (requestedModuleIdsQueue_ (manager w))) with
        | None =>
            loadingModuleIds_ (manager w') = [] ∧
            requestedModuleIdsQueue_ (manager w') = [] ∧
            ∀ ids, LoadModules ids ∉ events
        | Some (nextId, rest) =>
            ∃ ids,
              getNotYetLoadedTransitiveDepIds_ m fuel nextId = Ok ids ∧
              loadingModuleIds_ (manager w') =
                dispatchedIds (batchModeEnabled_ (manager w)) ids ∧
              requestedModuleIdsQueue_ (manager w') =
                postponedIds (batchModeEnabled_ (manager w)) ids ++ rest ∧
              ∀ ids', LoadModules ids' ∈ events ↔
                      ids' = dispatchedIds (batchModeEnabled_ (manager w)) ids
        end) as Hidle.
    { intros wx Hlx Hqx Hcx.
      assert (∀ ids, LoadModules ids ∉
                failureCalls (manager w) fuel cause ++
                activeChange (manager wx) ++ userActiveChange (manager wx))
        as Hnone.
      { intros ids [H|[H|H]%elem_of_app]%elem_of_app.
        - by apply not_LoadModules_failureCalls in H.
        - by apply elem_of_activeChange in H as (? & ? & ?).
        - by apply elem_of_userActiveChange in H as (? & ? & ?). }
      exists (addCalls (activeChange (manager wx) ++
                        userActiveChange (manager wx))
                (setManager (syncFlags (manager wx)) wx)),
        (failureCalls (manager w) fuel cause ++
         activeChange (manager wx) ++ userActiveChange (manager wx)),
        cancelled.
      split_and!.
      - apply dispatchActiveIdleChangeIfNeeded_run.
      - simpl. by rewrite Hcx, <- !app_assoc.
      - intros fn Hfn. apply elem_of_app. left. by apply Hreported.
      - intros ids Hids. by apply Hnone in Hids.
      - simpl. rewrite Hlx. by intros ?%elem_of_nil.
      - simpl. rewrite Hqx. by intros ?%elem_of_nil.
      - done.
      - fold remaining. rewrite Hnext. by split_and!. }
    clear Hnext Hfr. clearbody remaining.
    destruct remaining.
    + apply Hidle; [|done..]. apply (afterFailure_loading (manager w)).
    + apply Hidle; [|done..]. apply (afterFailure_loading (manager w)).
Qed.


(** X8: a timeout is not retried.  On an acyclic map whose dependencies
    are all registered, with the queued ids registered and the failed id
    (the last of the loading ids) not the empty string, handleLoadTimeout_
    returns, given enough fuel: the error callbacks are called for the
    failed id with TIMEOUT, the failed id and the queued ids that await it
    leave the queue, and the first queued id left that is not loaded goes
    to the loader; no request made holds the failed id. *)
Theorem timeout_is_reported_and_not_retried
    (w : World) (others : list string) (failed : string) :
  acyclic (moduleInfoMap_ (manager w)) →
  closed (moduleInfoMap_ (manager w)) →
  (∀ id, id ∈ requestedModuleIdsQueue_ (manager w) →
         is_Some (moduleInfoMap_ (manager w) !! id)) →
  loadingModuleIds_ (manager w) = others ++ [failed] →
  failed ≠ EmptyString →
  ∃ n, ∀ fuel, n ≤ fuel →
    reportsAndMovesOn fuel TIMEOUT failed (handleLoadTimeout_ fuel) w.
Proof.
  intros Hacyc Hclosed Hreg Hloading Hne.
  destruct (queueResolves_uniform _ Hacyc Hclosed Hreg) as [n Hn].
  exists n. intros fuel Hfuel. destruct (Hn fuel Hfuel) as [Hqueue _].
  by apply (failure_then_next _ _ _ others).
Qed.

Lemma timeout_is_reported_and_not_retried_witness :
  acyclic (moduleInfoMap_ (manager worldLoadingAForB)) ∧
  closed (moduleInfoMap_ (manager worldLoadingAForB)) ∧
  (∀ id, id ∈ requestedModuleIdsQueue_ (manager worldLoadingAForB) →
         is_Some (moduleInfoMap_ (manager worldLoadingAForB) !! id)) ∧
  loadingModuleIds_ (manager worldLoadingAForB) = [] ++ ["A"] ∧
  "A" ≠ EmptyString ∧
  ∃ n, ∀ fuel, n ≤ fuel →
    reportsAndMovesOn fuel TIMEOUT "A" (handleLoadTimeout_ fuel)
      worldLoadingAForB.
Proof.
  assert ("A" ≠ EmptyString) as Hne by discriminate.
  split; [exact worldLoadingAForB_acyclic|].
  split; [exact worldLoadingAForB_closed|].
  split; [exact worldLoadingAForB_queue_registered|].
  split; [exact worldLoadingAForB_loading|].
  split; [exact Hne|].
  exact (timeout_is_reported_and_not_retried worldLoadingAForB [] "A"
           worldLoadingAForB_acyclic worldLoadingAForB_closed
           worldLoadingAForB_queue_registered worldLoadingAForB_loading Hne).
Defined.

(** X9: status 410 is not retried either, whatever the failure counter
    says.  Under the same conditions handleLoadError_ with status 410
    returns, given enough fuel: the error callbacks are called for the
    failed id with OLD_CODE_GONE, the failed id and the queued ids that
    await it leave the queue, and the first queued id left that is not
    loaded goes to the loader; no request made holds the failed id. *)
Theorem gone_is_reported_and_not_retried
    (w : World) (others : list string) (failed : string) :
  acyclic (moduleInfoMap_ (manager w)) →
  closed (moduleInfoMap_ (manager w)) →
  (∀ id, id ∈ requestedModuleIdsQueue_ (manager w) →
         is_Some (moduleInfoMap_ (manager w) !! id)) →
  loadingModuleIds_ (manager w) = others ++ [failed] →
  failed ≠ EmptyString →
  ∃ n, ∀ fuel, n ≤ fuel →
    reportsAndMovesOn fuel OLD_CODE_GONE failed (handleLoadError_ fuel 410) w.
Proof.
  intros Hacyc Hclosed Hreg Hloading Hne.
  destruct (queueResolves_uniform _ Hacyc Hclosed Hreg) as [n Hn].
  exists n. intros fuel Hfuel. destruct (Hn fuel Hfuel) as [Hqueue _].
  unfold reportsAndMovesOn. rewrite handleLoadError__counted.
  change ((410 =? 401)%Z) with false. change ((410 =? 410)%Z) with true.
  cbv iota.
  by apply (failure_then_next fuel OLD_CODE_GONE
              (setManager
                 (set_consecutiveFailures_
                    (consecutiveFailures_ (manager w) + 1) (manager w)) w)
              others).
Qed.

Lemma gone_is_reported_and_not_retried_witness :
  acyclic (moduleInfoMap_ (manager worldLoadingAForB)) ∧
  closed (moduleInfoMap_ (manager worldLoadingAForB)) ∧
  (∀ id, id ∈ requestedModuleIdsQueue_ (manager worldLoadingAForB) →
         is_Some (moduleInfoMap_ (manager worldLoadingAForB) !! id)) ∧
  loadingModuleIds_ (manager worldLoadingAForB) = [] ++ ["A"] ∧
  "A" ≠ EmptyString ∧
  ∃ n, ∀ fuel, n ≤ fuel →
    reportsAndMovesOn fuel OLD_CODE_GONE "A" (handleLoadError_ fuel 410)
      worldLoadingAForB.
Proof.
  assert ("A" ≠ EmptyString) as Hne by discriminate.
  split; [exact worldLoadingAForB_acyclic|].
  split; [exact worldLoadingAForB_closed|].
  split; [exact worldLoadingAForB_queue_registered|].
  split; [exact worldLoadingAForB_loading|].
  split; [exact Hne|].
  exact (gone_is_reported_and_not_retried worldLoadingAForB [] "A"
           worldLoadingAForB_acyclic worldLoadingAForB_closed
           worldLoadingAForB_queue_registered worldLoadingAForB_loading Hne).
Defined.

(** ** The next module *)

Lemma loadNextModule_from_skip fuel skipped rest w :
  requestedModuleIdsQueue_ (manager w) = skipped ++ rest →
  (∀ x, x ∈ skipped →
        ∃ info, moduleInfoMap_ (manager w) !! x = Some info ∧
                isLoaded info = true) →
  loadNextModule_from fuel (skipped ++ rest) w =
  loadNextModule_from fuel rest
    (setManager (set_requestedModuleIdsQueue_ rest (manager w)) w).
Proof.
  revert w. induction skipped as [|x skipped IH]; intros w Hq Hloaded.
  - simpl in *. by rewrite <- Hq, set_requestedModuleIdsQueue_same,
      setManager_same.
  - cbn [app loadNextModule_from]. rewrite bind_modify.
    unfold getModuleInfo. rewrite bind_gets.
    cbn [manager setManager moduleInfoMap_ set_requestedModuleIdsQueue_].
    destruct (Hloaded x) as (info & -> & ->); [by left|].
    rewrite IH; [done|done|].
    intros y Hy. apply Hloaded. by right.
Qed.

(** X10: loadNextModule_ passes over the queued ids whose module has been
    loaded in the meantime.  When the queue starts with such ids, they
    leave the queue; if nothing comes after them the queue is left empty
    and only the flags are looked at, and if an id of a module that is not
    loaded comes next, that id leaves the queue too and is loaded as by
    loadModule_, what is behind it staying queued in order. *)
Theorem loadNextModule_passes_over_loaded
    (fuel : nat) (w : World) (skipped rest : list string) :
  requestedModuleIdsQueue_ (manager w) = skipped ++ rest →
  (∀ x, x ∈ skipped →
        ∃ info, moduleInfoMap_ (manager w) !! x = Some info ∧
                isLoaded info = true) →
  match rest with
  | [] =>
      loadNextModule_ fuel w =
      dispatchActiveIdleChangeIfNeeded_
        (setManager (set_requestedModuleIdsQueue_ [] (manager w)) w)
  | nextId :: rest' =>
      notYetLoaded (moduleInfoMap_ (manager w)) nextId →
      loadNextModule_ fuel w =
      loadModule_ fuel nextId false
        (setManager (set_requestedModuleIdsQueue_ rest' (manager w)) w)
  end.
Proof.
  intros Hq Hloaded.
  assert (loadNextModule_ fuel w =
          loadNextModule_from fuel rest
            (setManager (set_requestedModuleIdsQueue_ rest (manager w)) w))
    as Hskip.
  { unfold loadNextModule_. rewrite bind_gets, Hq.
    by apply loadNextModule_from_skip. }
  destruct rest as [|nextId rest']; [done|].
  intros (info & Hinfo & Hl). rewrite Hskip.
  cbn [loadNextModule_from]. rewrite bind_modify.
  unfold getModuleInfo. rewrite bind_gets.
  cbn [manager setManager moduleInfoMap_ set_requestedModuleIdsQueue_].
  by rewrite Hinfo, Hl.
Qed.

Lemma loadNextModule_passes_over_loaded_witness :
  requestedModuleIdsQueue_ (manager worldWithLoadedInQueue) =
    ["B"] ++ ["C"] ∧
  (∀ x, x ∈ ["B"] →
        ∃ info,
          moduleInfoMap_ (manager worldWithLoadedInQueue) !! x = Some info ∧
          isLoaded info = true) ∧
  notYetLoaded (moduleInfoMap_ (manager worldWithLoadedInQueue)) "C" ∧
  loadNextModule_ 10 worldWithLoadedInQueue =
  loadModule_ 10 "C" false
    (setManager
       (set_requestedModuleIdsQueue_ [] (manager worldWithLoadedInQueue))
       worldWithLoadedInQueue).
Proof.
  assert (requestedModuleIdsQueue_ (manager worldWithLoadedInQueue) =
            ["B"] ++ ["C"]) as Hq by (vm_compute; reflexivity).
  assert (∀ x, x ∈ ["B"] →
            ∃ info,
              moduleInfoMap_ (manager worldWithLoadedInQueue) !! x =
                Some info ∧
              isLoaded info = true) as Hloaded.
  { intros x Hx. apply list_elem_of_singleton in Hx as ->.
    exists (markLoaded (pendingModule ["A"])). split; reflexivity. }
  assert (notYetLoaded (moduleInfoMap_ (manager worldWithLoadedInQueue)) "C")
    as Hnext.
  { exists (registerErrback_info (DeferredErrback 2)
              (registerCallback_info (DeferredCallback 2)
                 (pendingModule ["B"]))).
    split; reflexivity. }
  split; [exact Hq|]. split; [exact Hloaded|]. split; [exact Hnext|].
  exact (loadNextModule_passes_over_loaded 10 worldWithLoadedInQueue
           ["B"] ["C"] Hq Hloaded Hnext).
Defined.

(** ** load of a module that is not loaded *)

Lemma dispatched_or_postponed batch ids x :
  x ∈ ids → x ∈ dispatchedIds batch ids ∨ x ∈ postponedIds batch ids.
Proof.
  unfold dispatchedIds, postponedIds.
  destruct (negb batch && _); [|by left].
  rewrite <- (take_drop 1 ids) at 1. by intros ?%elem_of_app.
Qed.

Lemma loadModuleOrEnqueue__flight fuel id w w' :
  loadModuleOrEnqueue_ fuel id w = Ok (tt, w') →
  (id ∈ loadingModuleIds_ (manager w') ∨
   id ∈ requestedModuleIdsQueue_ (manager w')) ∧
  moduleInfoMap_ (manager w') = moduleInfoMap_ (manager w) ∧
  deferreds w' = deferreds w.
Proof.
  unfold loadModuleOrEnqueue_. rewrite bind_gets.
  destruct (loadingModuleIds_ (manager w)) as [|x loading] eqn:Hloading.
  - intros (info & ids & _ & _ & Hres & ->)%loadModule__inv.
    split; [|done].
    simpl. unfold loadModuleUpdate. simpl.
    destruct (dispatched_or_postponed (batchModeEnabled_ (manager w)) ids id)
      as [?|?]; [by eapply resolved_self|by left|].
    right. apply elem_of_app. by left.
  - rewrite bind_modify, dispatchActiveIdleChangeIfNeeded_run.
    intros [= <-]. simpl. split; [|done]. right. set_solver.
Qed.

(** X11: load of a registered module that is not loaded.  When it returns,
    the deferred it returns is new and has not fired, it is registered
    with the module both as callback and as errback, and the module is
    with the loader or waits in the queue. *)
Theorem load_leaves_the_module_on_its_way
    (fuel : nat) (moduleId : string) (w w' : World) (d : nat)
    (info : ModuleInfo) :
  moduleInfoMap_ (manager w) !! moduleId = Some info →
  isLoaded info = false →
  load fuel moduleId w = Ok (d, w') →
  d = length (deferreds w) ∧
  deferreds w' = deferreds w ++ [Unfired] ∧
  moduleInfoMap_ (manager w') !! moduleId =
    Some (registerErrback_info (DeferredErrback d)
            (registerCallback_info (DeferredCallback d) info)) ∧
  (moduleId ∈ loadingModuleIds_ (manager w') ∨
   moduleId ∈ requestedModuleIdsQueue_ (manager w')).
Proof.
  intros Hinfo Hl. unfold load, getModuleInfo.
  rewrite bind_gets, bind_newDeferred, Hinfo, Hl.
  set (wd := {| manager := manager w; deferreds := deferreds w ++ [Unfired];
                timeouts := timeouts w; calls := calls w |}).
  assert (∀ f, moduleInfoMap_
                 (manager
                    (setManager
                       (set_moduleInfoMap_
                          (<[moduleId := f]> (moduleInfoMap_ (manager wd)))
                          (manager wd)) wd)) !! moduleId = Some f) as Hid'.
  { intros f. apply lookup_insert_eq. }
  unfold isModuleLoading. rewrite bind_assoc, bind_gets.
  change (manager wd) with (manager w).
  destruct (goog_array.contains (loadingModuleIds_ (manager w)) moduleId
            || goog_array.contains (requestedModuleIdsQueue_ (manager w))
                 moduleId) eqn:Hloading.
  - rewrite bind_assoc.
    rewrite (bind_registerCallback_on _ _ info) by done.
    rewrite (bind_registerErrback_on _ _ _ _ _ (Hid' _)).
    intros [= <- <-]. split_and!; [done|done| |].
    + simpl. by rewrite lookup_insert_eq.
    + simpl. apply orb_true_iff in Hloading as [H|H];
        apply bool_decide_eq_true in H; auto.
  - rewrite !bind_assoc.
    rewrite (bind_registerCallback_on _ _ info) by done.
    rewrite bind_assoc.
    rewrite (bind_registerErrback_on _ _ _ _ _ (Hid' _)).
    intros ([] & w2 & (Hflight & Hmap & Hds)%loadModuleOrEnqueue__flight
              & [= <- <-])%bind_Ok_inv.
    split_and!; [done|by rewrite Hds| |done].
    rewrite Hmap. simpl. by rewrite lookup_insert_eq.
Qed.

Lemma load_leaves_the_module_on_its_way_witness :
  moduleInfoMap_ (manager worldWithChain) !! "C" =
    Some (pendingModule ["B"]) ∧
  isLoaded (pendingModule ["B"]) = false ∧
  load 10 "C" worldWithChain =
    Ok (0, after (load 10 "C") worldWithChain) ∧
  0 = length (deferreds worldWithChain) ∧
  deferreds (after (load 10 "C") worldWithChain) =
    deferreds worldWithChain ++ [Unfired] ∧
  moduleInfoMap_ (manager (after (load 10 "C") worldWithChain)) !! "C" =
    Some (registerErrback_info (DeferredErrback 0)
            (registerCallback_info (DeferredCallback 0)
               (pendingModule ["B"]))) ∧
  ("C" ∈ loadingModuleIds_ (manager (after (load 10 "C") worldWithChain)) ∨
   "C" ∈ requestedModuleIdsQueue_
           (manager (after (load 10 "C") worldWithChain))).
Proof.
  assert (load 10 "C" worldWithChain =
            Ok (0, after (load 10 "C") worldWithChain)) as Hrun
    by (vm_compute; reflexivity).
  split; [reflexivity|]. split; [reflexivity|]. split; [exact Hrun|].
  exact (load_leaves_the_module_on_its_way 10 "C" worldWithChain _ 0
           (pendingModule ["B"]) eq_refl eq_refl Hrun).
Defined.

(** ** A failure reported while nothing loads *)

Lemma errorNotifications_nil mm cause : errorNotifications mm [] cause = [].
Proof.
  unfold errorNotifications. induction (registered mm ERROR); [done|].
  done.
Qed.

Lemma syncFlags_in_sync mm : flagsInSync mm → syncFlags mm = mm.
Proof.
  intros [Ha Hu]. unfold syncFlags. rewrite <- Ha, <- Hu.
  by destruct mm.
Qed.

Lemma activeChange_in_sync mm : flagsInSync mm → activeChange mm = [].
Proof.
  intros [Ha _]. unfold activeChange. rewrite <- Ha.
  by destruct (lastActive_ mm).
Qed.

Lemma userActiveChange_in_sync mm :
  flagsInSync mm → userActiveChange mm = [].
Proof.
  intros [_ Hu]. unfold userActiveChange. rewrite <- Hu.
  by destruct (userLastActive_ mm).
Qed.

Lemma set_loadingModuleIds_same mm :
  set_loadingModuleIds_ (loadingModuleIds_ mm) mm = mm.
Proof. by destruct mm. Qed.

Lemma failureWorld_idle w fuel cause :
  loadingModuleIds_ (manager w) = [] →
  requestedModuleIdsQueue_ (manager w) = [] →
  flagsInSync (manager w) →
  moduleInfoMap_ (manager w) !! "undefined" = None →
  failureWorld w fuel cause = w.
Proof.
  intros Hloading Hqueue Hsync Hundefined.
  assert (afterFailure (manager w) fuel = manager w) as Hafter.
  { unfold afterFailure, idsToCancel, dependents, failedId.
    rewrite Hloading, Hqueue. simpl.
    rewrite <- Hloading, set_loadingModuleIds_same.
    unfold afterOnError. by rewrite Hundefined. }
  unfold failureWorld, failureCalls. rewrite Hafter.
  rewrite syncFlags_in_sync, activeChange_in_sync, userActiveChange_in_sync
    by done.
  unfold idsToCancel, dependents, failedId, errbacksOf.
  rewrite Hloading, Hqueue. simpl. rewrite Hundefined.
  rewrite errorNotifications_nil. simpl. rewrite app_nil_r.
  by destruct w.
Qed.

Lemma dispatchModuleLoadFailed_idle w fuel cause :
  loadingModuleIds_ (manager w) = [] →
  requestedModuleIdsQueue_ (manager w) = [] →
  flagsInSync (manager w) →
  moduleInfoMap_ (manager w) !! "undefined" = None →
  dispatchModuleLoadFailed_ fuel cause w = Ok (tt, w).
Proof.
  intros Hloading Hqueue Hsync Hundefined.
  rewrite dispatchModuleLoadFailed_run.
  - by rewrite failureWorld_idle.
  - unfold queueResolves. rewrite Hqueue. constructor.
Qed.

Lemma loadNextModule_idle w fuel :
  requestedModuleIdsQueue_ (manager w) = [] →
  flagsInSync (manager w) →
  loadNextModule_ fuel w = Ok (tt, w).
Proof.
  intros Hqueue Hsync. unfold loadNextModule_. rewrite bind_gets, Hqueue.
  simpl. rewrite dispatchActiveIdleChangeIfNeeded_run.
  rewrite syncFlags_in_sync, activeChange_in_sync, userActiveChange_in_sync
    by done.
  by rewrite setManager_same, addCalls_nil.
Qed.

(** X12: a failure reported while nothing is with the loader.  Let the
    loading ids and the queue be empty, the flags in step, and no module
    be registered under the name undefined.  A timeout then changes
    nothing at all.  A status 401 or 410, or an other status that brings
    the failure counter to three, only counts the failure.  An other
    status below the threshold makes handleLoadError_ retry the id it
    pops from the empty array, and the call throws a TypeError. *)
Theorem failure_reported_while_idle (fuel : nat) (w : World) :
  loadingModuleIds_ (manager w) = [] →
  requestedModuleIdsQueue_ (manager w) = [] →
  flagsInSync (manager w) →
  moduleInfoMap_ (manager w) !! "undefined" = None →
  handleLoadTimeout_ fuel w = Ok (tt, w) ∧
  (∀ status,
     status = 401%Z ∨ status = 410%Z ∨
     3 ≤ consecutiveFailures_ (manager w) + 1 →
     handleLoadError_ fuel status w =
     Ok (tt, setManager
               (set_consecutiveFailures_
                  (consecutiveFailures_ (manager w) + 1) (manager w)) w)) ∧
  (∀ status,
     status ≠ 401%Z → status ≠ 410%Z →
     consecutiveFailures_ (manager w) + 1 < 3 →
     handleLoadError_ fuel status w = Throw TypeError).
Proof.
  intros Hloading Hqueue Hsync Hundefined.
  set (w1 := setManager
               (set_consecutiveFailures_
                  (consecutiveFailures_ (manager w) + 1) (manager w)) w).
  assert (∀ cause, dispatchModuleLoadFailed_ fuel cause w1 = Ok (tt, w1))
    as Hfail.
  { intros cause. by apply dispatchModuleLoadFailed_idle. }
  assert (loadNextModule_ fuel w1 = Ok (tt, w1)) as Hnext
    by by apply loadNextModule_idle.
  split_and!.
  - unfold handleLoadTimeout_.
    erewrite bind_Ok by (by apply dispatchModuleLoadFailed_idle).
    by apply loadNextModule_idle.
  - intros status Hstatus. rewrite handleLoadError__counted. fold w1.
    destruct (status =? 401)%Z eqn:E1.
    { erewrite bind_Ok by apply Hfail. unfold modify, w1, setManager.
      cbn [manager deferreds timeouts calls]. do 3 f_equal.
      rewrite <- Hqueue.
      exact (set_requestedModuleIdsQueue_same
               (set_consecutiveFailures_
                  (consecutiveFailures_ (manager w) + 1) (manager w))). }
    destruct (status =? 410)%Z eqn:E2.
    { by erewrite bind_Ok by apply Hfail. }
    rewrite bind_gets.
    destruct Hstatus as [->|[->|Hle]]; [done|done|].
    change (consecutiveFailures_ (manager w1))
      with (consecutiveFailures_ (manager w) + 1).
    rewrite (proj2 (Nat.leb_le _ _) Hle).
    by erewrite bind_Ok by apply Hfail.
  - intros status H1 H2 Hlt. rewrite handleLoadError__retry by done.
    unfold failedId. rewrite Hloading. simpl.
    by rewrite loadModule__unregistered.
Qed.

Lemma failure_reported_while_idle_witness :
  loadingModuleIds_ (manager worldWithLoadedA) = [] ∧
  requestedModuleIdsQueue_ (manager worldWithLoadedA) = [] ∧
  flagsInSync (manager worldWithLoadedA) ∧
  moduleInfoMap_ (manager worldWithLoadedA) !! "undefined" = None ∧
  handleLoadTimeout_ 10 worldWithLoadedA = Ok (tt, worldWithLoadedA) ∧
  (∀ status,
     status = 401%Z ∨ status = 410%Z ∨
     3 ≤ consecutiveFailures_ (manager worldWithLoadedA) + 1 →
     handleLoadError_ 10 status worldWithLoadedA =
     Ok (tt, setManager
               (set_consecutiveFailures_
                  (consecutiveFailures_ (manager worldWithLoadedA) + 1)
                  (manager worldWithLoadedA)) worldWithLoadedA)) ∧
  (∀ status,
     status ≠ 401%Z → status ≠ 410%Z →
     consecutiveFailures_ (manager worldWithLoadedA) + 1 < 3 →
     handleLoadError_ 10 status worldWithLoadedA = Throw TypeError).
Proof.
  assert (flagsInSync (manager worldWithLoadedA)) as Hsync
    by (split; reflexivity).
  split; [reflexivity|]. split; [reflexivity|]. split; [exact Hsync|].
  split; [reflexivity|].
  exact (failure_reported_while_idle 10 worldWithLoadedA eq_refl eq_refl
           Hsync eq_refl).
Defined.

(** ** The manager and the loader *)

Lemma loaderRequests_app evs evs' :
  loaderRequests (evs ++ evs') = loaderRequests evs ++ loaderRequests evs'.
Proof. unfold loaderRequests. apply bind_app. Qed.

Lemma requested_keeps_ensures {A} (c : M A) :
  ensuresRequested c → keepsRequested c.
Proof. intros H w a w' Hrun _. eauto. Qed.

Lemma requested_ensures_bind {A B} (c : M A) (k : A → M B) :
  (∀ a, ensuresRequested (k a)) → ensuresRequested (bind c k).
Proof.
  intros Hk w b w'' (a & w' & _ & Hrun)%bind_Ok_inv. by eapply Hk.
Qed.

Lemma requested_ensures_bind_l {A B} (c : M A) (k : A → M B) :
  ensuresRequested c → (∀ a, keepsRequested (k a)) →
  ensuresRequested (bind c k).
Proof.
  intros Hc Hk w b w'' (a & w' & Hrun & Hrun')%bind_Ok_inv.
  eapply Hk; [done|]. by eapply Hc.
Qed.

Lemma requested_bind {A B} (c : M A) (k : A → M B) :
  keepsRequested c → (∀ a, keepsRequested (k a)) →
  keepsRequested (bind c k).
Proof.
  intros Hc Hk w b w'' (a & w' & Hrun & Hrun')%bind_Ok_inv HI.
  eapply Hk; [done|]. by eapply Hc.
Qed.

Lemma requested_ret {A} (a : A) : keepsRequested (ret a).
Proof. by intros w a' w' [= <- <-]. Qed.

Lemma requested_throw {A} (e : Exn) : ensuresRequested (@throw A e).
Proof. by intros w a w'. Qed.

Lemma requested_gets {A} (f : ModuleManager → A) : keepsRequested (gets f).
Proof. by intros w a' w' [= <- <-]. Qed.

Lemma requested_newDeferred : keepsRequested newDeferred.
Proof. by intros w a' w' [= <- <-]. Qed.

Lemma requested_fire d state : keepsRequested (fire d state).
Proof. by intros w a' w' [= <- <-]. Qed.

Lemma requested_setTimeout t : keepsRequested (setTimeout t).
Proof. by intros w a' w' [= <- <-]. Qed.

Lemma requested_liftResult {A} (r : Result A) :
  keepsRequested (liftResult r).
Proof. intros w a' w'. unfold liftResult. by destruct r; intros [= <- <-]. Qed.

(** An assignment that puts no new id among the loading ids. *)
Lemma requested_modify (f : ModuleManager → ModuleManager) :
  (∀ mm x, x ∈ loadingModuleIds_ (f mm) → x ∈ loadingModuleIds_ mm) →
  keepsRequested (modify f).
Proof.
  intros Hf w a' w' [= <- <-] Hreq x Hx. apply Hreq. by apply Hf.
Qed.

(** A call that is not a request to the loader. *)
Lemma requested_emit (e : Event) :
  loaderRequests [e] = [] → keepsRequested (emit e).
Proof.
  intros He w a' w' [= <- <-] Hreq x Hx. simpl.
  rewrite loaderRequests_app, He, app_nil_r. by apply Hreq.
Qed.

Lemma requested_forEach {A} (arr : list A) (body : A → M unit) :
  (∀ x, keepsRequested (body x)) → keepsRequested (forEach arr body).
Proof.
  intros Hbody. induction arr as [|x arr IH]; simpl.
  - apply requested_ret.
  - apply requested_bind; auto.
Qed.

Create HintDb requested discriminated.

#[export] Hint Resolve requested_ret requested_gets requested_newDeferred
  requested_fire requested_setTimeout requested_liftResult requested_throw
  : requested.
#[export] Hint Resolve requested_keeps_ensures | 10 : requested.

Ltac requested_steps :=
  repeat first
    [ progress eauto 3 with requested
    | apply requested_modify; intros ? ? ?; assumption
    | apply requested_emit; reflexivity
    | apply requested_forEach; intros ?
    | apply requested_ensures_bind_l;
        [solve [eauto 3 with requested]|intros ?]
    | apply requested_ensures_bind; intros ?
    | apply requested_bind; [|intros ?]
    | match goal with
      | |- ensuresRequested (if ?b then _ else _) => destruct b
      | |- keepsRequested (if ?b then _ else _) => destruct b
      | |- ensuresRequested (match ?x with _ => _ end) => destruct x
      | |- keepsRequested (match ?x with _ => _ end) => destruct x
      end ].

Lemma requested_execute fn arg : keepsRequested (execute fn arg).
Proof. destruct fn; simpl; requested_steps. Qed.
#[export] Hint Resolve requested_execute : requested.

Lemma requested_callCallbacks_ callbacks arg :
  keepsRequested (callCallbacks_ callbacks arg).
Proof. unfold callCallbacks_. requested_steps. Qed.
#[export] Hint Resolve requested_callCallbacks_ : requested.

Lemma requested_dispatchActiveIdleChangeIfNeeded_ :
  keepsRequested dispatchActiveIdleChangeIfNeeded_.
Proof.
  unfold dispatchActiveIdleChangeIfNeeded_, executeCallbacks_, isActive,
    isUserActive.
  requested_steps.
Qed.
#[export] Hint Resolve requested_dispatchActiveIdleChangeIfNeeded_
  : requested.

Lemma requested_putModuleInfo id info :
  keepsRequested (putModuleInfo id info).
Proof. unfold putModuleInfo. requested_steps. Qed.
#[export] Hint Resolve requested_putModuleInfo : requested.

Lemma requested_resolve fuel id : keepsRequested (resolve fuel id).
Proof. unfold resolve. requested_steps. Qed.
#[export] Hint Resolve requested_resolve : requested.

Lemma requested_filterDependents fuel queue id :
  keepsRequested (filterDependents fuel queue id).
Proof. induction queue as [|x queue IH]; simpl; requested_steps. Qed.
#[export] Hint Resolve requested_filterDependents : requested.

Lemma requested_loadModule_ fuel id opt_isRetry :
  ensuresRequested (loadModule_ fuel id opt_isRetry).
Proof.
  intros w [] w' (info & ids & Hid & Hl & Hres & ->)%loadModule__inv x Hx.
  exists (dispatchedIds (batchModeEnabled_ (manager w)) ids).
  split; [|exact Hx]. simpl.
  rewrite !app_assoc, loaderRequests_app. simpl. apply last_snoc.
Qed.
#[export] Hint Resolve requested_loadModule_ : requested.

Lemma requested_loadModuleOrEnqueue_ fuel id :
  keepsRequested (loadModuleOrEnqueue_ fuel id).
Proof. unfold loadModuleOrEnqueue_. requested_steps. Qed.
#[export] Hint Resolve requested_loadModuleOrEnqueue_ : requested.

Lemma requested_loadNextModule_from fuel queue :
  keepsRequested (loadNextModule_from fuel queue).
Proof.
  induction queue as [|nextId queue IH]; simpl; unfold getModuleInfo;
    requested_steps.
Qed.
#[export] Hint Resolve requested_loadNextModule_from : requested.

Lemma requested_loadNextModule_ fuel : keepsRequested (loadNextModule_ fuel).
Proof. unfold loadNextModule_. requested_steps. Qed.
#[export] Hint Resolve requested_loadNextModule_ : requested.

Lemma elem_of_remove l x y : y ∈ goog_array.remove l x → y ∈ l.
Proof.
  induction l as [|z l IH]; simpl; [done|].
  destruct (decide (z = x)); [by right|].
  intros [->|?]%elem_of_cons; [by left|right; auto].
Qed.

Lemma requested_setLoaded fuel id : keepsRequested (setLoaded fuel id).
Proof.
  unfold setLoaded, getModuleInfo, onLoad. requested_steps.
  apply requested_modify. intros mm x. apply elem_of_remove.
Qed.

Lemma requested_dispatchModuleLoadFailed_ fuel cause :
  keepsRequested (dispatchModuleLoadFailed_ fuel cause).
Proof.
  unfold dispatchModuleLoadFailed_, getModuleInfo, onError.
  requested_steps.
  apply requested_modify. by intros mm x ?%elem_of_nil.
Qed.
#[export] Hint Resolve requested_dispatchModuleLoadFailed_ : requested.

Lemma requested_handleLoadError_ fuel status :
  keepsRequested (handleLoadError_ fuel status).
Proof.
  unfold handleLoadError_. requested_steps.
  apply requested_modify. by intros mm x ?%elem_of_nil.
Qed.

Lemma requested_registerCallback_on id fn :
  keepsRequested (registerCallback_on id fn).
Proof. unfold registerCallback_on, getModuleInfo. requested_steps. Qed.

Lemma requested_registerErrback_on id fn :
  keepsRequested (registerErrback_on id fn).
Proof. unfold registerErrback_on, getModuleInfo. requested_steps. Qed.
#[export] Hint Resolve requested_registerCallback_on
  requested_registerErrback_on : requested.

Lemma requested_loadModuleOrEnqueueIfNotLoadedOrLoading_ fuel id d :
  keepsRequested (loadModuleOrEnqueueIfNotLoadedOrLoading_ fuel id d).
Proof.
  unfold loadModuleOrEnqueueIfNotLoadedOrLoading_, getModuleInfo,
    isModuleLoading.
  requested_steps.
Qed.

Lemma requested_runTimeout fuel i : keepsRequested (runTimeout fuel i).
Proof.
  intros w a w'. unfold runTimeout.
  destruct (timeouts w !! i) as [[fn|id d]|]; [| |by intros [= <- <-]].
  - intros Hrun HI. by eapply requested_execute.
  - intros Hrun HI.
    by eapply requested_loadModuleOrEnqueueIfNotLoadedOrLoading_.
Qed.

Lemma requested_runOp fuel op : keepsRequested (runOp fuel op).
Proof.
  destruct op; simpl.
  - unfold setBatchModeEnabled. requested_steps.
  - unfold setAllModuleInfo. requested_steps.
  - unfold setModuleContext. requested_steps.
  - unfold registerCallback, registerCallback_. requested_steps.
  - unfold load, getModuleInfo, isModuleLoading. requested_steps.
  - unfold execOnLoad, getModuleInfo, pushUserInitiated, isModuleLoading.
    requested_steps.
  - unfold preloadModule. requested_steps.
  - apply requested_runTimeout.
  - unfold beforeLoadModuleCode. requested_steps.
  - unfold afterLoadModuleCode. requested_steps.
  - unfold registerInitializationCallback, getModuleInfo. requested_steps.
  - apply requested_setLoaded.
  - apply requested_handleLoadError_.
  - unfold handleLoadTimeout_. requested_steps.
Qed.

(** X13: what the manager holds as loading has been asked of the loader.
    If every loading id is in the last list of ids handed to the loader,
    as in a new manager where nothing is loading, then so it is after
    every sequence of operations that return. *)
Theorem loading_ids_were_requested
    (fuel : nat) (ops : list Op) (w w' : World) :
  loadingWasRequested w →
  runOps fuel ops w = Ok (tt, w') →
  loadingWasRequested w'.
Proof.
  revert w. induction ops as [|op ops IH]; intros w Hreq; simpl.
  - by intros [= <-].
  - intros ([] & w1 & Hop & Hops)%bind_Ok_inv.
    apply (IH w1); [|done]. by eapply requested_runOp.
Qed.

Lemma loading_ids_were_requested_witness :
  loadingWasRequested newWorld ∧
  runOps 10 [OpSetAllModuleInfo chainInfo; OpSetBatchModeEnabled true;
             OpLoad "C"; OpSetLoaded "A"; OpHandleLoadError 500] newWorld =
    Ok (tt, worldAfter 10 [OpSetAllModuleInfo chainInfo;
                           OpSetBatchModeEnabled true; OpLoad "C";
                           OpSetLoaded "A"; OpHandleLoadError 500]) ∧
  loadingWasRequested
    (worldAfter 10 [OpSetAllModuleInfo chainInfo;
                    OpSetBatchModeEnabled true; OpLoad "C";
                    OpSetLoaded "A"; OpHandleLoadError 500]).
Proof.
  assert (loadingWasRequested newWorld) as Hreq.
  { intros x Hx. by apply elem_of_nil in Hx. }
  assert (runOps 10 [OpSetAllModuleInfo chainInfo;
                     OpSetBatchModeEnabled true; OpLoad "C";
                     OpSetLoaded "A"; OpHandleLoadError 500] newWorld =
          Ok (tt, worldAfter 10 [OpSetAllModuleInfo chainInfo;
                                 OpSetBatchModeEnabled true; OpLoad "C";
                                 OpSetLoaded "A"; OpHandleLoadError 500]))
    as Hrun by (vm_compute; reflexivity).
  split; [exact Hreq|]. split; [exact Hrun|].
  exact (loading_ids_were_requested 10 _ newWorld _ Hreq Hrun).
Defined.

(** ** execOnLoad of a module that is loaded *)

(** X14: execOnLoad of a module that is loaded asks nothing of the loader
    and changes nothing in the manager, whatever the other flags say.
    With opt_preferSynchronous the function has been called, with the
    module context, when execOnLoad returns; without it nothing has been
    called yet and one timer is pending, and when that timer runs the
    function is called once, with no argument. *)
Theorem execOnLoad_of_a_loaded_module
    (fuel : nat) (moduleId : string) (f : nat) (h : option nat)
    (noLoad userInitiated : bool) (w : World) (info : ModuleInfo) :
  moduleInfoMap_ (manager w) !! moduleId = Some info →
  isLoaded info = true →
  execOnLoad fuel moduleId f h noLoad userInitiated true w =
    Ok (tt, addCalls [Call f h (ArgContext (moduleContext_ (manager w)))] w) ∧
  execOnLoad fuel moduleId f h noLoad userInitiated false w =
    Ok (tt, {| manager := manager w; deferreds := deferreds w;
               timeouts := timeouts w ++ [ExecuteCallback (AppFn f h)];
               calls := calls w |}) ∧
  (execOnLoad fuel moduleId f h noLoad userInitiated false ;;
   runTimeout fuel (length (timeouts w))) w =
    Ok (tt, addCalls [Call f h ArgUndefined] w).
Proof.
  intros Hinfo Hl. unfold execOnLoad, getModuleInfo.
  rewrite !bind_gets, bind_assoc, bind_gets, Hinfo, Hl. split_and!.
  - done.
  - done.
  - rewrite bind_setTimeout. unfold runTimeout.
    cbn [timeouts manager deferreds calls].
    rewrite list_lookup_middle by done. by rewrite delete_last_snoc.
Qed.

Lemma execOnLoad_of_a_loaded_module_witness :
  moduleInfoMap_ (manager worldWithLoadedA) !! "A" =
    Some (markLoaded (newModuleInfo [])) ∧
  isLoaded (markLoaded (newModuleInfo [])) = true ∧
  execOnLoad 10 "A" 5 None false true true worldWithLoadedA =
    Ok (tt, addCalls
              [Call 5 None
                 (ArgContext (moduleContext_ (manager worldWithLoadedA)))]
              worldWithLoadedA) ∧
  execOnLoad 10 "A" 5 None false true false worldWithLoadedA =
    Ok (tt, {| manager := manager worldWithLoadedA;
               deferreds := deferreds worldWithLoadedA;
               timeouts := timeouts worldWithLoadedA ++
                           [ExecuteCallback (AppFn 5 None)];
               calls := calls worldWithLoadedA |}) ∧
  (execOnLoad 10 "A" 5 None false true false ;;
   runTimeout 10 (length (timeouts worldWithLoadedA))) worldWithLoadedA =
    Ok (tt, addCalls [Call 5 None ArgUndefined] worldWithLoadedA).
Proof.
  split; [reflexivity|]. split; [reflexivity|].
  exact (execOnLoad_of_a_loaded_module 10 "A" 5 None false true
           worldWithLoadedA (markLoaded (newModuleInfo [])) eq_refl eq_refl).
Defined.

(** ** The code of a module registers an initialization callback *)

(** X15: registerInitializationCallback between beforeLoadModuleCode and
    afterLoadModuleCode.  When no module is marked as being evaluated,
    registerInitializationCallback only logs a severe message.  When the
    three are called in a row for a registered module whose id is not the
    empty string, nothing is logged, the function ends up as the last of
    the early callbacks of that module, and no module is marked as being
    evaluated afterwards. *)
Theorem initialization_callback_needs_the_bracket
    (id : string) (f : nat) (h : option nat) (w : World)
    (info : ModuleInfo) :
  truthy (currentlyLoadingModule_ (manager w)) = false →
  id ≠ EmptyString →
  moduleInfoMap_ (manager w) !! id = Some info →
  registerInitializationCallback f h w = Ok (tt, addCalls [Severe] w) ∧
  (beforeLoadModuleCode id ;;
   registerInitializationCallback f h ;;
   afterLoadModuleCode id) w =
    Ok (tt, setManager
              (set_currentlyLoadingModule_ None
                 (set_moduleInfoMap_
                    (<[id := registerEarlyCallback_info (AppFn f h) info]>
                       (moduleInfoMap_ (manager w))) (manager w))) w).
Proof.
  intros Hnone Hne Hinfo. split.
  - unfold registerInitializationCallback. by rewrite bind_gets, Hnone.
  - unfold beforeLoadModuleCode, registerInitializationCallback,
      afterLoadModuleCode, getModuleInfo, putModuleInfo.
    unfold bind, gets, modify, emit, ret, throw. cbn. rewrite Hnone. cbn.
    rewrite bool_decide_eq_false_2 by done. cbn. rewrite Hinfo. cbn.
    by rewrite bool_decide_eq_true_2 by done.
Qed.

Lemma initialization_callback_needs_the_bracket_witness :
  truthy (currentlyLoadingModule_ (manager worldLoadingAForB)) = false ∧
  "A" ≠ EmptyString ∧
  moduleInfoMap_ (manager worldLoadingAForB) !! "A" =
    Some (pendingModule []) ∧
  registerInitializationCallback 5 None worldLoadingAForB =
    Ok (tt, addCalls [Severe] worldLoadingAForB) ∧
  (beforeLoadModuleCode "A" ;;
   registerInitializationCallback 5 None ;;
   afterLoadModuleCode "A") worldLoadingAForB =
    Ok (tt, setManager
              (set_currentlyLoadingModule_ None
                 (set_moduleInfoMap_
                    (<["A" := registerEarlyCallback_info (AppFn 5 None)
                                (pendingModule [])]>
                       (moduleInfoMap_ (manager worldLoadingAForB)))
                    (manager worldLoadingAForB))) worldLoadingAForB).
Proof.
  assert ("A" ≠ EmptyString) as Hne by discriminate.
  split; [reflexivity|]. split; [exact Hne|]. split; [reflexivity|].
  exact (initialization_callback_needs_the_bracket "A" 5 None
           worldLoadingAForB (pendingModule []) eq_refl Hne eq_refl).
Defined.

(** ** Registering one function for several events *)

Lemma registerCallback__registered type fn w t :
  registered
    (set_callbackMap_
       (<[callbackTypeName type :=
            default [] (callbackMap_ (manager w) !! callbackTypeName type) ++
            [fn]]> (callbackMap_ (manager w))) (manager w)) t =
  registered (manager w) t ++
  (if decide (callbackTypeName type = callbackTypeName t) then [fn] else []).
Proof.
  unfold registered. simpl.
  destruct (decide (callbackTypeName type = callbackTypeName t)) as [->|Hne].
  - by rewrite lookup_insert_eq.
  - rewrite lookup_insert_ne by done. by rewrite app_nil_r.
Qed.

(** X16: registerCallback with a list of types returns and makes no call;
    for every type, the functions registered for it afterwards are those
    registered before, in the same order, followed by the new function
    once for each time the type is in the list.  Nothing tells a function
    that is registered twice from two functions. *)
Theorem registerCallback_appends_for_each_type
    (types : list CallbackType) (fn : nat) (w : World) :
  ∃ w', registerCallback types fn w = Ok (tt, w') ∧
        calls w' = calls w ∧
        ∀ t, registered (manager w') t =
             registered (manager w) t ++
             replicate
               (length (filter (λ type,
                                  callbackTypeName type = callbackTypeName t)
                          types)) fn.
Proof.
  unfold registerCallback. revert w.
  induction types as [|type types IH]; intros w.
  - exists w. split_and!; [done|done|]. intros t. simpl.
    by rewrite app_nil_r.
  - cbn [forEach]. unfold registerCallback_ at 1. rewrite bind_modify.
    destruct (IH (setManager
                    (set_callbackMap_
                       (<[callbackTypeName type :=
                            default []
                              (callbackMap_ (manager w) !!
                                 callbackTypeName type) ++ [fn]]>
                          (callbackMap_ (manager w))) (manager w)) w))
      as (w' & Hrun & Hcalls & Hreg).
    exists w'. split_and!; [done|done|].
    intros t. rewrite Hreg. cbn [manager setManager].
    rewrite registerCallback__registered, filter_cons.
    destruct (decide (callbackTypeName type = callbackTypeName t)); simpl.
    + by rewrite <- app_assoc.
    + by rewrite app_nil_r.
Qed.

(** ** load returns *)

Lemma sameGraph_insert m id info info' :
  m !! id = Some info →
  getDependencies info' = getDependencies info →
  isLoaded info' = isLoaded info →
  sameGraph m (<[id := info']> m).
Proof.
  intros Hid Hdeps Hl x. destruct (decide (id = x)) as [<-|Hne].
  - rewrite lookup_insert_eq, Hid. simpl. by rewrite Hdeps, Hl.
  - by rewrite lookup_insert_ne.
Qed.

Lemma loadModuleOrEnqueue__returns fuel id w info :
  moduleInfoMap_ (manager w) !! id = Some info →
  isLoaded info = false →
  is_Ok (getNotYetLoadedTransitiveDepIds_ (moduleInfoMap_ (manager w)) fuel
           id) →
  ∃ w', loadModuleOrEnqueue_ fuel id w = Ok (tt, w').
Proof.
  intros Hinfo Hl [ids Hids]. unfold loadModuleOrEnqueue_.
  rewrite bind_gets. destruct (loadingModuleIds_ (manager w)).
  - rewrite (loadModule_run _ _ _ _ info ids) by done. by eexists.
  - rewrite bind_modify, dispatchActiveIdleChangeIfNeeded_run. by eexists.
Qed.

(** X17: load returns for every registered module, and throws for an id
    that is not registered.  On an acyclic map whose dependencies are all
    registered there is an amount of fuel from which load of a registered
    id returns the deferred it has just created, whatever is loading or
    queued; load of an id that is not registered throws a TypeError, on
    any map. *)
Theorem load_returns_for_a_registered_module (w : World) :
  acyclic (moduleInfoMap_ (manager w)) →
  closed (moduleInfoMap_ (manager w)) →
  ∃ n, ∀ fuel moduleId, n ≤ fuel →
    match moduleInfoMap_ (manager w) !! moduleId with
    | Some _ => ∃ w', load fuel moduleId w = Ok (length (deferreds w), w')
    | None => load fuel moduleId w = Throw TypeError
    end.
Proof.
  intros Hacyc Hclosed.
  destruct (resolver_Ok_uniform _ Hacyc Hclosed) as [n Hn].
  exists n. intros fuel moduleId Hfuel.
  destruct (moduleInfoMap_ (manager w) !! moduleId) as [info|] eqn:Hinfo.
  - unfold load, getModuleInfo.
    rewrite bind_gets, bind_newDeferred, Hinfo.
    set (d := length (deferreds w)).
    set (wd := {| manager := manager w;
                  deferreds := deferreds w ++ [Unfired];
                  timeouts := timeouts w; calls := calls w |}).
    destruct (isLoaded info) eqn:Hl.
    { rewrite bind_assoc, bind_gets. by eexists. }
    assert (∀ f, moduleInfoMap_
                   (manager
                      (setManager
                         (set_moduleInfoMap_
                            (<[moduleId := f]> (moduleInfoMap_ (manager wd)))
                            (manager wd)) wd)) !! moduleId = Some f) as Hid'.
    { intros f. apply lookup_insert_eq. }
    unfold isModuleLoading. rewrite bind_assoc, bind_gets.
    destruct (goog_array.contains _ _ || goog_array.contains _ _).
    + rewrite bind_assoc.
      rewrite (bind_registerCallback_on _ _ info) by done.
      rewrite (bind_registerErrback_on _ _ _ _ _ (Hid' _)). by eexists.
    + rewrite !bind_assoc.
      rewrite (bind_registerCallback_on _ _ info) by done.
      rewrite bind_assoc.
      rewrite (bind_registerErrback_on _ _ _ _ _ (Hid' _)).
      match goal with
      | |- ∃ w', bind _ _ ?w2 = _ =>
          destruct (loadModuleOrEnqueue__returns fuel moduleId w2
                      (registerErrback_info (DeferredErrback d)
                         (registerCallback_info (DeferredCallback d) info)))
            as [w' Hrun]
      end.
      * simpl. apply lookup_insert_eq.
      * done.
      * simpl. rewrite insert_insert_eq.
        rewrite <- (resolver_sameGraph (moduleInfoMap_ (manager w))).
        { apply Hn; [done|by eexists]. }
        by apply (sameGraph_insert _ _ info).
      * exists w'. unfold bind. by rewrite Hrun.
  - unfold load, getModuleInfo. by rewrite bind_gets, bind_newDeferred, Hinfo.
Qed.

Lemma load_returns_for_a_registered_module_witness :
  acyclic (moduleInfoMap_ (manager worldLoadingAForB)) ∧
  closed (moduleInfoMap_ (manager worldLoadingAForB)) ∧
  ∃ n, ∀ fuel moduleId, n ≤ fuel →
    match moduleInfoMap_ (manager worldLoadingAForB) !! moduleId with
    | Some _ =>
        ∃ w', load fuel moduleId worldLoadingAForB =
              Ok (length (deferreds worldLoadingAForB), w')
    | None => load fuel moduleId worldLoadingAForB = Throw TypeError
    end.
Proof.
  split; [exact worldLoadingAForB_acyclic|].
  split; [exact worldLoadingAForB_closed|].
  exact (load_returns_for_a_registered_module worldLoadingAForB
           worldLoadingAForB_acyclic worldLoadingAForB_closed).
Defined.

(** ** execOnLoad of a module that is not loaded *)

Lemma loadModuleOrEnqueue__userInitiated fuel id w w' :
  loadModuleOrEnqueue_ fuel id w = Ok (tt, w') →
  userInitiatedLoadingModuleIds_ (manager w') =
    userInitiatedLoadingModuleIds_ (manager w) ∧
  timeouts w' = timeouts w.
Proof.
  unfold loadModuleOrEnqueue_. rewrite bind_gets.
  destruct (loadingModuleIds_ (manager w)) as [|x loading].
  - intros (info & ids & _ & _ & _ & ->)%loadModule__inv.
    split; [|done]. simpl. unfold loadModuleUpdate. by destruct false.
  - rewrite bind_modify, dispatchActiveIdleChangeIfNeeded_run.
    by intros [= <-].
Qed.

Lemma loaderRequests_notifications mm type :
  loaderRequests (notifications mm type) = [].
Proof.
  unfold notifications. by induction (registered mm type).
Qed.

Lemma loaderRequests_transitions mm :
  loaderRequests (activeChange mm ++ userActiveChange mm) = [].
Proof.
  rewrite loaderRequests_app. unfold activeChange, userActiveChange.
  destruct (negb _), (negb _);
    by rewrite ?loaderRequests_notifications.
Qed.

(** X18: execOnLoad of a registered module that is not loaded.  When it
    returns, the function is registered with the module as its last
    callback and no timer has been set.  If the module was already with
    the loader or queued, or opt_noLoad is set, the loading ids and the
    queue are as before and the loader has been asked nothing; otherwise
    the module is now with the loader or queued.  The id is appended to
    the user initiated ids, once more if it was there, when
    opt_userInitiated is set and the module was already on its way or is
    put on its way; with opt_noLoad on a module that is not on its way,
    opt_userInitiated is ignored. *)
Theorem execOnLoad_of_a_module_not_loaded
    (fuel : nat) (moduleId : string) (f : nat) (h : option nat)
    (noLoad userInitiated preferSynchronous : bool) (w w' : World)
    (info : ModuleInfo) :
  moduleInfoMap_ (manager w) !! moduleId = Some info →
  isLoaded info = false →
  execOnLoad fuel moduleId f h noLoad userInitiated preferSynchronous w =
    Ok (tt, w') →
  let onItsWay :=
    goog_array.contains (loadingModuleIds_ (manager w)) moduleId ||
    goog_array.contains (requestedModuleIdsQueue_ (manager w)) moduleId in
  moduleInfoMap_ (manager w') !! moduleId =
    Some (registerCallback_info (AppFn f h) info) ∧
  timeouts w' = timeouts w ∧
  userInitiatedLoadingModuleIds_ (manager w') =
    (if userInitiated && (onItsWay || negb noLoad)
     then userInitiatedLoadingModuleIds_ (manager w) ++ [moduleId]
     else userInitiatedLoadingModuleIds_ (manager w)) ∧
  (if onItsWay || noLoad
   then loadingModuleIds_ (manager w') = loadingModuleIds_ (manager w) ∧
        requestedModuleIdsQueue_ (manager w') =
          requestedModuleIdsQueue_ (manager w) ∧
        loaderRequests (calls w') = loaderRequests (calls w)
   else moduleId ∈ loadingModuleIds_ (manager w') ∨
        moduleId ∈ requestedModuleIdsQueue_ (manager w')).
Proof.
  intros Hinfo Hl. unfold execOnLoad, getModuleInfo, isModuleLoading.
  rewrite bind_gets, Hinfo, Hl, bind_gets. cbv zeta.
  pose proof loaderRequests_transitions as Hquiet.
  destruct (goog_array.contains (loadingModuleIds_ (manager w)) moduleId
            || goog_array.contains (requestedModuleIdsQueue_ (manager w))
                 moduleId) eqn:Hway; cbn [orb].
  - rewrite (bind_registerCallback_on _ _ info) by done.
    destruct userInitiated; cbn [andb].
    + unfold pushUserInitiated.
      rewrite bind_modify, dispatchActiveIdleChangeIfNeeded_run.
      intros [= <-]. split_and!; try done; simpl.
      * apply lookup_insert_eq.
      * by rewrite loaderRequests_app, Hquiet, app_nil_r.
    + intros [= <-]. split_and!; try done. simpl. apply lookup_insert_eq.
  - rewrite (bind_registerCallback_on _ _ info) by done.
    destruct noLoad; cbn [negb andb orb].
    + intros [= <-]. rewrite andb_false_r.
      split_and!; try done. simpl. apply lookup_insert_eq.
    + rewrite andb_true_r. intros (u & w2 & Hpush & Hload)%bind_Ok_inv.
      pose proof (loadModuleOrEnqueue__flight _ _ _ _ Hload)
        as (Hflight & Hmap & _).
      pose proof (loadModuleOrEnqueue__userInitiated _ _ _ _ Hload)
        as (Huser & Htimeouts).
      rewrite Hmap, Huser, Htimeouts. clear Hload Hmap Huser Htimeouts.
      destruct userInitiated; injection Hpush as Hw2; subst w2;
        (split_and!; try done); simpl; apply lookup_insert_eq.
Qed.

Lemma execOnLoad_of_a_module_not_loaded_witness :
  moduleInfoMap_ (manager worldWithChain) !! "C" =
    Some (pendingModule ["B"]) ∧
  isLoaded (pendingModule ["B"]) = false ∧
  execOnLoad 10 "C" 5 None false true false worldWithChain =
    Ok (tt, after (execOnLoad 10 "C" 5 None false true false)
              worldWithChain) ∧
  let w' := after (execOnLoad 10 "C" 5 None false true false)
              worldWithChain in
  let onItsWay :=
    goog_array.contains (loadingModuleIds_ (manager worldWithChain)) "C" ||
    goog_array.contains (requestedModuleIdsQueue_ (manager worldWithChain))
      "C" in
  moduleInfoMap_ (manager w') !! "C" =
    Some (registerCallback_info (AppFn 5 None) (pendingModule ["B"])) ∧
  timeouts w' = timeouts worldWithChain ∧
  userInitiatedLoadingModuleIds_ (manager w') =
    (if true && (onItsWay || negb false)
     then userInitiatedLoadingModuleIds_ (manager worldWithChain) ++ ["C"]
     else userInitiatedLoadingModuleIds_ (manager worldWithChain)) ∧
  (if onItsWay || false
   then loadingModuleIds_ (manager w') =
          loadingModuleIds_ (manager worldWithChain) ∧
        requestedModuleIdsQueue_ (manager w') =
          requestedModuleIdsQueue_ (manager worldWithChain) ∧
        loaderRequests (calls w') = loaderRequests (calls worldWithChain)
   else "C" ∈ loadingModuleIds_ (manager w') ∨
        "C" ∈ requestedModuleIdsQueue_ (manager w')).
Proof.
  assert (execOnLoad 10 "C" 5 None false true false worldWithChain =
            Ok (tt, after (execOnLoad 10 "C" 5 None false true false)
                      worldWithChain)) as Hrun
    by (vm_compute; reflexivity).
  split; [reflexivity|]. split; [reflexivity|]. split; [exact Hrun|].
  exact (execOnLoad_of_a_module_not_loaded 10 "C" 5 None false true false
           worldWithChain _ (pendingModule ["B"]) eq_refl eq_refl Hrun).
Defined.

(** * The resolver when modules are loaded after what they need *)

Lemma allLoadedAfterDependencies_sound m :
  allLoadedAfterDependencies m → loadedAfterDependencies m.
Proof.
  intros Hall x info d Hx Hl Hd.
  specialize (Hall x info Hx). simpl in Hall.
  rewrite Forall_forall in Hall. specialize (Hall d Hd Hl).
  destruct (m !! d) as [dinfo|]; [|done].
  exists dinfo. split; [done|]. by injection Hall.
Qed.

Section loaded_after_dependencies.
Variable m : gmap string ModuleInfo.
Hypothesis Hclosed : closed m.
Hypothesis Hloaded : loadedAfterDependencies m.

(** What a loaded module needs, however far, is loaded. *)
Lemma loaded_dependencies_loaded x d info :
  m !! x = Some info → isLoaded info = true → tc (dependsOn m) x d →
  ∃ dinfo, m !! d = Some dinfo ∧ isLoaded dinfo = true.
Proof.
  intros Hx Hl Hxd. revert info Hx Hl.
  induction Hxd as [x d (xinfo & Hx' & Hd)|x z d (xinfo & Hx' & Hz) _ IH];
    intros info Hx Hl.
  - assert (xinfo = info) as -> by congruence. by eapply Hloaded.
  - assert (xinfo = info) as -> by congruence.
    destruct (Hloaded x info z Hx Hl Hz) as (zinfo & Hzinfo & Hzl).
    by eapply IH.
Qed.

(** A module that is not loaded is reached from those that need it
    through modules that are not loaded. *)
Lemma tc_dependsOn_awaits y x :
  tc (dependsOn m) y x → notYetLoaded m x → tc (awaits m) y x.
Proof.
  intros Hyx Hx. induction Hyx as [y x Hstep|y z x Hstep Hzx IH].
  - by apply tc_once.
  - apply tc_l with z; [|by apply IH]. split; [done|].
    destruct (Hclosed y z Hstep) as [zinfo Hz].
    exists zinfo. split; [done|].
    destruct (isLoaded zinfo) eqn:Hl; [|done].
    destruct (loaded_dependencies_loaded z x zinfo Hz Hl Hzx)
      as (xinfo & Hxinfo & Hxl).
    destruct Hx as (xinfo' & Hxinfo' & Hxl'). congruence.
Qed.

End loaded_after_dependencies.

(** C1: on an acyclic map whose declared dependencies are all registered
    and on which every loaded module has its dependencies loaded, the
    resolver run on a not-yet-loaded [id] returns, given enough fuel, a
    list that ends with [id], has no duplicates, holds besides [id]
    exactly the not-yet-loaded ids that [id] transitively depends on (so
    no loaded id), has every id where it first stands in the collected
    array (what is before it are the ids before that first occurrence),
    and has every id before all the listed ids that depend on it. *)
Theorem resolve_lists_pending_dependencies_in_order
    (m : gmap string ModuleInfo) (id : string) :
  acyclic m → closed m → loadedAfterDependencies m → notYetLoaded m id →
  ∃ n, ∀ fuel, n ≤ fuel →
    ∃ ids l,
      collectedDepIds m fuel id = Ok ids ∧
      getNotYetLoadedTransitiveDepIds_ m fuel id = Ok l ∧
      last l = Some id ∧
      NoDup l ∧
      (∀ x, x ∈ l ↔
            x = id ∨ (tc (dependsOn m) id x ∧ notYetLoaded m x)) ∧
      (∀ x, x ∈ l → notYetLoaded m x) ∧
      (∀ x, x ∈ l → ∃ c1 c2 r1 r2,
         ids = c1 ++ x :: c2 ∧ (x ∉ c1) ∧ l = r1 ++ x :: r2 ∧
         ∀ y, y ∈ r1 ↔ y ∈ c1) ∧
      (∀ x y, x ∈ l → y ∈ l → tc (dependsOn m) y x → before l x y).
Proof.
  intros Hacyc Hclosed Hloaded Hid.
  destruct (collectedDepIds_Ok m id Hacyc Hclosed) as [n Hn].
  { destruct Hid as (info & Hid & _). eauto. }
  exists n. intros fuel Hle. destruct (Hn fuel Hle) as [ids Hids].
  exists ids, (goog_array.removeDuplicates ids).
  destruct (collected_facts m id fuel ids Hacyc Hids _ eq_refl)
    as (Hlast & Hmem & Hpos & Hbefore).
  assert (∀ x, x ∈ goog_array.removeDuplicates ids → notYetLoaded m x)
    as Hpending.
  { intros x [->|Hx]%Hmem; [done|]. by eapply tc_awaits_notYetLoaded. }
  split_and!; try done.
  - unfold getNotYetLoadedTransitiveDepIds_. by rewrite Hids.
  - apply NoDup_removeDuplicates.
  - intros x. rewrite Hmem. split.
    + intros [->|Hx]; [by left|]. right. split.
      * by apply tc_awaits_dependsOn.
      * by eapply tc_awaits_notYetLoaded.
    + intros [->|[Hx Hl]]; [by left|]. right.
      by apply tc_dependsOn_awaits.
  - intros x y Hx Hy Hyx. apply Hbefore; [done|].
    apply tc_dependsOn_awaits; auto.
Qed.

Lemma chainWithLoadedA_acyclic : acyclic chainWithLoadedA.
Proof.
  apply (topological_acyclic ["A"; "B"; "C"]).
  apply (bool_decide_unpack _). by vm_compute.
Qed.

Lemma chainWithLoadedA_closed : closed chainWithLoadedA.
Proof.
  apply allRegistered_closed. apply (bool_decide_unpack _). by vm_compute.
Qed.

Lemma chainWithLoadedA_loadedAfterDependencies :
  loadedAfterDependencies chainWithLoadedA.
Proof.
  apply allLoadedAfterDependencies_sound.
  apply (bool_decide_unpack _). by vm_compute.
Qed.

Lemma resolve_lists_pending_dependencies_in_order_witness :
  acyclic chainWithLoadedA ∧ closed chainWithLoadedA ∧
  loadedAfterDependencies chainWithLoadedA ∧
  notYetLoaded chainWithLoadedA "C" ∧
  ∃ n, ∀ fuel, n ≤ fuel →
    ∃ ids l,
      collectedDepIds chainWithLoadedA fuel "C" = Ok ids ∧
      getNotYetLoadedTransitiveDepIds_ chainWithLoadedA fuel "C" = Ok l ∧
      last l = Some "C" ∧
      NoDup l ∧
      (∀ x, x ∈ l ↔
            x = "C" ∨ (tc (dependsOn chainWithLoadedA) "C" x ∧
                       notYetLoaded chainWithLoadedA x)) ∧
      (∀ x, x ∈ l → notYetLoaded chainWithLoadedA x) ∧
      (∀ x, x ∈ l → ∃ c1 c2 r1 r2,
         ids = c1 ++ x :: c2 ∧ (x ∉ c1) ∧ l = r1 ++ x :: r2 ∧
         ∀ y, y ∈ r1 ↔ y ∈ c1) ∧
      (∀ x y, x ∈ l → y ∈ l → tc (dependsOn chainWithLoadedA) y x →
              before l x y).
Proof.
  assert (notYetLoaded chainWithLoadedA "C") as HC.
  { exists (pendingModule ["B"]). split; reflexivity. }
  split; [exact chainWithLoadedA_acyclic|].
  split; [exact chainWithLoadedA_closed|].
  split; [exact chainWithLoadedA_loadedAfterDependencies|].
  split; [exact HC|].
  exact (resolve_lists_pending_dependencies_in_order chainWithLoadedA "C"
           chainWithLoadedA_acyclic chainWithLoadedA_closed
           chainWithLoadedA_loadedAfterDependencies HC).
Defined.

(** ** What is with the loader is not loaded: no module named undefined *)

Lemma sameGraph_None m m' k : sameGraph m m' → m !! k = None → m' !! k = None.
Proof.
  intros Hsame Hk. specialize (Hsame k). rewrite Hk in Hsame.
  by destruct (m' !! k).
Qed.

(** An operation registers no module of its own accord. *)
Lemma runOp_registers_nothing fuel op w w' k :
  runOp fuel op w = Ok (tt, w') →
  (∀ infoMap, op = OpSetAllModuleInfo infoMap → infoMap !! k = None) →
  moduleInfoMap_ (manager w) !! k = None →
  moduleInfoMap_ (manager w') !! k = None.
Proof.
  intros Hrun Hop Hk.
  assert (∀ c : M unit,
            (∀ m, keeps (graphIs m) c) → c w = Ok (tt, w') →
            moduleInfoMap_ (manager w') !! k = None) as Hkeeps.
  { intros c Hc Hc'. apply (sameGraph_None (moduleInfoMap_ (manager w)));
      [|done].
    apply (Hc _ _ _ _ Hc'). apply sameGraph_refl. }
  destruct op; simpl in Hrun.
  - revert Hrun. apply Hkeeps. intros m. unfold setBatchModeEnabled.
    inv_steps.
  - injection Hrun as <-. simpl.
    rewrite lookup_union, lookup_fmap, (Hop infoMap eq_refl), Hk. done.
  - revert Hrun. apply Hkeeps. intros m. unfold setModuleContext. inv_steps.
  - revert Hrun. apply Hkeeps. intros m.
    unfold registerCallback, registerCallback_. inv_steps.
  - revert Hrun. apply Hkeeps. intros m. unfold load, getModuleInfo.
    inv_steps.
  - revert Hrun. apply Hkeeps. intros m.
    unfold execOnLoad, getModuleInfo, pushUserInitiated. inv_steps.
  - revert Hrun. apply Hkeeps. intros m. unfold preloadModule. inv_steps.
  - revert Hrun. apply Hkeeps. intros m.
    apply keeps_runTimeout,
      graph_loadModuleOrEnqueueIfNotLoadedOrLoading_.
  - revert Hrun. apply Hkeeps. intros m. unfold beforeLoadModuleCode.
    inv_steps.
  - revert Hrun. apply Hkeeps. intros m. unfold afterLoadModuleCode.
    inv_steps.
  - revert Hrun. apply Hkeeps. intros m.
    apply graph_registerInitializationCallback.
  - apply graph_setLoaded in Hrun as (info & Hid & Hsame).
    apply (sameGraph_None _ _ _ Hsame).
    rewrite lookup_insert_ne; [done|]. intros ->. congruence.
  - revert Hrun. apply Hkeeps. intros m. unfold handleLoadError_. inv_steps.
  - revert Hrun. apply Hkeeps. intros m. unfold handleLoadTimeout_.
    inv_steps.
Qed.

(** X5: the ids with the loader are distinct, registered and not loaded,
    as long as no module goes by the name undefined.  Let
    [loadingModuleIds_] have no id twice and hold only ids of registered
    modules that are not loaded, as in a new manager, let no module be
    registered under the name undefined, and let setAllModuleInfo
    register none.  Then both are so after every sequence of operations
    that return. *)
Theorem loading_ids_are_pending
    (fuel : nat) (ops : list Op) (w w' : World) :
  loadingPending (manager w) →
  moduleInfoMap_ (manager w) !! "undefined" = None →
  (∀ infoMap, OpSetAllModuleInfo infoMap ∈ ops →
              infoMap !! "undefined" = None) →
  runOps fuel ops w = Ok (tt, w') →
  loadingPending (manager w') ∧
  moduleInfoMap_ (manager w') !! "undefined" = None.
Proof.
  revert w. induction ops as [|op ops IH]; intros w Hpending Hnone Hops;
    simpl.
  - by intros [= <-].
  - intros ([] & w1 & Hop & Hrun)%bind_Ok_inv.
    apply (IH w1); [| | |done].
    + by eapply pending_runOp.
    + eapply runOp_registers_nothing; [done| |done].
      intros infoMap ->. apply Hops. by left.
    + intros infoMap Hin. apply Hops. by right.
Qed.

Lemma loading_ids_are_pending_witness :
  loadingPending (manager newWorld) ∧
  moduleInfoMap_ (manager newWorld) !! "undefined" = None ∧
  (∀ infoMap,
     OpSetAllModuleInfo infoMap ∈
       [OpSetAllModuleInfo chainInfo; OpSetBatchModeEnabled true;
        OpLoad "C"; OpSetLoaded "A"] →
     infoMap !! "undefined" = None) ∧
  runOps 10 [OpSetAllModuleInfo chainInfo; OpSetBatchModeEnabled true;
             OpLoad "C"; OpSetLoaded "A"] newWorld =
    Ok (tt, worldAfter 10 [OpSetAllModuleInfo chainInfo;
                           OpSetBatchModeEnabled true; OpLoad "C";
                           OpSetLoaded "A"]) ∧
  loadingPending
    (manager (worldAfter 10 [OpSetAllModuleInfo chainInfo;
                             OpSetBatchModeEnabled true; OpLoad "C";
                             OpSetLoaded "A"])) ∧
  moduleInfoMap_
    (manager (worldAfter 10 [OpSetAllModuleInfo chainInfo;
                             OpSetBatchModeEnabled true; OpLoad "C";
                             OpSetLoaded "A"])) !! "undefined" = None.
Proof.
  assert (loadingPending (manager newWorld)) as Hpending
    by exact (nothing_loading_pending newModuleManager eq_refl).
  assert (∀ infoMap,
            OpSetAllModuleInfo infoMap ∈
              [OpSetAllModuleInfo chainInfo; OpSetBatchModeEnabled true;
               OpLoad "C"; OpSetLoaded "A"] →
            infoMap !! "undefined" = None) as Hops.
  { intros infoMap Hin.
    apply elem_of_cons in Hin as [Hin|Hin];
      [injection Hin as ->; reflexivity|].
    repeat (apply elem_of_cons in Hin as [Hin|Hin]; [discriminate Hin|]).
    by apply elem_of_nil in Hin. }
  assert (runOps 10 [OpSetAllModuleInfo chainInfo;
                     OpSetBatchModeEnabled true; OpLoad "C";
                     OpSetLoaded "A"] newWorld =
          Ok (tt, worldAfter 10 [OpSetAllModuleInfo chainInfo;
                                 OpSetBatchModeEnabled true; OpLoad "C";
                                 OpSetLoaded "A"]))
    as Hrun by (vm_compute; reflexivity).
  split; [exact Hpending|]. split; [reflexivity|]. split; [exact Hops|].
  split; [exact Hrun|].
  exact (loading_ids_are_pending 10 _ newWorld _ Hpending eq_refl Hops Hrun).
Defined.

(** ** Callbacks that call back into the manager *)

Lemma bind_ret_r (c : M unit) (w : World) : bind c (λ _, ret tt) w = c w.
Proof. unfold bind, ret. by destruct (c w) as [[[] w']| |]. Qed.

Lemma bind_ext {A B} (c c' : M A) (k k' : A → M B) :
  (∀ w, c w = c' w) → (∀ a w, k a w = k' a w) →
  ∀ w, bind c k w = bind c' k' w.
Proof.
  intros Hc Hk w. unfold bind. rewrite Hc.
  destruct (c' w) as [[a w']| |]; [apply Hk|done..].
Qed.

Lemma forEach_ext {A} (arr : list A) (body body' : A → M unit) :
  (∀ x w, body x w = body' x w) →
  ∀ w, forEach arr body w = forEach arr body' w.
Proof.
  intros Hbody. induction arr as [|x arr IH]; intros w; simpl; [done|].
  by apply bind_ext.
Qed.

(** Goes through two methods that differ in the callbacks only. *)
Ltac same_steps :=
  repeat first
    [ reflexivity
    | assumption
    | progress eauto 2 with same
    | apply bind_ext; [intros ?|intros ? ?]
    | apply forEach_ext; intros ? ?
    | match goal with
      | |- (if ?b then _ else _) _ = _ => destruct b
      | |- match ?x with _ => _ end _ = _ => destruct x
      end ].

Create HintDb same discriminated.

Section quiet_callbacks.
Variable called : nat → CallbackType → M unit.
Hypothesis Hquiet : ∀ fn type w, called fn type w = Ok (tt, w).

Lemma quiet_executeCallbacks_ type w :
  Reentrant.executeCallbacks_ called type w = executeCallbacks_ type w.
Proof.
  unfold Reentrant.executeCallbacks_, executeCallbacks_. revert w.
  same_steps. unfold bind, emit. by rewrite Hquiet.
Qed.
#[local] Hint Resolve quiet_executeCallbacks_ : same.

Lemma quiet_dispatchActiveIdleChangeIfNeeded_ w :
  Reentrant.dispatchActiveIdleChangeIfNeeded_ called w =
  dispatchActiveIdleChangeIfNeeded_ w.
Proof.
  unfold Reentrant.dispatchActiveIdleChangeIfNeeded_,
    dispatchActiveIdleChangeIfNeeded_. revert w. same_steps.
Qed.
#[local] Hint Resolve quiet_dispatchActiveIdleChangeIfNeeded_ : same.

Lemma quiet_loadModule_ fuel id opt_isRetry w :
  Reentrant.loadModule_ called fuel id opt_isRetry w =
  loadModule_ fuel id opt_isRetry w.
Proof.
  unfold Reentrant.loadModule_, loadModule_. revert w. same_steps.
Qed.
#[local] Hint Resolve quiet_loadModule_ : same.

Lemma quiet_loadModuleOrEnqueue_ fuel id w :
  Reentrant.loadModuleOrEnqueue_ called fuel id w =
  loadModuleOrEnqueue_ fuel id w.
Proof.
  unfold Reentrant.loadModuleOrEnqueue_, loadModuleOrEnqueue_. revert w.
  same_steps.
Qed.
#[local] Hint Resolve quiet_loadModuleOrEnqueue_ : same.

Lemma quiet_loadNextModule_from fuel queue w :
  Reentrant.loadNextModule_from called fuel queue w =
  loadNextModule_from fuel queue w.
Proof.
  revert w. induction queue as [|nextId queue IH]; simpl; same_steps.
Qed.
#[local] Hint Resolve quiet_loadNextModule_from : same.

Lemma quiet_loadNextModule_ fuel w :
  Reentrant.loadNextModule_ called fuel w = loadNextModule_ fuel w.
Proof.
  unfold Reentrant.loadNextModule_, loadNextModule_. revert w. same_steps.
Qed.
#[local] Hint Resolve quiet_loadNextModule_ : same.

Lemma quiet_dispatchModuleLoadFailed_ fuel cause w :
  Reentrant.dispatchModuleLoadFailed_ called fuel cause w =
  dispatchModuleLoadFailed_ fuel cause w.
Proof.
  unfold Reentrant.dispatchModuleLoadFailed_, dispatchModuleLoadFailed_.
  revert w. same_steps.
Qed.
#[local] Hint Resolve quiet_dispatchModuleLoadFailed_ : same.

(** The methods written over the callbacks are the methods above when
    the registered functions leave the manager alone. *)
Lemma quiet_callbacks fuel :
  (∀ moduleId w, Reentrant.load called fuel moduleId w = load fuel moduleId w) ∧
  (∀ id w, Reentrant.setLoaded called fuel id w = setLoaded fuel id w) ∧
  (∀ status w,
     Reentrant.handleLoadError_ called fuel status w =
     handleLoadError_ fuel status w) ∧
  (∀ w, Reentrant.handleLoadTimeout_ called fuel w =
        handleLoadTimeout_ fuel w).
Proof.
  split_and!.
  - intros moduleId. unfold Reentrant.load, load. same_steps.
  - intros id. unfold Reentrant.setLoaded, setLoaded. same_steps.
  - intros status. unfold Reentrant.handleLoadError_, handleLoadError_.
    same_steps.
  - unfold Reentrant.handleLoadTimeout_, handleLoadTimeout_. same_steps.
Qed.

End quiet_callbacks.

(** C8: a registered function that calls load upsets the flags.  On
    {X: [], Y: []} with functions 7 and 8 registered for ACTIVE, where 7
    calls load("Y") when it is called, load("X") on the idle manager makes
    one transition to active and calls 7 and 8 twice each: the load that 7
    makes runs dispatchActiveIdleChangeIfNeeded_ again while [lastActive_]
    still says idle.  With functions that leave the manager alone each is
    called once.  With function 9 registered for IDLE, where 9 calls
    load("Y"), and X with the loader, status 401 leaves Y with the loader
    and [lastActive_] false: the flag is written after the callbacks have
    run, with the value read before. *)
Theorem callback_that_loads_upsets_the_flags :
  ∃ d w1 d' w1' w2,
    loadingModuleIds_ (manager worldWithActiveCallbacks) = [] ∧
    lastActive_ (manager worldWithActiveCallbacks) = false ∧
    registered (manager worldWithActiveCallbacks) ACTIVE = [7; 8] ∧
    Reentrant.load (callbackLoads loadsYWhenActive 5 10) 10 "X"
      worldWithActiveCallbacks = Ok (d, w1) ∧
    calls w1 =
      [Notify 7 ACTIVE; Notify 7 ACTIVE; Notify 8 ACTIVE; Notify 8 ACTIVE;
       LoadModules ["X"]] ∧
    loadingModuleIds_ (manager w1) = ["X"] ∧
    requestedModuleIdsQueue_ (manager w1) = ["Y"] ∧
    load 10 "X" worldWithActiveCallbacks = Ok (d', w1') ∧
    calls w1' = [Notify 7 ACTIVE; Notify 8 ACTIVE; LoadModules ["X"]] ∧
    loadingModuleIds_ (manager worldWithIdleCallback) = ["X"] ∧
    lastActive_ (manager worldWithIdleCallback) = true ∧
    registered (manager worldWithIdleCallback) IDLE = [9] ∧
    Reentrant.handleLoadError_ (callbackLoads loadsYWhenIdle 5 10) 10 401
      worldWithIdleCallback = Ok (tt, w2) ∧
    calls w2 =
      calls worldWithIdleCallback ++ [Notify 9 IDLE; LoadModules ["Y"]] ∧
    loadingModuleIds_ (manager w2) = ["Y"] ∧
    lastActive_ (manager w2) = false.
Proof.
  eexists _, _, _, _, _.
  split_and!; try (vm_compute; reflexivity).
Qed.
(** * The callbacks an operation calls *)

Lemma notified_app evs evs' :
  notified (evs ++ evs') = notified evs ++ notified evs'.
Proof. apply bind_app. Qed.

Lemma notified_notifications mm type :
  notified (notifications mm type) = notifications mm type.
Proof.
  unfold notifications. induction (registered mm type) as [|fn fns IH];
    [done|]. change (Notify fn type :: notified ((λ fn, Notify fn type) <$> fns)
                     = Notify fn type :: ((λ fn, Notify fn type) <$> fns)).
  by rewrite IH.
Qed.

Lemma flagCalls_same mm on off b : flagCalls mm on off b b = [].
Proof. unfold flagCalls. by rewrite eqb_reflx. Qed.

Lemma transitionCalls_same mm a u : transitionCalls mm a u a u = [].
Proof. unfold transitionCalls. by rewrite !flagCalls_same. Qed.

Lemma flagCalls_callbackMap_ mm mm' on off a a' :
  callbackMap_ mm = callbackMap_ mm' →
  flagCalls mm on off a a' = flagCalls mm' on off a a'.
Proof. unfold flagCalls, notifications, registered. by intros ->. Qed.

Lemma transitionCalls_callbackMap_ mm mm' a u a' u' :
  callbackMap_ mm = callbackMap_ mm' →
  transitionCalls mm a u a' u' = transitionCalls mm' a u a' u'.
Proof.
  intros H. unfold transitionCalls.
  by rewrite !(flagCalls_callbackMap_ mm mm' _ _ _ _ H).
Qed.

Lemma quiet_refl w : quiet w w.
Proof. exists []. by rewrite app_nil_r. Qed.

Lemma quiet_trans w1 w2 w3 : quiet w1 w2 → quiet w2 w3 → quiet w1 w3.
Proof.
  intros (evs & Hcalls & Hnone & Ha & Hu & Hmap)
         (evs' & Hcalls' & Hnone' & Ha' & Hu' & Hmap').
  exists (evs ++ evs'). rewrite notified_app, Hnone, Hnone'.
  split_and!; [|done|congruence..]. by rewrite Hcalls', Hcalls, app_assoc.
Qed.

Lemma quiet_oneRound w1 w2 w3 : quiet w1 w2 → oneRound w2 w3 → oneRound w1 w3.
Proof.
  intros (evs & Hcalls & Hnone & Ha & Hu & Hmap)
         (evs' & Hcalls' & Hround & Hmap').
  exists (evs ++ evs'). rewrite notified_app, Hnone, Hround, Ha, Hu.
  split_and!; [|by apply transitionCalls_callbackMap_|congruence].
  by rewrite Hcalls', Hcalls, app_assoc.
Qed.

Lemma oneRound_quiet w1 w2 w3 : oneRound w1 w2 → quiet w2 w3 → oneRound w1 w3.
Proof.
  intros (evs & Hcalls & Hround & Hmap)
         (evs' & Hcalls' & Hnone & Ha & Hu & Hmap').
  exists (evs ++ evs'). rewrite notified_app, Hnone, Hround, Ha, Hu.
  split_and!; [|by rewrite app_nil_r|congruence].
  by rewrite Hcalls', Hcalls, app_assoc.
Qed.

Lemma quiet_is_oneRound w w' : quiet w w' → oneRound w w'.
Proof.
  intros (evs & Hcalls & Hnone & Ha & Hu & Hmap). exists evs.
  by rewrite Ha, Hu, transitionCalls_same.
Qed.

(** *** Steps that call no registered function *)

Lemma silent_bind {A B} (c : M A) (k : A → M B) :
  silent c → (∀ a, silent (k a)) → silent (bind c k).
Proof.
  intros Hc Hk w b w'' (a & w' & Hrun & Hrun')%bind_Ok_inv.
  eapply quiet_trans; [by eapply Hc|by eapply Hk].
Qed.

Lemma silent_ret {A} (a : A) : silent (ret a).
Proof. intros w a' w' [= <- <-]. apply quiet_refl. Qed.

Lemma silent_throw {A} (e : Exn) : silent (@throw A e).
Proof. by intros w a w'. Qed.

Lemma silent_gets {A} (f : ModuleManager → A) : silent (gets f).
Proof. intros w a' w' [= <- <-]. apply quiet_refl. Qed.

Lemma silent_liftResult {A} (r : Result A) : silent (liftResult r).
Proof.
  intros w a' w'. unfold liftResult.
  destruct r; intros [= <- <-]. apply quiet_refl.
Qed.

Lemma silent_newDeferred : silent newDeferred.
Proof. intros w a' w' [= <- <-]. exists []. by rewrite app_nil_r. Qed.

Lemma silent_fire d state : silent (fire d state).
Proof. intros w a' w' [= <- <-]. exists []. by rewrite app_nil_r. Qed.

Lemma silent_setTimeout t : silent (setTimeout t).
Proof. intros w a' w' [= <- <-]. exists []. by rewrite app_nil_r. Qed.

Lemma silent_emit (e : Event) : notified [e] = [] → silent (emit e).
Proof. intros He w a' w' [= <- <-]. by exists [e]. Qed.

Lemma silent_modify (f : ModuleManager → ModuleManager) :
  (∀ mm, lastActive_ (f mm) = lastActive_ mm ∧
         userLastActive_ (f mm) = userLastActive_ mm ∧
         callbackMap_ (f mm) = callbackMap_ mm) →
  silent (modify f).
Proof.
  intros Hf w a' w' [= <- <-]. exists []. simpl. rewrite app_nil_r.
  destruct (Hf (manager w)) as (? & ? & ?). done.
Qed.

Lemma silent_forEach {A} (arr : list A) (body : A → M unit) :
  (∀ x, silent (body x)) → silent (forEach arr body).
Proof.
  intros Hbody. induction arr as [|x arr IH]; simpl.
  - apply silent_ret.
  - apply silent_bind; auto.
Qed.

Create HintDb silent discriminated.

#[export] Hint Resolve silent_ret silent_throw silent_gets silent_liftResult
  silent_newDeferred silent_fire silent_setTimeout : silent.

(** Splits a method into its steps and settles those that are known. *)
Ltac silent_steps :=
  repeat first
    [ progress eauto 2 with silent
    | apply silent_modify; by intros []
    | apply silent_emit; reflexivity
    | apply silent_forEach; intros ?
    | apply silent_bind; [|intros ?]
    | match goal with
      | |- silent (if ?b then _ else _) => destruct b
      | |- silent (match ?x with _ => _ end) => destruct x
      end ].

Lemma silent_execute fn arg : silent (execute fn arg).
Proof. destruct fn; simpl; silent_steps. Qed.
#[export] Hint Resolve silent_execute : silent.

Lemma silent_callCallbacks_ callbacks arg :
  silent (callCallbacks_ callbacks arg).
Proof. unfold callCallbacks_. silent_steps. Qed.
#[export] Hint Resolve silent_callCallbacks_ : silent.

Lemma silent_putModuleInfo id info : silent (putModuleInfo id info).
Proof. unfold putModuleInfo. silent_steps. Qed.
#[export] Hint Resolve silent_putModuleInfo : silent.

Lemma silent_onLoad id info : silent (onLoad id info).
Proof. unfold onLoad. silent_steps. Qed.

Lemma silent_onError id info cause : silent (onError id info cause).
Proof. unfold onError. silent_steps. Qed.
#[export] Hint Resolve silent_onLoad silent_onError : silent.

Lemma silent_resolve fuel id : silent (resolve fuel id).
Proof. unfold resolve. silent_steps. Qed.
#[export] Hint Resolve silent_resolve : silent.

Lemma silent_filterDependents fuel queue id :
  silent (filterDependents fuel queue id).
Proof. induction queue as [|requestedId queue IH]; simpl; silent_steps. Qed.
#[export] Hint Resolve silent_filterDependents : silent.

Lemma silent_registerCallback_on id fn : silent (registerCallback_on id fn).
Proof. unfold registerCallback_on, getModuleInfo. silent_steps. Qed.

Lemma silent_registerErrback_on id fn : silent (registerErrback_on id fn).
Proof. unfold registerErrback_on, getModuleInfo. silent_steps. Qed.
#[export] Hint Resolve silent_registerCallback_on silent_registerErrback_on
  : silent.

Lemma silent_isModuleLoading id : silent (isModuleLoading id).
Proof. apply silent_gets. Qed.

Lemma silent_pushUserInitiated moduleId : silent (pushUserInitiated moduleId).
Proof. unfold pushUserInitiated. silent_steps. Qed.
#[export] Hint Resolve silent_isModuleLoading silent_pushUserInitiated
  : silent.

(** *** Steps that bring the flags in step *)

Lemma single_dispatchActiveIdleChangeIfNeeded_ :
  single dispatchActiveIdleChangeIfNeeded_.
Proof.
  intros w a w'. rewrite dispatchActiveIdleChangeIfNeeded_run.
  intros [= <- <-]. split; [|done].
  exists (activeChange (manager w) ++ userActiveChange (manager w)).
  split_and!; [done| |done]. simpl.
  unfold transitionCalls, flagCalls, activeChange, userActiveChange.
  rewrite notified_app.
  destruct (negb (eqb (isActiveNow (manager w)) (lastActive_ (manager w))));
    destruct (negb (eqb (isUserActiveNow (manager w))
                      (userLastActive_ (manager w))));
    by rewrite ?notified_notifications.
Qed.

Lemma steady_dispatchActiveIdleChangeIfNeeded_ :
  steady dispatchActiveIdleChangeIfNeeded_.
Proof.
  intros w a w'. rewrite dispatchActiveIdleChangeIfNeeded_run.
  intros [= <- <-] Hsync.
  rewrite syncFlags_in_sync, activeChange_in_sync, userActiveChange_in_sync,
    setManager_same by done.
  split; [|done]. exists []. by rewrite app_nil_r.
Qed.

Lemma steady_silent {A} (c : M A) : silent c → preservesSync c → steady c.
Proof. intros Hc Hc' w a w' Hrun Hsync. split; eauto. Qed.

Lemma single_throw {A} (e : Exn) : single (@throw A e).
Proof. by intros w a w'. Qed.

Lemma single_bind_l {A B} (c : M A) (k : A → M B) :
  silent c → (∀ a, single (k a)) → single (bind c k).
Proof.
  intros Hc Hk w b w'' (a & w' & Hrun & Hrun')%bind_Ok_inv.
  destruct (Hk _ _ _ _ Hrun') as [Hround Hsync]. split; [|done].
  eapply quiet_oneRound; [by eapply Hc|done].
Qed.

Lemma single_bind_r {A B} (c : M A) (k : A → M B) :
  single c → (∀ a, steady (k a)) → single (bind c k).
Proof.
  intros Hc Hk w b w'' (a & w' & Hrun & Hrun')%bind_Ok_inv.
  destruct (Hc _ _ _ Hrun) as [Hround Hsync].
  destruct (Hk _ _ _ _ Hrun' Hsync) as [Hquiet Hsync']. split; [|done].
  by eapply oneRound_quiet.
Qed.

Create HintDb single discriminated.

#[export] Hint Resolve single_throw single_dispatchActiveIdleChangeIfNeeded_
  steady_dispatchActiveIdleChangeIfNeeded_ : single.

(** Takes the silent steps off the front of a method, then the steady
    ones off its end. *)
Ltac single_steps :=
  repeat first
    [ progress eauto 2 with single
    | apply single_bind_l; [solve [silent_steps]|intros ?]
    | apply single_bind_r; [solve [eauto 2 with single]|intros ?]
    | match goal with
      | |- single (if ?b then _ else _) => destruct b
      | |- single (match ?x with _ => _ end) => destruct x
      | |- single (bind (match ?x with _ => _ end) _) => destruct x
      end ].

Lemma single_loadModule_ fuel id opt_isRetry :
  single (loadModule_ fuel id opt_isRetry).
Proof.
  unfold loadModule_, getModuleInfo. single_steps.
  apply steady_silent; [silent_steps|apply preserves_emit].
Qed.
#[export] Hint Resolve single_loadModule_ : single.

Lemma single_loadModuleOrEnqueue_ fuel id :
  single (loadModuleOrEnqueue_ fuel id).
Proof. unfold loadModuleOrEnqueue_. single_steps. Qed.
#[export] Hint Resolve single_loadModuleOrEnqueue_ : single.

Lemma single_loadNextModule_from fuel queue :
  single (loadNextModule_from fuel queue).
Proof.
  induction queue as [|nextId queue IH]; simpl; unfold getModuleInfo;
    single_steps.
Qed.
#[export] Hint Resolve single_loadNextModule_from : single.

Lemma single_loadNextModule_ fuel : single (loadNextModule_ fuel).
Proof. unfold loadNextModule_. single_steps. Qed.
#[export] Hint Resolve single_loadNextModule_ : single.

Lemma single_setLoaded fuel id : single (setLoaded fuel id).
Proof. unfold setLoaded, getModuleInfo. single_steps. Qed.

Lemma single_dispatchModuleLoadFailed_ fuel cause :
  single (dispatchModuleLoadFailed_ fuel cause).
Proof. unfold dispatchModuleLoadFailed_, getModuleInfo. single_steps. Qed.
#[export] Hint Resolve single_dispatchModuleLoadFailed_ : single.

(** *** Methods that call once, or not at all *)

Lemma accounted_silent {A} (c : M A) : silent c → accounted c.
Proof. intros Hc w a w' Hrun _. apply quiet_is_oneRound. by eapply Hc. Qed.

Lemma accounted_single {A} (c : M A) : single c → accounted c.
Proof. intros Hc w a w' Hrun _. by eapply Hc. Qed.

Lemma accounted_bind_l {A B} (c : M A) (k : A → M B) :
  silent c → preservesSync c → (∀ a, accounted (k a)) →
  accounted (bind c k).
Proof.
  intros Hc Hc' Hk w b w'' (a & w' & Hrun & Hrun')%bind_Ok_inv Hsync.
  eapply quiet_oneRound; [by eapply Hc|].
  eapply Hk; [done|]. by eapply Hc'.
Qed.

Lemma accounted_bind_r {A B} (c : M A) (k : A → M B) :
  accounted c → (∀ a, silent (k a)) → accounted (bind c k).
Proof.
  intros Hc Hk w b w'' (a & w' & Hrun & Hrun')%bind_Ok_inv Hsync.
  eapply oneRound_quiet; [by eapply Hc|by eapply Hk].
Qed.

Lemma accounted_load fuel moduleId : accounted (load fuel moduleId).
Proof.
  unfold load, getModuleInfo.
  apply accounted_bind_l; [silent_steps|apply preserves_gets|].
  intros moduleInfo.
  apply accounted_bind_l; [silent_steps|apply preserves_newDeferred|].
  intros d. destruct moduleInfo as [moduleInfo|];
    [|apply accounted_silent, silent_throw].
  apply accounted_bind_r; [|intros _; apply silent_ret].
  destruct (isLoaded moduleInfo); [apply accounted_silent; silent_steps|].
  apply accounted_bind_l; [silent_steps|apply preserves_isModuleLoading|].
  intros [|]; [apply accounted_silent; silent_steps|].
  apply accounted_single. single_steps.
Qed.

Lemma accounted_execOnLoad fuel moduleId f h noLoad userInitiated sync :
  accounted (execOnLoad fuel moduleId f h noLoad userInitiated sync).
Proof.
  unfold execOnLoad, getModuleInfo.
  apply accounted_bind_l; [silent_steps|apply preserves_gets|].
  intros [moduleInfo|]; [|apply accounted_silent, silent_throw].
  destruct (isLoaded moduleInfo); [apply accounted_silent; silent_steps|].
  apply accounted_bind_l; [silent_steps|apply preserves_isModuleLoading|].
  intros [|].
  - destruct userInitiated; [|apply accounted_silent; silent_steps].
    apply accounted_single. single_steps.
  - destruct noLoad; simpl; [apply accounted_silent; silent_steps|].
    apply accounted_single. single_steps.
Qed.

Lemma accounted_loadModuleOrEnqueueIfNotLoadedOrLoading_ fuel id d :
  accounted (loadModuleOrEnqueueIfNotLoadedOrLoading_ fuel id d).
Proof.
  unfold loadModuleOrEnqueueIfNotLoadedOrLoading_, getModuleInfo.
  apply accounted_bind_l; [silent_steps|apply preserves_gets|].
  intros [moduleInfo|]; [|apply accounted_silent, silent_throw].
  destruct (isLoaded moduleInfo); [apply accounted_silent; silent_steps|].
  apply accounted_bind_l;
    [silent_steps|apply preserves_registerCallback_on|]. intros _.
  apply accounted_bind_l;
    [silent_steps|apply preserves_registerErrback_on|]. intros _.
  apply accounted_bind_l; [silent_steps|apply preserves_isModuleLoading|].
  intros [|]; [apply accounted_silent, silent_ret|].
  apply accounted_single. single_steps.
Qed.

Lemma accounted_runTimeout fuel i : accounted (runTimeout fuel i).
Proof.
  intros w a w'. unfold runTimeout.
  destruct (timeouts w !! i) as [[fn|id d]|].
  - intros Hrun _. apply silent_execute in Hrun.
    destruct Hrun as (evs & Hcalls & Hnone & Ha & Hu & Hmap).
    apply quiet_is_oneRound. by exists evs.
  - intros Hrun Hsync.
    destruct (accounted_loadModuleOrEnqueueIfNotLoadedOrLoading_
                _ _ _ _ _ _ Hrun Hsync) as (evs & Hcalls & Hround & Hmap).
    by exists evs.
  - intros [= <- <-] _. apply quiet_is_oneRound, quiet_refl.
Qed.

Lemma registerCallback_inv types fn w w' :
  registerCallback types fn w = Ok (tt, w') →
  calls w' = calls w ∧ lastActive_ (manager w') = lastActive_ (manager w) ∧
  userLastActive_ (manager w') = userLastActive_ (manager w).
Proof.
  unfold registerCallback. revert w.
  induction types as [|type types IH]; intros w; simpl.
  - by intros [= <-].
  - unfold registerCallback_ at 1. rewrite bind_modify.
    intros (-> & -> & ->)%IH. done.
Qed.

(** *** A failure that moves on to the queue *)

Lemma userInitiated_loadNextModule_from l fuel queue :
  keeps (λ mm, userInitiatedLoadingModuleIds_ mm = l)
    (loadNextModule_from fuel queue).
Proof.
  assert (flagBlind (λ mm, userInitiatedLoadingModuleIds_ mm = l))
    by (by intros mm a u).
  induction queue as [|nextId queue IH]; simpl;
    unfold loadModule_, getModuleInfo; inv_steps.
Qed.

Lemma nothing_loads_after_failure fuel cause :
  ensures (λ mm, loadingModuleIds_ mm = [])
    (dispatchModuleLoadFailed_ fuel cause).
Proof.
  unfold dispatchModuleLoadFailed_. apply ensures_bind. intros loading.
  apply ensures_bind_l; [by apply ensures_modify|]. intros _.
  unfold getModuleInfo, onError, putModuleInfo. inv_steps.
Qed.

Lemma failure_then_next_calls fuel cause w0 w w' :
  quiet w0 w →
  (dispatchModuleLoadFailed_ fuel cause ;; loadNextModule_ fuel) w
    = Ok (tt, w') →
  ∃ events, calls w' = calls w0 ++ events ∧
    notified events =
      flagCalls (manager w0) ACTIVE IDLE (lastActive_ (manager w0)) false ++
      flagCalls (manager w0) USER_ACTIVE USER_IDLE
        (userLastActive_ (manager w0)) (userLastActive_ (manager w')) ++
      flagCalls (manager w0) ACTIVE IDLE false (lastActive_ (manager w')).
Proof.
  intros Hquiet ([] & w1 & Hfail & Hnext)%bind_Ok_inv.
  pose proof (nothing_loads_after_failure _ _ _ _ _ Hfail) as Hnone.
  simpl in Hnone.
  destruct (single_dispatchModuleLoadFailed_ _ _ _ _ _ Hfail)
    as [Hround [Ha1 Hu1]].
  destruct (single_loadNextModule_ _ _ _ _ Hnext) as [Hround' [Ha' Hu']].
  assert (userLastActive_ (manager w1) = userLastActive_ (manager w')) as Hu.
  { rewrite Hu1, Hu'. unfold isUserActiveNow. f_equal. f_equal.
    unfold loadNextModule_ in Hnext. rewrite bind_gets in Hnext.
    symmetry.
    exact (userInitiated_loadNextModule_from _ _ _ _ _ _ Hnext eq_refl). }
  assert (lastActive_ (manager w1) = false) as Ha.
  { rewrite Ha1. unfold isActiveNow. by rewrite Hnone. }
  pose proof (quiet_oneRound _ _ _ Hquiet Hround) as Hround0.
  destruct Hround0 as (evs & Hcalls & Hevs & Hmap).
  destruct Hround' as (evs' & Hcalls' & Hevs' & Hmap').
  destruct Hquiet as (_ & _ & _ & _ & _ & Hmap0).
  exists (evs ++ evs'). split; [by rewrite Hcalls', Hcalls, app_assoc|].
  rewrite notified_app, Hevs, Hevs'. unfold transitionCalls.
  rewrite Ha, Hu, flagCalls_same, app_nil_r, <- app_assoc.
  do 2 f_equal. apply flagCalls_callbackMap_. congruence.
Qed.

(** X19: every operation calls the registered functions for the
    transitions it makes, and for nothing else.  With the flags in step
    with the arrays when an operation starts and registered functions
    that leave the manager alone, an operation that returns leaves the
    flags in step, and the calls it makes for ACTIVE, IDLE, USER_ACTIVE
    and USER_IDLE are, for each flag whose value after the operation
    differs from its value before, every function registered for the
    event, once, in registration order, the ones of the active flag
    first; no function is called for a flag that has the value it had.
    The failure reports that give a load up and turn to the queue
    (timeout, status 410, the third failure in a row) make two
    transitions of the active flag when it was set and the queue holds a
    module to load: IDLE is called when the load is given up, ACTIVE
    when the next one starts. *)
Theorem each_operation_calls_for_its_transitions
    (fuel : nat) (op : Op) (w w' : World) :
  flagsInSync (manager w) → runOp fuel op w = Ok (tt, w') →
  flagsInSync (manager w') ∧
  ∃ events, calls w' = calls w ++ events ∧
    notified events =
      if movesOn op (manager w) then
        flagCalls (manager w) ACTIVE IDLE (lastActive_ (manager w)) false ++
        flagCalls (manager w) USER_ACTIVE USER_IDLE
          (userLastActive_ (manager w)) (userLastActive_ (manager w')) ++
        flagCalls (manager w) ACTIVE IDLE false (lastActive_ (manager w'))
      else
        transitionCalls (manager w)
          (lastActive_ (manager w)) (userLastActive_ (manager w))
          (lastActive_ (manager w')) (userLastActive_ (manager w')).
Proof.
  intros Hsync Hrun. split; [by eapply preserves_runOp|].
  assert (∀ c : M unit, accounted c → c w = Ok (tt, w') →
            ∃ events, calls w' = calls w ++ events ∧
              notified events =
                transitionCalls (manager w)
                  (lastActive_ (manager w)) (userLastActive_ (manager w))
                  (lastActive_ (manager w')) (userLastActive_ (manager w')))
    as Hone.
  { intros c Hc Hrun'.
    destruct (Hc _ _ _ Hrun' Hsync) as (evs & ? & ? & _). by exists evs. }
  assert (∀ c : M unit, silent c → accounted c) as Hsilent
    by (intros c; apply accounted_silent).
  destruct op; simpl in Hrun; cbv beta iota delta [movesOn].
  - eapply Hone, Hrun. apply Hsilent. unfold setBatchModeEnabled.
    silent_steps.
  - eapply Hone, Hrun. apply Hsilent. unfold setAllModuleInfo. silent_steps.
  - eapply Hone, Hrun. apply Hsilent. unfold setModuleContext. silent_steps.
  - apply registerCallback_inv in Hrun as (Hcalls & -> & ->).
    exists []. by rewrite app_nil_r, transitionCalls_same.
  - eapply Hone, Hrun.
    apply accounted_bind_r; [apply accounted_load|intros _; apply silent_ret].
  - eapply Hone, Hrun. apply accounted_execOnLoad.
  - eapply Hone, Hrun. apply Hsilent. unfold preloadModule. silent_steps.
  - eapply Hone, Hrun. apply accounted_runTimeout.
  - eapply Hone, Hrun. apply Hsilent. unfold beforeLoadModuleCode.
    silent_steps.
  - eapply Hone, Hrun. apply Hsilent. unfold afterLoadModuleCode.
    silent_steps.
  - eapply Hone, Hrun. apply Hsilent.
    unfold registerInitializationCallback, getModuleInfo. silent_steps.
  - eapply Hone, Hrun. apply accounted_single, single_setLoaded.
  - unfold handleLoadError_ in Hrun. rewrite bind_modify in Hrun.
    assert (quiet w
              (setManager
                 (set_consecutiveFailures_
                    (consecutiveFailures_ (manager w) + 1) (manager w)) w))
      as Hquiet by (exists []; by rewrite app_nil_r).
    assert (∀ c : M unit, single c →
              c (setManager
                   (set_consecutiveFailures_
                      (consecutiveFailures_ (manager w) + 1) (manager w)) w)
                = Ok (tt, w') →
              ∃ events, calls w' = calls w ++ events ∧
                notified events =
                  transitionCalls (manager w)
                    (lastActive_ (manager w)) (userLastActive_ (manager w))
                    (lastActive_ (manager w'))
                    (userLastActive_ (manager w'))) as Hafter.
    { intros c Hc Hrun'. destruct (Hc _ _ _ Hrun') as [Hround _].
      destruct (quiet_oneRound _ _ _ Hquiet Hround) as (evs & ? & ? & _).
      by exists evs. }
    destruct (status =? 401)%Z eqn:H401.
    { apply Z.eqb_eq in H401 as ->. simpl. eapply Hafter, Hrun.
      apply single_bind_r; [apply single_dispatchModuleLoadFailed_|].
      intros _. apply steady_silent; [silent_steps|].
      apply preserves_modify. by intros []. }
    destruct (status =? 410)%Z eqn:H410; cbn [orb andb negb].
    { by eapply failure_then_next_calls. }
    rewrite bind_gets in Hrun.
    cbn [manager setManager consecutiveFailures_ set_consecutiveFailures_]
      in Hrun.
    destruct (3 <=? consecutiveFailures_ (manager w) + 1) eqn:Hcount;
      cbn [orb andb negb].
    { by eapply failure_then_next_calls. }
    eapply Hafter, Hrun. single_steps.
  - unfold handleLoadTimeout_ in Hrun.
    eapply failure_then_next_calls; [apply quiet_refl|done].
Qed.

Lemma each_operation_calls_for_its_transitions_witness :
  flagsInSync (manager worldWithQueuedLoad) ∧
  runOp 10 OpHandleLoadTimeout worldWithQueuedLoad =
    Ok (tt, after (runOp 10 OpHandleLoadTimeout) worldWithQueuedLoad) ∧
  flagsInSync
    (manager (after (runOp 10 OpHandleLoadTimeout) worldWithQueuedLoad)) ∧
  ∃ events,
    calls (after (runOp 10 OpHandleLoadTimeout) worldWithQueuedLoad) =
      calls worldWithQueuedLoad ++ events ∧
    notified events = [Notify 9 IDLE; Notify 9 ACTIVE].
Proof.
  assert (flagsInSync (manager worldWithQueuedLoad)) as Hsync
    by (split; vm_compute; reflexivity).
  assert (runOp 10 OpHandleLoadTimeout worldWithQueuedLoad =
          Ok (tt, after (runOp 10 OpHandleLoadTimeout) worldWithQueuedLoad))
    as Hrun by (vm_compute; reflexivity).
  split; [exact Hsync|]. split; [exact Hrun|].
  exact (each_operation_calls_for_its_transitions
           10 OpHandleLoadTimeout worldWithQueuedLoad _ Hsync Hrun).
Defined.
